(** * A verification development for the AI code agent

    Shallow embedding of [code_executor.py] (class [CodeExecutor]: [__init__],
    [set_input_callback], [_detect_inputs], [_replace_inputs], [execute],
    [_safe_env], [cleanup], [save_code]) and of [agent.py] ([strip_think],
    [extract_code], [chat] and the loop of [main]), followed by the
    properties of the specification that were checked against them.

    Modelling conventions.
    - Text is [string]; a character is a code point below 256. Python's
      whitespace class (the one behind [\s] and [str.strip]) is restricted to
      that range.
    - Python's [re] module is embedded as a small backtracking matcher over a
      regular-expression syntax that covers the patterns of the sources. The
      patterns themselves are transliterated constructor by constructor.
    - Effects are explicit: a state-and-exception monad over a [State] that
      holds the executor object, the file system, and a log of the external
      interactions. What the outside world answers (the prompt callback, the
      child process, the clock, the HTTP endpoint) comes from an [Env] of
      oracles indexed by the number of interactions made so far. *)

From Stdlib Require Import ZArith Lia Ascii NArith DecimalString.
From stdpp Require Import base gmap strings list.

Local Open Scope Z_scope.
Local Open Scope nat_scope.

(** ** Characters and strings *)

Definition LF : ascii := "010"%char.
Definition DQ : ascii := "034"%char.
Definition SQ : ascii := "039"%char.
Definition BSL : ascii := "092"%char.

Definition str (c : ascii) : string := String c "".

Definition in_range (lo hi : N) (c : ascii) : bool :=
  let n := N_of_ascii c in ((lo <=? n) && (n <=? hi))%N.

(** Code points below 256 for which Python's [str.isspace] holds: TAB..CR,
    FS..US, SPACE, NEL and NBSP. *)
Definition is_space (c : ascii) : bool :=
  in_range 9 13 c || in_range 28 32 c || in_range 133 133 c || in_range 160 160 c.

Definition is_char (a : ascii) (c : ascii) : bool := bool_decide (a = c).

(** The class of the two quote characters, double and single. *)
Definition is_quote (c : ascii) : bool := is_char DQ c || is_char SQ c.

(** [.] without [re.DOTALL], and with it. *)
Definition not_newline (c : ascii) : bool := negb (is_char LF c).
Definition any_char (c : ascii) : bool := true.

Fixpoint drop_str (n : nat) (s : string) : string :=
  match n, s with
  | S n', String _ s' => drop_str n' s'
  | _, _ => s
  end.

Fixpoint take_str (n : nat) (s : string) : string :=
  match n, s with
  | S n', String c s' => String c (take_str n' s')
  | _, _ => ""
  end.

(** [s[i:j]] for [0 <= i <= j]. *)
Definition slice (i j : nat) (s : string) : string :=
  take_str (j - i) (drop_str i s).

(** [strip_prefix l s] is [Some rest] when [s = l ++ rest]. *)
Fixpoint strip_prefix (l s : string) : option string :=
  match l with
  | "" => Some s
  | String a l' =>
      match s with
      | String b s' => if bool_decide (a = b) then strip_prefix l' s' else None
      | "" => None
      end
  end.

Definition startswith (l s : string) : bool :=
  match strip_prefix l s with Some _ => true | None => false end.

(** [needle in hay]. *)
Fixpoint contains (needle hay : string) : bool :=
  startswith needle hay ||
  match hay with
  | "" => false
  | String _ hay' => contains needle hay'
  end.

Fixpoint lstrip (s : string) : string :=
  match s with
  | String c s' => if is_space c then lstrip s' else s
  | "" => ""
  end.

Definition rstrip (s : string) : string := String.rev (lstrip (String.rev s)).

(** [str.strip()] *)
Definition strip (s : string) : string := rstrip (lstrip s).

(** [s.replace(old, new)] for a one-character [old]: every occurrence. *)
Fixpoint replace_char (old : ascii) (new : string) (s : string) : string :=
  match s with
  | "" => ""
  | String c s' =>
      if bool_decide (c = old) then new +:+ replace_char old new s'
      else String c (replace_char old new s')
  end.

(** [s.replace(old, new, 1)]: the leftmost occurrence only; [s] itself when
    [old] does not occur. *)
Fixpoint replace_first (old new s : string) : string :=
  match strip_prefix old s with
  | Some rest => new +:+ rest
  | None =>
      match s with
      | "" => ""
      | String c s' => String c (replace_first old new s')
      end
  end.

(** Python truthiness of an optional string: [None] and the empty string
    are false. *)
Definition truthy (o : option string) : bool :=
  match o with
  | Some (String _ _) => true
  | _ => false
  end.

(** ** Regular expressions: the fragment of [re] the sources use *)

Module Re.

Inductive regex : Type :=
| Lit (s : string)                (* literal text *)
| Cls (p : ascii → bool)          (* one character of a class *)
| Star (p : ascii → bool)         (* greedy  [c*]  over a class *)
| StarLazy (p : ascii → bool)     (* lazy    [c*?] over a class *)
| Opt (r : regex)                 (* greedy  [r?] *)
| Cat (r1 r2 : regex)             (* concatenation *)
| Grp (r : regex)                 (* capture group 1 *)
| Bos                             (* [^] without MULTILINE *)
| Eos.                            (* [$] without MULTILINE *)

Definition span : Type := nat * nat.

(** What a successful attempt yields: the end position and group 1. *)
Definition outcome : Type := nat * option span.

(** A continuation receives the current position, the unread text and the
    capture. *)
Definition cont : Type := nat → string → option span → option outcome.

(** Greedy iteration: take as many characters as possible, give them back
    one at a time when the rest of the pattern fails. *)
Fixpoint star_greedy (p : ascii → bool) (pos : nat) (s : string)
    (k : nat → string → option outcome) : option outcome :=
  match s with
  | String c s' =>
      if p c then
        match star_greedy p (S pos) s' k with
        | Some r => Some r
        | None => k pos s
        end
      else k pos s
  | "" => k pos s
  end.

(** Lazy iteration: try the rest of the pattern first, take one more
    character only when that fails. *)
Fixpoint star_lazy (p : ascii → bool) (pos : nat) (s : string)
    (k : nat → string → option outcome) : option outcome :=
  match k pos s with
  | Some r => Some r
  | None =>
      match s with
      | String c s' => if p c then star_lazy p (S pos) s' k else None
      | "" => None
      end
  end.

(** Backtracking matcher in continuation-passing style; alternatives are
    tried in the priority order of Python's engine and the first complete
    match wins. *)
Fixpoint run (r : regex) (pos : nat) (s : string) (cap : option span)
    (k : cont) : option outcome :=
  match r with
  | Lit l =>
      match strip_prefix l s with
      | Some s' => k (pos + String.length l) s' cap
      | None => None
      end
  | Cls p =>
      match s with
      | String c s' => if p c then k (S pos) s' cap else None
      | "" => None
      end
  | Star p => star_greedy p pos s (λ pos' s', k pos' s' cap)
  | StarLazy p => star_lazy p pos s (λ pos' s', k pos' s' cap)
  | Opt r1 =>
      match run r1 pos s cap k with
      | Some o => Some o
      | None => k pos s cap
      end
  | Cat r1 r2 => run r1 pos s cap (λ pos' s' cap', run r2 pos' s' cap' k)
  | Grp r1 => run r1 pos s cap (λ pos' s' _, k pos' s' (Some (pos, pos')))
  | Bos => match pos with 0 => k pos s cap | S _ => None end
  | Eos =>
      match s with
      | "" => k pos s cap
      | String c "" => if is_char LF c then k pos s cap else None
      | _ => None
      end
  end.

Definition accept : cont := λ pos _ cap, Some (pos, cap).

(** One attempt of the pattern at absolute position [pos], where [s] is the
    text from [pos] on. *)
Definition match_here (r : regex) (pos : nat) (s : string) : option outcome :=
  run r pos s None accept.

(** A match object: [m.start()], [m.end()], [m.span(1)] (absent when the
    group did not take part). *)
Record Match : Type := mkMatch {
  m_start : nat;
  m_end : nat;
  m_span1 : option span;
}.

Definition group0 (text : string) (m : Match) : string :=
  slice (m_start m) (m_end m) text.

Definition group1 (text : string) (m : Match) : option string :=
  match m_span1 m with
  | Some (i, j) => Some (slice i j text)
  | None => None
  end.

(** The left-to-right scan shared by [finditer] and [sub]. [skip] counts
    the characters of the current match that are still to be passed over;
    a match of length zero does not stop the scan from advancing (every
    pattern of the sources contains a literal, so none matches the empty
    string). *)
Fixpoint scan (r : regex) (pos skip : nat) (s : string) : list Match :=
  match s with
  | "" =>
      match skip, match_here r pos "" with
      | 0, Some (e, cap) => [mkMatch pos e cap]
      | _, _ => []
      end
  | String _ s' =>
      match skip with
      | S n => scan r (S pos) n s'
      | 0 =>
          match match_here r pos s with
          | Some (e, cap) => mkMatch pos e cap :: scan r (S pos) (e - pos - 1) s'
          | None => scan r (S pos) 0 s'
          end
      end
  end.

(** [re.finditer(r, text)] *)
Definition finditer (r : regex) (text : string) : list Match := scan r 0 0 text.

(** [re.search(r, text)] *)
Definition search (r : regex) (text : string) : option Match :=
  head (finditer r text).

(** Deletes the spans of [ms] (ascending, disjoint) from the text that
    starts at [pos]. *)
Fixpoint cut (ms : list Match) (pos : nat) (s : string) : string :=
  match ms with
  | [] => s
  | m :: ms' =>
      take_str (m_start m - pos) s +:+
      cut ms' (m_end m) (drop_str (m_end m - pos) s)
  end.

(** [re.sub] with the empty replacement. *)
Definition sub_empty (r : regex) (text : string) : string :=
  cut (finditer r text) 0 text.

End Re.

Import Re.

Infix "⋅" := Cat (at level 41, right associativity).

(** ** [code_executor.py]: input detection and substitution *)

(** The pattern of [_detect_inputs], piece by piece:
    [input], [\s*], [\(], [\s*], an optional non-capturing group made of an
    optional [f], a quote, the lazily captured prompt [(.*?)] and a quote,
    then [\s*] and [\)]. *)
Definition input_pattern : regex :=
  Lit "input" ⋅ Star is_space ⋅ Lit "(" ⋅ Star is_space ⋅
  Opt (Opt (Lit "f") ⋅ Cls is_quote ⋅ Grp (StarLazy not_newline) ⋅ Cls is_quote) ⋅
  Star is_space ⋅ Lit ")".

Definition default_prompt : string := "Enter value".

(** An element of the list [_detect_inputs] returns: [(full_match, prompt)]. *)
Definition InputRequest : Type := string * string.

Definition request_of (code : string) (m : Match) : InputRequest :=
  (group0 code m,
   match group1 code m with
   | Some (String c p) => String c p
   | _ => default_prompt
   end).

Definition _detect_inputs (code : string) : list InputRequest :=
  request_of code <$> finditer input_pattern code.

(** [value.replace(BSL, BSL BSL).replace(DQ, BSL DQ)] *)
Definition escape (value : string) : string :=
  replace_char DQ (String BSL (str DQ))
    (replace_char BSL (String BSL (str BSL)) value).

Definition quoted (value : string) : string :=
  str DQ +:+ escape value +:+ str DQ.

(** The loop of [_replace_inputs] over [zip(requests, values)]. *)
Fixpoint replace_loop (reqs : list InputRequest) (values : list string)
    (result : string) : string :=
  match reqs, values with
  | (full_match, _) :: reqs', value :: values' =>
      replace_loop reqs' values' (replace_first full_match (quoted value) result)
  | _, _ => result
  end.

Definition _replace_inputs (code : string) (values : list string) : string :=
  replace_loop (_detect_inputs code) values code.

(** ** The platform: paths, file system, exceptions *)

(** A Python exception deriving from [Exception]: its class and [str(e)]. *)
Record exn : Type := mkExn { exn_class : string; exn_str : string }.

Definition is_sep (c : ascii) : bool := is_char "/"%char c.

(** [p[:p.rfind(SEP) + 1]] *)
Fixpoint path_head (p : string) : string :=
  match p with
  | "" => ""
  | String c p' =>
      let h := path_head p' in
      if is_sep c then String c h
      else match h with "" => "" | _ => String c h end
  end.

Fixpoint all_sep (s : string) : bool :=
  match s with
  | "" => true
  | String c s' => is_sep c && all_sep s'
  end.

Fixpoint lstrip_sep (s : string) : string :=
  match s with
  | String c s' => if is_sep c then lstrip_sep s' else s
  | "" => ""
  end.

(** [posixpath.dirname] *)
Definition dirname (p : string) : string :=
  let head := path_head p in
  if all_sep head then head
  else String.rev (lstrip_sep (String.rev head)).

Definition endswith_sep (a : string) : bool :=
  match String.rev a with
  | String c _ => is_sep c
  | "" => false
  end.

(** [posixpath.join] of two components. *)
Definition path_join (a b : string) : string :=
  if startswith "/" b then b
  else match a with
       | "" => b
       | _ => if endswith_sep a then a +:+ b else a +:+ "/" +:+ b
       end.

(** The file system as far as the executor touches it: the directories that
    exist, the regular files with their contents, and the paths the process
    may not write to. Paths are compared as written (no normalisation); the
    empty directory name stands for the current directory, which exists. *)
Record FS : Type := mkFS {
  dirs : gset string;
  files : gmap string string;
  readonly : gset string;
}.

Definition dir_exists (fs : FS) (d : string) : bool :=
  bool_decide (d = "") || bool_decide (d ∈ dirs fs).

Definition quote_repr (p : string) : string := str SQ +:+ p +:+ str SQ.

Definition FileNotFoundError (p : string) : exn :=
  mkExn "FileNotFoundError" ("[Errno 2] No such file or directory: " +:+ quote_repr p).
Definition PermissionError (p : string) : exn :=
  mkExn "PermissionError" ("[Errno 13] Permission denied: " +:+ quote_repr p).
Definition IsADirectoryError (p : string) : exn :=
  mkExn "IsADirectoryError" ("[Errno 21] Is a directory: " +:+ quote_repr p).
Definition FileExistsError (p : string) : exn :=
  mkExn "FileExistsError" ("[Errno 17] File exists: " +:+ quote_repr p).

(** [with open(path, "w", encoding="utf-8") as f: f.write(content)]:
    truncates or creates the file; fails when the path is empty or names a
    directory, when the parent directory is missing, or when writing is not
    permitted. *)
Definition fs_write (path content : string) (fs : FS) : exn + FS :=
  if bool_decide (path = "") then inl (FileNotFoundError path)
  else if bool_decide (path ∈ dirs fs) then inl (IsADirectoryError path)
  else if negb (dir_exists fs (dirname path)) then inl (FileNotFoundError path)
  else if bool_decide (path ∈ readonly fs)
          || (bool_decide (files fs !! path = None)
              && bool_decide (dirname path ∈ readonly fs))
       then inl (PermissionError path)
  else inr (mkFS (dirs fs) (<[path := content]> (files fs)) (readonly fs)).

(** A direct read of a path. *)
Definition fs_read (path : string) (fs : FS) : option string := files fs !! path.

(** [os.makedirs(d, exist_ok=True)]: creates [d] and every missing ancestor.
    The empty name is rejected by the operating system's [mkdir]. *)
Fixpoint makedirs_go (fuel : nat) (d : string) (fs : FS) : exn + FS :=
  if bool_decide (d = "") then inl (FileNotFoundError d)
  else if bool_decide (d ∈ dirs fs) then inr fs
  else if bool_decide (is_Some (files fs !! d)) then inl (FileExistsError d)
  else
    let parent := dirname d in
    let made :=
      if dir_exists fs parent then inr fs
      else match fuel with
           | 0 => inl (FileNotFoundError d)
           | S fuel' => makedirs_go fuel' parent fs
           end in
    match made with
    | inl e => inl e
    | inr fs' =>
        if bool_decide (parent ∈ readonly fs') then inl (PermissionError d)
        else inr (mkFS ({[d]} ∪ dirs fs') (files fs') (readonly fs'))
    end.

Definition fs_makedirs (d : string) (fs : FS) : exn + FS :=
  makedirs_go (String.length d) d fs.

(** [shutil.rmtree(d, ignore_errors=True)]: [d] and everything below it. *)
Definition fs_rmtree (d : string) (fs : FS) : FS :=
  let below (p : string) := bool_decide (p = d) || startswith (d +:+ "/") p in
  mkFS (filter (λ p, below p = false) (dirs fs))
       (filter (λ kv, below kv.1 = false) (files fs))
       (readonly fs).

(** ** The executor object and the world around it *)

(** The prompt callback: [callback(prompt_text)] gives a value, or [None] to
    cancel. Its answer may differ from one interaction to the next, hence the
    interaction index. *)
Definition Callback : Type := nat → string → option string.

(** The attributes of a [CodeExecutor] instance. *)
Record CodeExecutor : Type := mkExecutor {
  timeout : Z;
  python_path : string;
  last_code : option string;
  last_output : option string;
  last_error : option string;
  last_returncode : option Z;
  work_dir : string;
  input_callback : option Callback;
}.

Definition set_last_code (v : option string) (x : CodeExecutor) : CodeExecutor :=
  mkExecutor (timeout x) (python_path x) v (last_output x) (last_error x)
    (last_returncode x) (work_dir x) (input_callback x).
Definition set_last_output (v : option string) (x : CodeExecutor) : CodeExecutor :=
  mkExecutor (timeout x) (python_path x) (last_code x) v (last_error x)
    (last_returncode x) (work_dir x) (input_callback x).
Definition set_last_error (v : option string) (x : CodeExecutor) : CodeExecutor :=
  mkExecutor (timeout x) (python_path x) (last_code x) (last_output x) v
    (last_returncode x) (work_dir x) (input_callback x).
Definition set_last_returncode (v : option Z) (x : CodeExecutor) : CodeExecutor :=
  mkExecutor (timeout x) (python_path x) (last_code x) (last_output x) (last_error x)
    v (work_dir x) (input_callback x).
Definition set_callback (v : option Callback) (x : CodeExecutor) : CodeExecutor :=
  mkExecutor (timeout x) (python_path x) (last_code x) (last_output x) (last_error x)
    (last_returncode x) (work_dir x) v.

(** The arguments of [subprocess.run]. *)
Record SpawnReq : Type := mkSpawn {
  argv : list string;
  cwd : string;
  stdin : option string;
  env : gmap string string;
  deadline : Z;
}.

(** How [subprocess.run] ends: a [CompletedProcess], [TimeoutExpired], or any
    other exception (spawn failure, decoding failure, ...). *)
Inductive run_result : Type :=
| Completed (returncode : Z) (out err : string)
| TimeoutExpired
| RunError (e : exn).

(** A chat message, [{role: ..., content: ...}]. *)
Inductive Role : Type := System | User | Assistant.
Record Msg : Type := mkMsg { role : Role; content : string }.

(** How [requests.post(...)] followed by [r.json()] ends: the [content] of the
    reply, [requests.ConnectionError], or any other exception. *)
Inductive post_result : Type :=
| Reply (content : string)
| ConnectionError
| PostError (e : exn).

(** The value [execute] returns: [(success, stdout, stderr, execution_time)].
    Clock readings and durations are integers in a fixed unit. *)
Record ExecResult : Type := result {
  success : bool;
  stdout : string;
  stderr : string;
  elapsed : Z;
}.

(** What the agent shows on the terminal, by kind of message. *)
Inductive Output : Type :=
| OutChatError (msg : string)
| OutCode (header code : string)
| OutExecuting
| OutResult (r : ExecResult)
| OutAutoFixing (attempt max : nat)
| OutReExecuting
| OutNoExtract
| OutNoFix
| OutMaxReached
| OutText (msg : string).

(** The log of interactions with the outside world, oldest first. *)
Inductive Event : Type :=
| EvAsk (prompt : string) (answer : option string)
| EvWrite (path content : string)
| EvSpawn (req : SpawnReq) (res : run_result)
| EvChat (prompt : string) (conversation : list Msg)
| EvPost (model : string) (messages : list Msg)
| EvExecute (code : string) (r : ExecResult)
| EvOut (o : Output).

Record State : Type := mkState {
  self : CodeExecutor;
  fs : FS;
  tick : nat;
  log : list Event;
}.

(** The oracles of the outside world. *)
Record Env : Type := mkEnv {
  environ : gmap string string;
  subprocess_run : nat → SpawnReq → FS → run_result * FS;
  time_time : nat → Z;
  requests_post : nat → string → list Msg → post_result;
  terminal_input : nat → string → option string;
}.

(** ** The monad: state, and exceptions that unwind *)

Inductive Res (A : Type) : Type :=
| Ok (a : A)
| Raise (e : exn).
Arguments Ok {A} a.
Arguments Raise {A} e.

Definition M (A : Type) : Type := State → Res A * State.

Global Instance M_ret : MRet M := λ A a st, (Ok a, st).
Global Instance M_bind : MBind M := λ A B f m st,
  match m st with
  | (Ok a, st') => f a st'
  | (Raise e, st') => (Raise e, st')
  end.

Definition raise {A} (e : exn) : M A := λ st, (Raise e, st).

(** [try: body  except Exception as e: handler(e)] *)
Definition try_except {A} (body : M A) (handler : exn → M A) : M A := λ st,
  match body st with
  | (Raise e, st') => handler e st'
  | r => r
  end.

Definition gets {A} (f : State → A) : M A := λ st, (Ok (f st), st).
Definition modify_self (f : CodeExecutor → CodeExecutor) : M unit := λ st,
  (Ok (), mkState (f (self st)) (fs st) (tick st) (log st)).
Definition emit (ev : Event) : M unit := λ st,
  (Ok (), mkState (self st) (fs st) (tick st) (log st ++ [ev])).
Definition next_tick : M nat := λ st,
  (Ok (tick st), mkState (self st) (fs st) (S (tick st)) (log st)).
Definition lift_fs (op : FS → exn + FS) : M unit := λ st,
  match op (fs st) with
  | inl e => (Raise e, st)
  | inr fs' => (Ok (), mkState (self st) fs' (tick st) (log st))
  end.

(** ** [code_executor.py]: the methods of [CodeExecutor] *)

(** [__init__]: [tmp] is the fresh directory [tempfile.mkdtemp] created. *)
Definition __init__ (timeout : Z) (python_path tmp : string) : CodeExecutor :=
  mkExecutor timeout python_path None None None None tmp None.

Definition set_input_callback (callback : Callback) : M unit :=
  modify_self (set_callback (Some callback)).

Definition call_callback (cb : Callback) (prompt : string) : M (option string) :=
  n ← next_tick;
  emit (EvAsk prompt (cb n prompt));;
  mret (cb n prompt).

(** The [for full_match, prompt in inputs] loop of [execute]; [None] is the
    early return on cancellation. *)
Fixpoint ask_all (cb : Callback) (inputs : list InputRequest) (values : list string)
    : M (option (list string)) :=
  match inputs with
  | [] => mret (Some values)
  | (_, prompt) :: inputs' =>
      value ← call_callback cb prompt;
      match value with
      | None => mret None
      | Some v => ask_all cb inputs' (values ++ [v])
      end
  end.

Definition open_write (path content : string) : M unit :=
  lift_fs (fs_write path content);;
  emit (EvWrite path content).

Definition _safe_env (E : Env) : gmap string string :=
  <["PYTHONUTF8" := "1"]>
    (<["PYTHONIOENCODING" := "utf-8"]>
       (<["PYTHONDONTWRITEBYTECODE" := "1"]> (environ E))).

(** [time.time()] *)
Definition read_clock (E : Env) : M Z :=
  n ← next_tick; mret (time_time E n).

Definition spawn (E : Env) (req : SpawnReq) : M run_result := λ st,
  let '(r, fs') := subprocess_run E (tick st) req (fs st) in
  (Ok r, mkState (self st) fs' (S (tick st)) (log st ++ [EvSpawn req r])).

Definition string_of_Z (z : Z) : string := NilZero.string_of_int (Z.to_int z).

Definition timeout_message (t : Z) : string :=
  "Execution timed out (" +:+ string_of_Z t +:+ "s)".

Definition cancelled : ExecResult := result false "" "Cancelled by user" 0.

(** Lines 56-65 of [execute]: detection and resolution of the input calls.
    [None] stands for the early return on cancellation, [Some code'] for the
    text that goes on to be written. *)
Definition resolve_inputs (code : string) (input_data : option string)
    : M (option string) :=
  let inputs := _detect_inputs code in
  cb ← gets (λ st, input_callback (self st));
  match inputs, cb, input_data with
  | _ :: _, Some cb, None =>
      values ← ask_all cb inputs [];
      match values with
      | None => mret None
      | Some values => mret (Some (_replace_inputs code values))
      end
  | _, _, _ => mret (Some code)
  end.

(** Lines 72-104 of [execute]: the clock, [subprocess.run] and the three ways
    it ends. *)
Definition run_code (E : Env) (code_file : string) (input_data : option string)
    : M ExecResult :=
  start_time ← read_clock E;
  x ← gets self;
  r ← spawn E (mkSpawn [python_path x; code_file] (work_dir x) input_data
                 (_safe_env E) (timeout x));
  match r with
  | Completed returncode out err =>
      t ← read_clock E;
      modify_self (set_last_output (Some out));;
      modify_self (set_last_error (Some err));;
      modify_self (set_last_returncode (Some returncode));;
      mret (result (bool_decide (returncode = 0%Z)) out err (t - start_time))
  | TimeoutExpired =>
      t ← read_clock E;
      modify_self (set_last_error (Some (timeout_message (timeout x))));;
      modify_self (set_last_returncode (Some (-1)%Z));;
      mret (result false "" (timeout_message (timeout x)) (t - start_time))
  | RunError e =>
      t ← read_clock E;
      modify_self (set_last_error (Some (exn_str e)));;
      modify_self (set_last_returncode (Some (-1)%Z));;
      mret (result false "" (exn_str e) (t - start_time))
  end.

(** Lines 54-70 of [execute]: everything before the clock is started. [None]
    is the early return on cancellation; [Some code_file] means the file is
    written and the subprocess stage is reached. An exception of the write
    leaves through here. *)
Definition prepare (code : string) (input_data : option string) : M (option string) :=
  modify_self (set_last_code (Some code));;
  resolved ← resolve_inputs code input_data;
  match resolved with
  | None => mret None
  | Some code' =>
      code_file ← gets (λ st, path_join (work_dir (self st)) "run_code.py");
      open_write code_file code';;
      mret (Some code_file)
  end.

Definition execute (E : Env) (code : string) (input_data : option string)
    : M ExecResult :=
  prepared ← prepare code input_data;
  match prepared with
  | None => mret cancelled
  | Some code_file => run_code E code_file input_data
  end.

Definition cleanup : M unit := λ st,
  (Ok (), mkState (self st) (fs_rmtree (work_dir (self st)) (fs st)) (tick st) (log st)).

Definition save_code (code filepath : string) : M (bool * string) :=
  try_except
    (lift_fs (fs_makedirs (dirname filepath));;
     open_write filepath code;;
     mret (true, "Saved to " +:+ filepath))
    (λ e, mret (false, exn_str e)).

(** ** [agent.py] *)

Module Agent.

Definition SYSTEM_PROMPT : string :=
  "You are an expert Python programmer. " +:+
  "Output ONLY valid Python code. " +:+
  "Do NOT include any explanation, markdown formatting, or code fences. " +:+
  "Do NOT include ``` markers. " +:+
  "Just output the raw Python code that can be executed directly.".

(** The patterns of [strip_think] and [extract_code], all with DOTALL
    where the source passes it. *)
Definition think_closed : regex :=
  Lit "<think>" ⋅ StarLazy any_char ⋅ Lit "</think>" ⋅ Star is_space.
Definition think_open : regex := Lit "<think>" ⋅ Star any_char.
Definition fence_python : regex :=
  Lit "```python" ⋅ Star is_space ⋅ Lit (str LF) ⋅ Grp (StarLazy any_char) ⋅ Lit "```".
Definition fence_plain : regex :=
  Lit "```" ⋅ Star is_space ⋅ Lit (str LF) ⋅ Grp (StarLazy any_char) ⋅ Lit "```".
Definition leading_fence : regex :=
  Bos ⋅ Lit "```python" ⋅ Star is_space ⋅ Opt (Lit (str LF)).
Definition trailing_fence : regex :=
  Opt (Lit (str LF)) ⋅ Lit "```" ⋅ Star is_space ⋅ Eos.

Definition strip_think (text : string) : string :=
  let text := sub_empty think_closed text in
  let text := sub_empty think_open text in
  strip text.

Definition looks_like_code (cleaned : string) : bool :=
  contains "def " cleaned || contains "print(" cleaned || contains "import " cleaned
  || contains "for " cleaned || contains "class " cleaned || contains "=" cleaned.

Definition group1_stripped (text : string) (m : Match) : string :=
  strip (default "" (group1 text m)).

Definition extract_code (text : string) : option string :=
  let text := strip_think text in
  match search fence_python text with
  | Some m => Some (group1_stripped text m)
  | None =>
      match search fence_plain text with
      | Some m => Some (group1_stripped text m)
      | None =>
          let cleaned := strip text in
          if truthy (Some cleaned) && looks_like_code cleaned then
            let cleaned := sub_empty leading_fence cleaned in
            let cleaned := sub_empty trailing_fence cleaned in
            Some (strip cleaned)
          else None
      end
  end.

(** [l[-n:]] for [n > 0]. *)
Definition last_n {A} (n : nat) (l : list A) : list A := drop (length l - n) l.

(** [chat(prompt, model, conversation)]: at most the last ten messages of
    the conversation travel to the model. *)
Definition chat (E : Env) (prompt model : string) (conversation : list Msg)
    : M (bool * string) :=
  emit (EvChat prompt conversation);;
  let messages :=
    [mkMsg System SYSTEM_PROMPT] ++ last_n 10 conversation ++ [mkMsg User prompt] in
  n ← next_tick;
  emit (EvPost model messages);;
  match requests_post E n model messages with
  | Reply resp => mret (true, resp)
  | ConnectionError => mret (false, "Cannot connect to Ollama. Run 'ollama serve' first.")
  | PostError e => mret (false, exn_str e)
  end.

(** The local variables of [main] that outlive one turn of its loop. *)
Record Locals : Type := mkLocals {
  model : string;
  conversation : list Msg;
  last_code : option string;
  auto_execute : bool;
  max_fix_attempts : nat;
}.

Definition with_code (code : string) (conv : list Msg) (ag : Locals) : Locals :=
  mkLocals (model ag) conv (Some code) (auto_execute ag) (max_fix_attempts ag).

Definition fix_prompt (e code : string) : string :=
  "The code produced an error:" +:+ str LF +:+ "```" +:+ str LF +:+
  take_str 500 e +:+ str LF +:+ "```" +:+ str LF +:+ str LF +:+
  "Original code:" +:+ str LF +:+ "```python" +:+ str LF +:+ code +:+ str LF +:+
  "```" +:+ str LF +:+ str LF +:+
  "Fix the error. Output the complete corrected Python code only.".

(** [s, o, e, t = executor.execute(code)] followed by [print_result]. *)
Definition execute_and_show (E : Env) (code : string) : M ExecResult :=
  r ← execute E code None;
  emit (EvExecute code r);;
  emit (EvOut (OutResult r));;
  mret r.

(** The variables the auto-fix loop updates. *)
Record Fix : Type := mkFix {
  locals : Locals;
  code : string;
  res : ExecResult;
  fix_attempt : nat;
}.

(** [while not s and fix_attempt < max_fix_attempts: ...]. The loop counter
    grows at every turn, so [max_fix_attempts] turns of [fuel] are never
    used up. *)
Fixpoint fix_loop (E : Env) (fuel : nat) (v : Fix) : M Fix :=
  if negb (success (res v)) && bool_decide (fix_attempt v < max_fix_attempts (locals v)) then
    match fuel with
    | 0 => mret v
    | S fuel' =>
        let attempt := S (fix_attempt v) in
        emit (EvOut (OutAutoFixing attempt (max_fix_attempts (locals v))));;
        let prompt := fix_prompt (stderr (res v)) (code v) in
        answer ← chat E prompt (model (locals v)) (conversation (locals v));
        let '(fix_ok, fix_resp) := answer : bool * string in
        if fix_ok return M Fix then
          let fix_code := extract_code fix_resp in
          if truthy fix_code return M Fix then
            let code' := default "" fix_code in
            let conv := conversation (locals v) ++
                        [mkMsg User prompt; mkMsg Assistant fix_resp] in
            emit (EvOut (OutCode "Fixed code:" code'));;
            emit (EvOut OutReExecuting);;
            r ← execute_and_show E code';
            fix_loop E fuel' (mkFix (with_code code' conv (locals v)) code' r attempt)
          else
            emit (EvOut OutNoExtract);;
            mret (mkFix (locals v) (code v) (res v) attempt)
        else
          emit (EvOut OutNoFix);;
          mret (mkFix (locals v) (code v) (res v) attempt)
    end
  else mret v.

(** Lines 251-313 of [main]: one natural-language request. *)
Definition handle_request (E : Env) (user_input : string) (ag : Locals) : M Locals :=
  answer ← chat E user_input (model ag) (conversation ag);
  let '(ok, response) := answer : bool * string in
  if negb ok return M Locals then
    emit (EvOut (OutChatError response));; mret ag
  else
    let conv := conversation ag ++
                [mkMsg User user_input; mkMsg Assistant response] in
    let conv := if bool_decide (20 < length conv) then last_n 20 conv else conv in
    let ag := mkLocals (model ag) conv (last_code ag) (auto_execute ag)
                (max_fix_attempts ag) in
    let code := extract_code response in
    if truthy code return M Locals then
      let code := default "" code in
      let ag := with_code code conv ag in
      emit (EvOut (OutCode "Here's the code:" code));;
      if auto_execute ag return M Locals then
        emit (EvOut OutExecuting);;
        r ← execute_and_show E code;
        v ← fix_loop E (max_fix_attempts ag) (mkFix ag code r 0);
        (if negb (success (res v))
            && bool_decide (max_fix_attempts (locals v) ≤ fix_attempt v)
            return M unit
         then emit (EvOut OutMaxReached) else mret ());;
        mret (locals v)
      else mret ag
    else
      emit (EvOut (OutText (strip_think response)));; mret ag.

(** A line typed at the [You >] prompt, after [strip], [lower] and
    [split]: end of input, an empty line, a slash command with its
    argument, or a request in natural language. *)
Inductive Command : Type :=
| Quit
| Help
| Run
| Save (path : option string)
| SetModel (name : option string)
| Auto (arg : option bool)
| MaxFix (arg : option nat)
| Unknown.

Inductive UserInput : Type :=
| Eof
| Blank
| Cmd (c : Command)
| Request (text : string).

Definition run_command (E : Env) (c : Command) (ag : Locals) : M Locals :=
  match c with
  | Run =>
      if truthy (last_code ag) return M Locals then
        r ← execute E (default "" (last_code ag)) None;
        emit (EvExecute (default "" (last_code ag)) r);;
        emit (EvOut (OutResult r));;
        mret ag
      else emit (EvOut (OutText "No code to run."));; mret ag
  | Save None => emit (EvOut (OutText "Usage: /save <filepath>"));; mret ag
  | Save (Some path) =>
      if truthy (last_code ag) return M Locals then
        answer ← save_code (default "" (last_code ag)) path;
        emit (EvOut (OutText answer.2));;
        mret ag
      else emit (EvOut (OutText "No code to save."));; mret ag
  | SetModel (Some name) =>
      mret (mkLocals name (conversation ag) (last_code ag) (auto_execute ag)
              (max_fix_attempts ag))
  | Auto (Some b) =>
      mret (mkLocals (model ag) (conversation ag) (last_code ag) b
              (max_fix_attempts ag))
  | MaxFix (Some n) =>
      mret (mkLocals (model ag) (conversation ag) (last_code ag) (auto_execute ag) n)
  | _ => mret ag
  end.

(** The [while True] loop of [main] over the lines the user types. *)
Fixpoint repl (E : Env) (inputs : list UserInput) (ag : Locals) : M Locals :=
  match inputs with
  | [] => mret ag
  | Eof :: _ => mret ag
  | Cmd Quit :: _ => mret ag
  | Blank :: inputs' => repl E inputs' ag
  | Cmd c :: inputs' => ag' ← run_command E c ag; repl E inputs' ag'
  | Request text :: inputs' => ag' ← handle_request E text ag; repl E inputs' ag'
  end.

(** [main], once a model has been chosen. *)
Definition main (E : Env) (model : string) (inputs : list UserInput) : M Locals :=
  set_input_callback (terminal_input E);;
  ag ← repl E inputs (mkLocals model [] None true 3);
  cleanup;;
  mret ag.

End Agent.

(** The state right after [CodeExecutor(timeout=30)]: [tmp] is the directory
    [tempfile.mkdtemp] has just created in [fs]. *)
Definition initial_state (python tmp : string) (fs0 : FS) : State :=
  mkState (__init__ 30 python tmp)
          (mkFS ({[tmp]} ∪ dirs fs0) (files fs0) (readonly fs0)) 0 [].

(** ** Vocabulary of the statements *)

Definition is_ask (ev : Event) : bool :=
  match ev with EvAsk _ _ => true | _ => false end.

(** The entries the executor itself writes. *)
Definition is_io (ev : Event) : bool :=
  match ev with EvAsk _ _ | EvWrite _ _ | EvSpawn _ _ => true | _ => false end.

(** The callback declines the request at position [i], the prompts being
    shown at consecutive interactions starting from [n]. *)
Definition declines (cb : Callback) (n : nat) (inputs : list InputRequest) : Prop :=
  ∃ i req, inputs !! i = Some req ∧ cb (n + i) req.2 = None.

(** The outcome names of the specification, read off the way
    [subprocess.run] ended. *)
Inductive Outcome : Type := Success | NonZeroExit | Timeout | InternalError.

Definition spec_outcome (r : run_result) : Outcome :=
  match r with
  | Completed rc _ _ => if bool_decide (rc = 0%Z) then Success else NonZeroExit
  | TimeoutExpired => Timeout
  | RunError _ => InternalError
  end.

(** What the specification attaches to each outcome, stated on the value
    [execute] returns and on the exit code it records. *)
Definition classified (x : CodeExecutor) (r : run_result) (res : ExecResult)
    (recorded : option Z) : Prop :=
  match r with
  | Completed rc out err =>
      match spec_outcome r with
      | Success => success res = true
      | _ => success res = false
      end ∧ stdout res = out ∧ stderr res = err ∧ recorded = Some rc
  | TimeoutExpired =>
      success res = false ∧ stdout res = "" ∧
      stderr res = "Execution timed out (" +:+ string_of_Z (timeout x) +:+ "s)" ∧
      recorded = Some (-1)%Z
  | RunError e =>
      success res = false ∧ stdout res = "" ∧ stderr res = exn_str e ∧
      recorded = Some (-1)%Z
  end.

(** ** Concrete worlds used by the examples *)

Definition demo_fs : FS := mkFS {["/tmp"]} ∅ ∅.

Definition demo_state : State :=
  initial_state "/usr/bin/python3" "/tmp/agent_exec_demo" demo_fs.

(** A user who declines every prompt. *)
Definition decline : Callback := λ _ _, None.

(** A world where every child process exits with status 1 and a traceback,
    and where the model keeps answering with the same one-line program. *)
Definition failing_world (reply : string) : Env :=
  mkEnv ∅
    (λ _ _ fs, (Completed 1 "" "ZeroDivisionError: division by zero", fs))
    (λ n, Z.of_nat n)
    (λ _ _ _, Reply reply)
    decline.

(** The executor after one failed run, with the callback installed. *)
Definition after_failed_run (cb : Callback) : State :=
  mkState
    (mkExecutor 30 "/usr/bin/python3" (Some "print(1/0)") (Some "")
       (Some "ZeroDivisionError: division by zero") (Some 1%Z)
       "/tmp/agent_exec_demo" (Some cb))
    (fs demo_state) 3 [].

(** Two unanswered prompts in a row. *)
Definition two_inputs : string := "a = input()" +:+ str LF +:+ "b = input()".

(** ** Reading the log *)

(** The sizes of the conversation handed to [chat], call by call. *)
Definition chat_sizes (l : list Event) : list nat :=
  omap (λ ev, match ev with EvChat _ c => Some (length c) | _ => None end) l.

(** The history of the session: the executions with their results. *)
Definition executions (l : list Event) : list (string * ExecResult) :=
  omap (λ ev, match ev with EvExecute c r => Some (c, r) | _ => None end) l.

(** The prompts sent to the generator. *)
Definition generations (l : list Event) : list string :=
  omap (λ ev, match ev with EvChat p _ => Some p | _ => None end) l.

Definition is_agent_step (ev : Event) : bool :=
  match ev with EvChat _ _ | EvExecute _ _ => true | _ => false end.

Definition is_cancelled (r : ExecResult) : bool :=
  negb (success r) && bool_decide (stdout r = "")
  && bool_decide (stderr r = "Cancelled by user") && bool_decide (elapsed r = 0%Z).

(** Claim C4 as a check on a log: once an execution has ended as cancelled,
    neither a generator call nor an execution follows. *)
Fixpoint quiet_after_cancel (l : list Event) : bool :=
  match l with
  | [] => true
  | EvExecute _ r :: l' =>
      if is_cancelled r then forallb (λ ev, negb (is_agent_step ev)) l'
      else quiet_after_cancel l'
  | _ :: l' => quiet_after_cancel l'
  end.

(** ** Shapes of call sites *)

Fixpoint all_chars (p : ascii → bool) (s : string) : bool :=
  match s with
  | "" => true
  | String c s' => p c && all_chars p s'
  end.

(** The text after the opening parenthesis starts an argument that is not a
    string literal: its first character is neither blank, nor a quote, nor
    the closing parenthesis, nor an [f] that prefixes a quote. A variable, a
    number and an expression that begins with a name are of this shape. *)
Definition starts_non_literal (s : string) : bool :=
  match s with
  | String c s' =>
      negb (is_space c) && negb (is_quote c) && negb (is_char ")" c)
      && negb (is_char "f" c
               && match s' with String c2 _ => is_quote c2 | "" => false end)
  | "" => false
  end.

(** What is left of [input_pattern] once the blanks after the opening
    parenthesis are passed: the optional literal, blanks, the closing
    parenthesis. *)
Definition argument_pattern : regex :=
  Opt (Opt (Lit "f") ⋅ Cls is_quote ⋅ Grp (StarLazy not_newline) ⋅ Cls is_quote) ⋅
  Star is_space ⋅ Lit ")".

(** ** Frames *)

(** A computation that only ever appends to the log. *)
Definition grows {A} (m : M A) : Prop :=
  ∀ st, ∃ more, log (m st).2 = log st ++ more.

(** A computation whose first log entries are [pre]. *)
Definition grows_with {A} (pre : list Event) (m : M A) : Prop :=
  ∀ st, ∃ more, log (m st).2 = log st ++ pre ++ more.

(** An agent in the middle of a request whose last execution was cancelled
    at the first prompt. *)
Definition cancelled_attempt : Agent.Fix :=
  Agent.mkFix
    (Agent.mkLocals "qwen3-coder-v4"
       [mkMsg User "greet me"; mkMsg Assistant "name = input()"]
       (Some "name = input()") true 3)
    "name = input()" (result false "" "Cancelled by user" 0) 0.

(** ** A world in which every attempt fails (claim C5) *)

(** The path [execute] writes the code to. *)
Definition code_file (x : CodeExecutor) : string :=
  path_join (work_dir x) "run_code.py".

(** [fs_write path] succeeds on [fs]. *)
Definition writable (path : string) (fs : FS) : bool :=
  negb (bool_decide (path = "")) && negb (bool_decide (path ∈ dirs fs))
  && dir_exists fs (dirname path)
  && negb (bool_decide (path ∈ readonly fs)
           || (bool_decide (files fs !! path = None)
               && bool_decide (dirname path ∈ readonly fs))).

(** The user answers every prompt. *)
Definition never_declines (cbo : option Callback) : Prop :=
  ∀ cb, cbo = Some cb → ∀ n prompt, cb n prompt ≠ None.

(** Every child process runs to completion with a nonzero exit code, and
    leaves the code file writable. *)
Definition always_exits_nonzero (E : Env) (path : string) : Prop :=
  ∀ n req fs,
    writable path fs = true →
    ∃ rc out err fs',
      rc ≠ 0%Z ∧ subprocess_run E n req fs = (Completed rc out err, fs')
      ∧ writable path fs' = true.

(** The generator always answers, and with extractable code. *)
Definition always_generates_code (E : Env) : Prop :=
  ∀ n model msgs,
    ∃ resp, requests_post E n model msgs = Reply resp
            ∧ truthy (Agent.extract_code resp) = true.

(** What stays true of the state from one attempt to the next. *)
Definition steady (path : string) (cbo : option Callback) (st : State) : Prop :=
  code_file (self st) = path ∧ input_callback (self st) = cbo
  ∧ writable path (fs st) = true.

(** The local variables of [main] when the first request arrives. *)
Definition fresh_locals : Agent.Locals :=
  Agent.mkLocals "qwen3-coder-v4" [] None true 3.

(** ** Further vocabulary: the strings a pattern derives *)

(** [derives r pos used cap cap'] describes one way the matcher can get
    through [r] from position [pos]: the text [used] it consumes and what
    becomes of the capture. *)
Fixpoint derives (r : regex) (pos : nat) (used : string)
    (cap cap' : option span) : Prop :=
  match r with
  | Lit l => used = l ∧ cap' = cap
  | Cls p => (∃ c, used = str c ∧ p c = true) ∧ cap' = cap
  | Star p | StarLazy p => all_chars p used = true ∧ cap' = cap
  | Opt r1 => derives r1 pos used cap cap' ∨ (used = "" ∧ cap' = cap)
  | Cat r1 r2 =>
      ∃ u1 u2 cap1,
        used = u1 +:+ u2 ∧ derives r1 pos u1 cap cap1
        ∧ derives r2 (pos + String.length u1) u2 cap1 cap'
  | Grp r1 =>
      (∃ cap1, derives r1 pos used cap cap1)
      ∧ cap' = Some (pos, pos + String.length used)
  | Bos | Eos => used = "" ∧ cap' = cap
  end.

(** The matches of a scan come one after the other: each starts at or after
    [p], and the next ones start at or after its end. *)
Fixpoint ordered_from (p : nat) (ms : list Match) : Prop :=
  match ms with
  | [] => True
  | m :: ms' => p ≤ m_start m ∧ ordered_from (Nat.max (m_end m) (S (m_start m))) ms'
  end.

(** ** Further vocabulary: call sites *)

(** The text of a string-literal argument and its body: an optional [f], a
    quote, a body without line break, a quote. *)
Definition literal_argument (lit body : string) : Prop :=
  ∃ f q1 q2,
    lit = f +:+ str q1 +:+ body +:+ str q2
    ∧ (f = "" ∨ f = "f")
    ∧ is_quote q1 = true ∧ is_quote q2 = true
    ∧ all_chars not_newline body = true.

(** The label a literal with body [body] gets. *)
Definition label_of (body : string) : string :=
  match body with
  | "" => default_prompt
  | _ => body
  end.

(** A prompt with a label, as a program text. *)
Definition ask_name : string :=
  "name = input(" +:+ str DQ +:+ "Name: " +:+ str DQ +:+ ")".

(** ** Further vocabulary: frames of the executor *)

(** What [__init__] and [set_input_callback] fix and [execute] only reads. *)
Definition config (x : CodeExecutor) : Z * string * string * option Callback :=
  (timeout x, python_path x, work_dir x, input_callback x).

(** The prompts shown, in order. *)
Definition prompts (l : list Event) : list string :=
  omap (λ ev, match ev with EvAsk p _ => Some p | _ => None end) l.

(** No prompt in this part of the log, and any file written is [path] with
    content [text]. *)
Definition writes_only (path text : string) (l : list Event) : Prop :=
  Forall (λ ev, match ev with
                | EvAsk _ _ => False
                | EvWrite p c => p = path ∧ c = text
                | _ => True
                end) l.

(** A world whose child processes never finish in time. *)
Definition hanging_world : Env :=
  mkEnv ∅ (λ _ _ fs, (TimeoutExpired, fs)) (λ n, Z.of_nat n)
    (λ _ _ _, ConnectionError) (λ _ _, Some "Ada").

(** A user who answers every prompt the same way. *)
Definition answer_ada : Callback := λ _ _, Some "Ada".

(** ** [code_executor.py]: the remaining methods *)

(** [os.path.basename] *)
Definition basename (p : string) : string := drop_str (String.length (path_head p)) p.

(** [os.path.isfile] *)
Definition isfile (fs : FS) (p : string) : bool := bool_decide (is_Some (files fs !! p)).

Definition SameFileError (src dst : string) : exn :=
  mkExn "SameFileError"
    (quote_repr src +:+ " and " +:+ quote_repr dst +:+ " are the same file").

(** [shutil.copy2(src, dst)], contents only: a directory as destination
    receives the file under its own name; copying a file onto itself is
    refused. *)
Definition fs_copy2 (src dst : string) (fs : FS) : exn + FS :=
  let dst := if bool_decide (dst ∈ dirs fs) then path_join dst (basename src) else dst in
  if bool_decide (src = dst) then inl (SameFileError src dst)
  else match files fs !! src with
       | None => inl (FileNotFoundError src)
       | Some content => fs_write dst content fs
       end.

(** Lines 108-111 of [execute_with_file]: the copy into the workspace. *)
Definition stage_file (file_path : option string) : M unit :=
  is_file ← gets (λ st, truthy file_path && isfile (fs st) (default "" file_path));
  if is_file : bool then
    dest ← gets (λ st, path_join (work_dir (self st)) (basename (default "" file_path)));
    lift_fs (fs_copy2 (default "" file_path) dest)
  else mret ().

Definition execute_with_file (E : Env) (code : string) (file_path : option string)
    : M ExecResult :=
  stage_file file_path;;
  execute E code None.

Definition get_work_dir : M string := gets (λ st, work_dir (self st)).

(** [p] is the directory [d] or lies below it. *)
Definition below (d p : string) : bool :=
  bool_decide (p = d) || startswith (d +:+ "/") p.

(** A file system with a data file outside the workspace. *)
Definition data_fs : FS :=
  mkFS {["/tmp"; "/data"]} {["/data/table.csv" := "a,b"]} ∅.

Definition data_state : State :=
  initial_state "/usr/bin/python3" "/tmp/agent_exec_demo" data_fs.

(** A workspace that already holds a data file. *)
Definition staged_state : State :=
  mkState (self data_state)
    (mkFS (dirs (fs data_state))
       (<["/tmp/agent_exec_demo/notes.txt" := "hello"]> (files (fs data_state)))
       (readonly (fs data_state)))
    0 [].

(** ** Further vocabulary: counting the steps of the agent *)

(** A computation that appends to the log, with at most [g] generator calls
    and at most [e] executions among what it appends, whether it returns or
    raises. *)
Definition steps {A} (g e : nat) (m : M A) : Prop :=
  ∀ st, ∃ more,
    log (m st).2 = log st ++ more
    ∧ length (generations more) ≤ g
    ∧ length (executions more) ≤ e.

(** Every child process runs to completion with exit code 0, and leaves the
    code file writable. *)
Definition always_exits_zero (E : Env) (path : string) : Prop :=
  ∀ n req fs,
    writable path fs = true →
    ∃ out err fs',
      subprocess_run E n req fs = (Completed 0 out err, fs')
      ∧ writable path fs' = true.

(** A world where every program prints and exits normally. *)
Definition working_world (reply : string) : Env :=
  mkEnv ∅ (λ _ _ fs, (Completed 0 "ok" "", fs)) (λ n, Z.of_nat n)
    (λ _ _ _, Reply reply) decline.

(** A world without a model server. *)
Definition offline_world : Env :=
  mkEnv ∅ (λ _ _ fs, (Completed 0 "ok" "", fs)) (λ n, Z.of_nat n)
    (λ _ _ _, ConnectionError) decline.

(** ** Further vocabulary: frames of the session *)

(** A computation that leaves an observation of the state as it was,
    whether it returns or raises. *)
Definition keeps {A T} (obs : State → T) (m : M A) : Prop :=
  ∀ st, obs (m st).2 = obs st.

(** The settings of the session: the model, the auto-execution switch and
    the number of repair attempts. *)
Definition settings (ag : Agent.Locals) : string * bool * nat :=
  (Agent.model ag, Agent.auto_execute ag, Agent.max_fix_attempts ag).

(** What [chat] posts for a prompt and a conversation. *)
Definition posted (prompt : string) (conv : list Msg) : list Msg :=
  mkMsg System Agent.SYSTEM_PROMPT :: Agent.last_n 10 conv ++ [mkMsg User prompt].

(** What [chat] returns for each way the post ends. *)
Definition chat_answer (r : post_result) : bool * string :=
  match r with
  | Reply resp => (true, resp)
  | ConnectionError => (false, "Cannot connect to Ollama. Run 'ollama serve' first.")
  | PostError e => (false, exn_str e)
  end.

(** Locals with auto-execution switched off. *)
Definition manual_locals : Agent.Locals :=
  Agent.mkLocals "qwen3-coder-v4" [] None false 3.

(** ** Further vocabulary: texts *)

(** The character [c] does not occur in [s]. *)
Definition free_of (c : ascii) (s : string) : bool :=
  all_chars (λ x, negb (is_char c x)) s.

(** [s] does not begin with a blank. *)
Definition starts_clean (s : string) : Prop :=
  match s with
  | String c _ => is_space c = false
  | "" => True
  end.

(** [s] does not end with a blank. *)
Definition ends_clean (s : string) : Prop := starts_clean (String.rev s).

(** A reply that wraps its code in a fence. *)
Definition fenced_reply : string :=
  "Here you go:" +:+ str LF +:+ "```python" +:+ str LF +:+
  "  print(1)  " +:+ str LF +:+ "```" +:+ str LF +:+ "Enjoy.".

(** A reply in prose. *)
Definition prose_reply : string := "  I can do that for you.  ".

(** The part of [s] before the first occurrence of [l]; all of [s] when
    [l] does not occur. *)
Fixpoint before (l s : string) : string :=
  if startswith l s then ""
  else match s with
       | "" => ""
       | String c s' => String c (before l s')
       end.

(** ** [agent.py]: the first lines of [main] *)

Module Startup.

Definition FALLBACK_MODEL : string := "qwen3:4b".

(** [m.split(":")[0]] *)
Definition base_name (m : string) : string := before ":" m.

(** Lines 178-188 of [main]: the model the session starts with, given the
    configured model and the list [list_models()] returned; [None] is the
    early return when the list is empty. *)
Definition select_model (model : string) (models : list string) : option string :=
  if bool_decide (models = []) then None
  else
    let model_bases := base_name <$> models in
    if negb (bool_decide (model ∈ model_bases)) && negb (bool_decide (model ∈ models)) then
      if bool_decide (base_name FALLBACK_MODEL ∈ model_bases)
         || bool_decide (FALLBACK_MODEL ∈ models)
      then Some FALLBACK_MODEL
      else Some model
    else Some model.

(** [main] from the creation of the executor on: [model] is what
    [get_model()] returned and [models] what [list_models()] returned. *)
Definition main (E : Env) (model : string) (models : list string)
    (inputs : list Agent.UserInput) : M (option Agent.Locals) :=
  set_input_callback (terminal_input E);;
  match select_model model models with
  | None =>
      emit (EvOut (OutText "Error: Cannot connect to Ollama. Run 'ollama serve' first."));;
      mret None
  | Some model =>
      ag ← Agent.repl E inputs (Agent.mkLocals model [] None true 3);
      cleanup;;
      mret (Some ag)
  end.

End Startup.

(** The state after the workspace has been removed. *)
Definition cleaned_state : State := (cleanup demo_state).2.

(** ** Further vocabulary: removal *)

(** Nothing stands in the way of removing [d] and what lies below it: no
    path below [d] is write-protected, nor is the directory that holds
    [d]. *)
Definition unprotected (d : string) (fs : FS) : Prop :=
  (dirname d ∉ readonly fs) ∧ ∀ p, below d p = true → p ∉ readonly fs.

(** The state after one run in a workspace next to a data file. *)
Definition ran_once : State :=
  (execute (failing_world "") "print(1)" None data_state).2.

(** A short session: one request whose code runs, then [/quit]. *)
Definition short_session : Res Agent.Locals * State :=
  Agent.main (working_world "print(1)") "qwen3-coder-v4"
    [Agent.Request "say one"; Agent.Cmd Agent.Quit] demo_state.

(** The local variables at the end of a run, when it returned. *)
Definition returned (r : Res Agent.Locals * State) : Agent.Locals :=
  match r.1 with
  | Ok ag => ag
  | Raise _ => fresh_locals
  end.

(** One request in a world where every attempt fails. *)
Definition failing_request : Res Agent.Locals * State :=
  Agent.handle_request (failing_world "print(1/0)") "divide" fresh_locals demo_state.

(** * Properties *)

(** ** The monad *)

Lemma bind_ok {A B} (m : M A) (f : A → M B) st a st' :
  m st = (Ok a, st') → (m ≫= f) st = f a st'.
Proof. intros H. unfold mbind, M_bind. now rewrite H. Qed.

Ltac run_monad :=
  unfold mbind, M_bind, mret, M_ret, gets, modify_self, emit, next_tick; simpl.

(** ** [_detect_inputs]: calls the pattern does not match (claim C6) *)

(** C6, counterexample. A call whose argument is a variable produces no
    request at all, hence none with the default label. *)
Lemma variable_argument_not_detected :
  ¬ ∃ site, (site, "Enter value") ∈ _detect_inputs "name = input(prompt)".
Proof.
  assert (H : _detect_inputs "name = input(prompt)" = []) by (vm_compute; reflexivity).
  rewrite H. intros [site Hin]. inversion Hin.
Qed.

(** *** Strings *)

Lemma app_cons c s t : String c s +:+ t = String c (s +:+ t).
Proof. reflexivity. Qed.

Lemma app_empty t : "" +:+ t = t.
Proof. reflexivity. Qed.

Lemma length_app_str a b :
  String.length (a +:+ b) = String.length a + String.length b.
Proof.
  induction a as [|c a IH]; [reflexivity|]. rewrite app_cons. simpl. now rewrite IH.
Qed.

Lemma app_empty_r a : a +:+ "" = a.
Proof. induction a as [|c a IH]; [reflexivity|]. rewrite app_cons. now rewrite IH. Qed.

Lemma drop_str_app pre t : drop_str (String.length pre) (pre +:+ t) = t.
Proof. induction pre as [|c pre IH]; [reflexivity|]. rewrite app_cons. exact IH. Qed.

(** *** The scan reports real matches only *)

Lemma scan_sound r s :
  ∀ pos skip m,
    m ∈ scan r pos skip s →
    ∃ k, m_start m = pos + k ∧
         match_here r (pos + k) (drop_str k s) = Some (m_end m, m_span1 m).
Proof.
  induction s as [|c s IH]; intros pos skip m Hin; simpl in Hin.
  - destruct skip; [|inversion Hin].
    destruct (match_here r pos "") as [[e cap]|] eqn:Hm; [|inversion Hin].
    apply list_elem_of_singleton in Hin as ->. exists 0. simpl.
    rewrite Nat.add_0_r. auto.
  - assert (Htail : ∀ skip', m ∈ scan r (S pos) skip' s →
      ∃ k, m_start m = pos + k ∧
           match_here r (pos + k) (drop_str k (String c s)) = Some (m_end m, m_span1 m)).
    { intros skip' H. destruct (IH _ _ _ H) as (k & Hs & Hm).
      exists (S k). simpl. rewrite Nat.add_succ_r. auto. }
    destruct skip as [|n]; [|eauto].
    destruct (match_here r pos (String c s)) as [[e cap]|] eqn:Hm; [|eauto].
    apply elem_of_cons in Hin as [->|Hin]; [|eauto].
    exists 0. simpl. rewrite Nat.add_0_r. auto.
Qed.

(** *** The pattern at a call whose argument is not a literal *)

Lemma space_is_plain c :
  is_space c = true →
  is_quote c = false ∧ bool_decide ("("%char = c) = false
  ∧ bool_decide (")"%char = c) = false ∧ bool_decide ("f"%char = c) = false.
Proof. destruct c as [[] [] [] [] [] [] [] []]; vm_compute; intros; try discriminate; auto. Qed.

(** Greedy iteration over blanks gives nothing back to a continuation that
    cannot start on a blank. *)
Lemma star_greedy_blanks ws :
  ∀ pos s k,
    all_chars is_space ws = true →
    (∀ pos' c s', is_space c = true → k pos' (String c s') = None) →
    star_greedy is_space pos (ws +:+ s) k
      = star_greedy is_space (pos + String.length ws) s k.
Proof.
  induction ws as [|c ws IH]; intros pos s k Hall Hk.
  - rewrite app_empty. simpl. now rewrite Nat.add_0_r.
  - simpl in Hall. apply andb_true_iff in Hall as [Hc Hall].
    rewrite app_cons. simpl. rewrite Hc, (IH _ _ _ Hall Hk), (Hk _ _ _ Hc).
    rewrite Nat.add_succ_r. now destruct (star_greedy _ _ _ _).
Qed.

Lemma argument_pattern_rejects_non_literal rest pos cap k :
  starts_non_literal rest = true →
  run argument_pattern pos rest cap k = None.
Proof.
  destruct rest as [|c s]; [discriminate|]. intros H. simpl in H.
  apply andb_true_iff in H as [H Hf]. apply andb_true_iff in H as [H Hp].
  apply andb_true_iff in H as [Hs Hq].
  apply negb_true_iff in Hs, Hq, Hp, Hf. unfold is_char in Hp, Hf.
  simpl. rewrite Hs, Hq, Hp.
  destruct (bool_decide ("f"%char = c)); [|reflexivity].
  simpl in Hf. destruct s as [|c2 s2]; [reflexivity|]. rewrite Hf. reflexivity.
Qed.

(** The same after any run of blanks, whether the blanks are taken by the
    iteration in front of the argument or by the one behind it. *)
Lemma argument_pattern_rejects_after_blanks rest k ws :
  starts_non_literal rest = true →
  all_chars is_space ws = true →
  ∀ pos cap, run argument_pattern pos (ws +:+ rest) cap k = None.
Proof.
  intros Hrest Hws pos cap. destruct ws as [|c ws].
  { rewrite app_empty. now apply argument_pattern_rejects_non_literal. }
  simpl in Hws. apply andb_true_iff in Hws as [Hc Hws].
  destruct (space_is_plain c Hc) as (Hq & _ & Hp & Hf).
  rewrite app_cons. unfold argument_pattern.
  change (run (?a ⋅ ?b) ?p ?s ?c ?k) with (run a p s c (λ p' s' c', run b p' s' c' k)).
  change (run (Opt ?a) ?p ?s ?c ?k) with
    (match run a p s c k with Some o => Some o | None => k p s c end).
  replace (run (Opt (Lit "f") ⋅ Cls is_quote ⋅ Grp (StarLazy not_newline) ⋅ Cls is_quote)
             pos (String c (ws +:+ rest)) cap _) with (@None outcome)
    by (simpl; rewrite Hf, Hq; reflexivity).
  change (run (Star is_space ⋅ Lit ")") pos (String c (ws +:+ rest)) cap k)
    with (star_greedy is_space pos (String c ws +:+ rest)
            (λ p' s', run (Lit ")") p' s' cap k)).
  rewrite star_greedy_blanks.
  - destruct rest as [|c2 s2]; [discriminate|].
    simpl in Hrest. repeat (apply andb_true_iff in Hrest as [Hrest ?]).
    repeat match goal with H : negb _ = true |- _ => apply negb_true_iff in H end.
    unfold is_char in *. simpl.
    repeat match goal with H : _ = false |- _ => rewrite H end. reflexivity.
  - simpl. now rewrite Hc, Hws.
  - intros p' c' s' Hc'. destruct (space_is_plain c' Hc') as (_ & _ & Hp' & _).
    simpl. now rewrite Hp'.
Qed.

Lemma star_greedy_cons p pos c s k :
  star_greedy p pos (String c s) k
  = if p c then
      match star_greedy p (S pos) s k with
      | Some r => Some r
      | None => k pos (String c s)
      end
    else k pos (String c s).
Proof. reflexivity. Qed.

Lemma blanks_then_argument_rejected rest ws :
  starts_non_literal rest = true →
  all_chars is_space ws = true →
  ∀ pos cap k,
    star_greedy is_space pos (ws +:+ rest)
      (λ p' s', run argument_pattern p' s' cap k) = None.
Proof.
  intros Hrest. induction ws as [|c ws IH]; intros Hws pos cap k.
  - rewrite app_empty. destruct rest as [|c s] eqn:Hr; [discriminate|].
    assert (Hs : is_space c = false).
    { simpl in Hrest. repeat (apply andb_true_iff in Hrest as [Hrest ?]).
      now apply negb_true_iff in Hrest. }
    rewrite star_greedy_cons, Hs.
    now apply argument_pattern_rejects_non_literal.
  - pose proof Hws as Hall. simpl in Hws. apply andb_true_iff in Hws as [Hc Hws].
    rewrite app_cons, star_greedy_cons, Hc, (IH Hws).
    rewrite <- app_cons. now apply argument_pattern_rejects_after_blanks.
Qed.

(** The pattern does not match at a call whose argument is not a literal. *)
Lemma input_pattern_rejects_non_literal ws1 ws2 rest pos :
  all_chars is_space ws1 = true →
  all_chars is_space ws2 = true →
  starts_non_literal rest = true →
  match_here input_pattern pos ("input" +:+ ws1 +:+ "(" +:+ ws2 +:+ rest) = None.
Proof.
  intros H1 H2 Hrest. unfold match_here.
  change input_pattern with
    (Lit "input" ⋅ Star is_space ⋅ Lit "(" ⋅ Star is_space ⋅ argument_pattern).
  rewrite !app_cons, app_empty.
  change (run (Lit "input" ⋅ ?r) pos (String "i" (String "n" (String "p"
            (String "u" (String "t" ?s))))) None accept)
    with (run r (pos + 5) s None accept).
  change (run (Star is_space ⋅ ?r) ?p ?s None accept)
    with (star_greedy is_space p s (λ p' s', run r p' s' None accept)).
  rewrite star_greedy_blanks; [|exact H1|].
  2: { intros p' c s' Hc. destruct (space_is_plain c Hc) as (_ & Ho & _ & _).
       simpl. now rewrite Ho. }
  rewrite app_empty, star_greedy_cons.
  change (is_space "(") with false. cbv iota.
  change (run (Lit "(" ⋅ Star is_space ⋅ argument_pattern) ?p
            (String "(" ?s) None accept)
    with (star_greedy is_space (p + 1) s
            (λ p' s', run argument_pattern p' s' None accept)).
  now apply blanks_then_argument_rejected.
Qed.

(** C6, as the code has it. At a call whose argument is not a string
    literal the pattern of the detector does not match: every request
    [_detect_inputs] returns comes from a match of the pattern that starts
    somewhere else, so no request (and no default label) is produced for
    that occurrence. Blanks after [input] and after the parenthesis are
    allowed. *)
Theorem non_literal_argument_yields_no_request pre ws1 ws2 rest i req :
  all_chars is_space ws1 = true →
  all_chars is_space ws2 = true →
  starts_non_literal rest = true →
  let code := pre +:+ "input" +:+ ws1 +:+ "(" +:+ ws2 +:+ rest in
  _detect_inputs code !! i = Some req →
  ∃ m, finditer input_pattern code !! i = Some m
       ∧ req = request_of code m
       ∧ m_start m ≠ String.length pre.
Proof.
  intros H1 H2 Hrest code Hreq. unfold _detect_inputs in Hreq.
  rewrite list_lookup_fmap in Hreq.
  destruct (finditer input_pattern code !! i) as [m|] eqn:Hm; [|discriminate].
  injection Hreq as <-. exists m. split; [reflexivity|]. split; [reflexivity|].
  intros Hstart.
  assert (Hin : m ∈ finditer input_pattern code)
    by (apply list_elem_of_lookup; eauto).
  destruct (scan_sound _ _ _ _ _ Hin) as (k & Hk & Hmatch).
  simpl in Hk. unfold code in Hmatch.
  rewrite <- Hk, Hstart, drop_str_app in Hmatch.
  rewrite input_pattern_rejects_non_literal in Hmatch by assumption. discriminate.
Qed.

Lemma non_literal_argument_yields_no_request_witness :
  let pre := "a = input()" +:+ str LF +:+ "b = " in
  let code := pre +:+ "input" +:+ "" +:+ "(" +:+ " " +:+ "prompt)" in
  all_chars is_space "" = true ∧
  all_chars is_space " " = true ∧
  starts_non_literal "prompt)" = true ∧
  _detect_inputs code = [("input()", "Enter value")] ∧
  ∃ m, finditer input_pattern code !! 0 = Some m
       ∧ ("input()", "Enter value") = request_of code m
       ∧ m_start m ≠ String.length pre.
Proof.
  repeat split; try reflexivity.
  exact (non_literal_argument_yields_no_request
           ("a = input()" +:+ str LF +:+ "b = ") "" " " "prompt)" 0
           ("input()", "Enter value") eq_refl eq_refl eq_refl eq_refl).
Defined.

(** *** The pattern at a call without argument *)

Lemma star_greedy_takes ws :
  ∀ pos s k r,
    all_chars is_space ws = true →
    star_greedy is_space (pos + String.length ws) s k = Some r →
    star_greedy is_space pos (ws +:+ s) k = Some r.
Proof.
  induction ws as [|c ws IH]; intros pos s k r Hall Hk.
  - rewrite app_empty. simpl in Hk. now rewrite Nat.add_0_r in Hk.
  - simpl in Hall. apply andb_true_iff in Hall as [Hc Hall].
    rewrite app_cons, star_greedy_cons, Hc.
    rewrite (IH (S pos) s k r Hall); [reflexivity|].
    simpl in Hk. now rewrite Nat.add_succ_r in Hk.
Qed.

Lemma input_pattern_accepts_bare_call ws1 ws2 post pos :
  all_chars is_space ws1 = true →
  all_chars is_space ws2 = true →
  match_here input_pattern pos ("input" +:+ ws1 +:+ "(" +:+ ws2 +:+ ")" +:+ post)
  = Some (pos + 5 + String.length ws1 + 1 + String.length ws2 + 1, None).
Proof.
  intros H1 H2. unfold match_here.
  change input_pattern with
    (Lit "input" ⋅ Star is_space ⋅ Lit "(" ⋅ Star is_space ⋅ argument_pattern).
  rewrite !app_cons, !app_empty.
  change (run (Lit "input" ⋅ ?r) pos (String "i" (String "n" (String "p"
            (String "u" (String "t" ?s))))) None accept)
    with (run r (pos + 5) s None accept).
  change (run (Star is_space ⋅ ?r) ?p ?s None accept)
    with (star_greedy is_space p s (λ p' s', run r p' s' None accept)).
  apply star_greedy_takes; [exact H1|].
  rewrite star_greedy_cons. change (is_space "(") with false. cbv iota.
  change (run (Lit "(" ⋅ Star is_space ⋅ argument_pattern) ?p
            (String "(" ?s) None accept)
    with (star_greedy is_space (p + 1) s
            (λ p' s', run argument_pattern p' s' None accept)).
  apply star_greedy_takes; [exact H2|].
  reflexivity.
Qed.

Lemma take_str_all s : take_str (String.length s) s = s.
Proof. induction s as [|c s IH]; [reflexivity|]. simpl. now rewrite IH. Qed.

Lemma scan_skips_to_end s :
  ∀ pos, scan input_pattern pos (String.length s) s = [].
Proof. induction s as [|c s IH]; intros pos; [reflexivity|]. simpl. apply IH. Qed.

(** A program that is one call without argument yields one request, with
    the default label. *)
Lemma bare_call_gets_default_label ws1 ws2 :
  all_chars is_space ws1 = true →
  all_chars is_space ws2 = true →
  let site := "input" +:+ ws1 +:+ "(" +:+ ws2 +:+ ")" in
  _detect_inputs site = [(site, "Enter value")].
Proof.
  intros H1 H2 site.
  pose proof (input_pattern_accepts_bare_call ws1 ws2 "" 0 H1 H2) as Hm.
  assert (Hlen : 0 + 5 + String.length ws1 + 1 + String.length ws2 + 1
                 = String.length site).
  { unfold site. rewrite !length_app_str. simpl. lia. }
  assert (Hsite : "input" +:+ ws1 +:+ "(" +:+ ws2 +:+ ")" +:+ "" = site).
  { unfold site. now rewrite app_empty_r. }
  rewrite Hsite, Hlen in Hm.
  unfold _detect_inputs, finditer.
  destruct site as [|c rest] eqn:Hs; [discriminate|].
  simpl scan. rewrite Hm. simpl String.length. rewrite Nat.sub_0_r.
  replace (S (String.length rest) - 1) with (String.length rest) by lia.
  rewrite scan_skips_to_end. simpl. unfold request_of, group0, group1, slice. simpl.
  now rewrite take_str_all.
Qed.

(** ** [_replace_inputs]: substituted values are searched again (claim C7) *)

(** C7. Evaluation at the failing input: two [input()] calls, the user
    answers the first prompt with the text [input()] and the second with
    [x]. The second replacement lands inside the literal the first one put
    in; the second call stays unreplaced. *)
Theorem replace_inputs_hits_substituted_value :
  _detect_inputs two_inputs
    = [("input()", "Enter value"); ("input()", "Enter value")] ∧
  _replace_inputs two_inputs ["input()"; "x"]
    = "a = " +:+ str DQ +:+ str DQ +:+ "x" +:+ str DQ +:+ str DQ +:+ str LF +:+
      "b = input()".
Proof. split; vm_compute; reflexivity. Qed.

(** ** [execute]: cancellation (claims C3 and C10) *)

Lemma ask_all_declined cb inputs :
  ∀ values st,
    declines cb (tick st) inputs →
    ∃ asks,
      Forall (λ ev, is_ask ev = true) asks ∧
      ask_all cb inputs values st =
        (Ok None, mkState (self st) (fs st) (tick st + length asks) (log st ++ asks)).
Proof.
  induction inputs as [|[full prompt] inputs IH]; intros values st (i & req & Hi & Hc).
  - destruct i; discriminate.
  - simpl. unfold call_callback. run_monad.
    destruct (cb (tick st) prompt) as [v|] eqn:Hv.
    + destruct i as [|i].
      { simpl in Hi, Hc. injection Hi as <-. simpl in Hc.
        rewrite Nat.add_0_r in Hc. congruence. }
      edestruct (IH (values ++ [v])
                   (mkState (self st) (fs st) (S (tick st))
                      (log st ++ [EvAsk prompt (Some v)]))) as (asks & Hall & Heq).
      { exists i, req. split; [exact Hi|]. simpl.
        rewrite <- Hc. f_equal. lia. }
      exists (EvAsk prompt (Some v) :: asks). split.
      { constructor; [reflexivity|exact Hall]. }
      rewrite Heq. simpl. rewrite <- app_assoc. simpl.
      do 2 f_equal. f_equal. lia.
    + exists [EvAsk prompt None]. split.
      { repeat constructor. }
      simpl. do 2 f_equal. f_equal. lia.
Qed.

(** The state [execute] leaves behind when a prompt is declined: only
    [last_code] and the log of prompts have changed. *)
Lemma execute_declined E code st cb :
  input_callback (self st) = Some cb →
  declines cb (tick st) (_detect_inputs code) →
  ∃ asks,
    Forall (λ ev, is_ask ev = true) asks ∧
    execute E code None st =
      (Ok (result false "" "Cancelled by user" 0),
       mkState (set_last_code (Some code) (self st)) (fs st)
         (tick st + length asks) (log st ++ asks)).
Proof.
  intros Hcb Hdec.
  destruct (ask_all_declined cb (_detect_inputs code) []
              (mkState (set_last_code (Some code) (self st)) (fs st) (tick st) (log st))
              Hdec) as (asks & Hall & Heq).
  exists asks. split; [exact Hall|].
  unfold execute, prepare, resolve_inputs. run_monad. rewrite Hcb.
  destruct (_detect_inputs code) as [|req reqs] eqn:Hd.
  { destruct Hdec as ([|i] & r & Hi & _); discriminate. }
  unfold mbind, M_bind. rewrite Heq. reflexivity.
Qed.

(** Whatever the answers, the prompt loop touches neither the executor nor
    the file system, and logs prompts only. *)
Lemma ask_all_frame cb inputs :
  ∀ values st,
    ∃ r asks,
      Forall (λ ev, is_ask ev = true) asks ∧
      ask_all cb inputs values st =
        (Ok r, mkState (self st) (fs st) (tick st + length asks) (log st ++ asks)).
Proof.
  induction inputs as [|[full prompt] inputs IH]; intros values st.
  - exists (Some values), []. split; [constructor|].
    simpl. unfold mret, M_ret. rewrite Nat.add_0_r, app_nil_r. now destruct st.
  - simpl. unfold call_callback. run_monad.
    destruct (cb (tick st) prompt) as [v|] eqn:Hv.
    + destruct (IH (values ++ [v])
                  (mkState (self st) (fs st) (S (tick st))
                     (log st ++ [EvAsk prompt (Some v)]))) as (r & asks & Hall & Heq).
      exists r, (EvAsk prompt (Some v) :: asks). split.
      { constructor; [reflexivity|exact Hall]. }
      rewrite Heq. simpl. rewrite <- app_assoc. simpl.
      do 2 f_equal. f_equal. lia.
    + exists None, [EvAsk prompt None]. split.
      { repeat constructor. }
      simpl. do 2 f_equal. f_equal. lia.
Qed.

(** When [execute] gets as far as the subprocess, the executor has only had
    its [last_code] set. *)
Lemma prepare_self code input_data st code_file st1 :
  prepare code input_data st = (Ok (Some code_file), st1) →
  self st1 = set_last_code (Some code) (self st).
Proof.
  unfold prepare, resolve_inputs, open_write, lift_fs. run_monad.
  set (st0 := mkState (set_last_code (Some code) (self st)) (fs st) (tick st) (log st)).
  assert (Hframe : ∀ cb, ∃ r asks,
    ask_all cb (_detect_inputs code) [] st0 =
      (Ok r, mkState (self st0) (fs st0) (tick st0 + length asks) (log st0 ++ asks))).
  { intros cb. destruct (ask_all_frame cb (_detect_inputs code) [] st0)
      as (r & asks & _ & Heq). eauto. }
  destruct (input_callback (self st)) as [cb|].
  2: { destruct (_detect_inputs code); destruct (fs_write _ _ _);
       simpl; intros [= <- <-]; reflexivity. }
  destruct input_data as [d|].
  { destruct (_detect_inputs code); destruct (fs_write _ _ _);
    simpl; intros [= <- <-]; reflexivity. }
  destruct (Hframe cb) as (r & asks & Heq).
  destruct (_detect_inputs code) as [|req reqs].
  { destruct (fs_write _ _ _); simpl; intros [= <- <-]; reflexivity. }
  unfold mbind, M_bind. rewrite Heq. destruct r as [values|]; [|discriminate].
  cbn [self fs]. destruct (fs_write _ _ _); simpl; intros [= <- <-]; reflexivity.
Qed.

(** C3. With at least one detected input request, a callback configured and
    no input data, a callback that declines some request makes [execute]
    return at once with success flag false, empty stdout, stderr
    "Cancelled by user" and elapsed time 0; the file system is left as it
    was (no code file written) and the only interactions logged are prompts
    (no subprocess spawned). *)
Theorem execute_cancel_short_circuits E code st cb :
  _detect_inputs code ≠ [] →
  input_callback (self st) = Some cb →
  declines cb (tick st) (_detect_inputs code) →
  ∃ st' asks,
    execute E code None st = (Ok (result false "" "Cancelled by user" 0), st') ∧
    fs st' = fs st ∧
    log st' = log st ++ asks ∧
    Forall (λ ev, is_ask ev = true) asks.
Proof.
  intros _ Hcb Hdec.
  destruct (execute_declined E code st cb Hcb Hdec) as (asks & Hall & Heq).
  eexists _, asks. split; [exact Heq|]. simpl. auto.
Qed.

Lemma execute_cancel_short_circuits_witness :
  _detect_inputs "name = input()" ≠ [] ∧
  input_callback (self (after_failed_run decline)) = Some decline ∧
  declines decline (tick (after_failed_run decline)) (_detect_inputs "name = input()") ∧
  ∃ st' asks,
    execute (failing_world "") "name = input()" None (after_failed_run decline)
      = (Ok (result false "" "Cancelled by user" 0), st') ∧
    fs st' = fs (after_failed_run decline) ∧
    log st' = log (after_failed_run decline) ++ asks ∧
    Forall (λ ev, is_ask ev = true) asks.
Proof.
  assert (H1 : _detect_inputs "name = input()" ≠ []) by (vm_compute; discriminate).
  assert (H3 : declines decline (tick (after_failed_run decline))
                 (_detect_inputs "name = input()")).
  { exists 0, ("input()", "Enter value"). split; reflexivity. }
  split; [exact H1|]. split; [reflexivity|]. split; [exact H3|].
  exact (execute_cancel_short_circuits (failing_world "") "name = input()"
           (after_failed_run decline) decline H1 eq_refl H3).
Defined.

(** C10. When [execute] returns through the cancellation path, [last_code]
    holds the newly submitted code while [last_output], [last_error] and
    [last_returncode] still hold what the previous execution recorded. *)
Theorem execute_cancel_keeps_last_result E code st cb :
  input_callback (self st) = Some cb →
  declines cb (tick st) (_detect_inputs code) →
  ∃ st',
    execute E code None st = (Ok (result false "" "Cancelled by user" 0), st') ∧
    last_code (self st') = Some code ∧
    last_output (self st') = last_output (self st) ∧
    last_error (self st') = last_error (self st) ∧
    last_returncode (self st') = last_returncode (self st).
Proof.
  intros Hcb Hdec.
  destruct (execute_declined E code st cb Hcb Hdec) as (asks & _ & Heq).
  eexists. split; [exact Heq|]. simpl. auto.
Qed.

Lemma execute_cancel_keeps_last_result_witness :
  input_callback (self (after_failed_run decline)) = Some decline ∧
  declines decline (tick (after_failed_run decline)) (_detect_inputs "name = input()") ∧
  ∃ st',
    execute (failing_world "") "name = input()" None (after_failed_run decline)
      = (Ok (result false "" "Cancelled by user" 0), st') ∧
    last_code (self st') = Some "name = input()" ∧
    last_output (self st') = Some "" ∧
    last_error (self st') = Some "ZeroDivisionError: division by zero" ∧
    last_returncode (self st') = Some 1%Z.
Proof.
  assert (H2 : declines decline (tick (after_failed_run decline))
                 (_detect_inputs "name = input()")).
  { exists 0, ("input()", "Enter value"). split; reflexivity. }
  split; [reflexivity|]. split; [exact H2|].
  exact (execute_cancel_keeps_last_result (failing_world "") "name = input()"
           (after_failed_run decline) decline eq_refl H2).
Defined.

(** ** [execute]: outcome classification (claim C1) *)

(** C1. Every call of [execute] that reaches the subprocess stage returns a
    result, and that result is classified from the way the process ended:
    exit code 0 gives the success flag true; a nonzero exit code gives the
    flag false with the captured stdout and stderr; a timeout gives the flag
    false, empty stdout, the timeout message with the configured number of
    seconds as stderr, and the recorded exit code -1; any other failure of
    [subprocess.run] gives the flag false, empty stdout, the description of
    the failure as stderr, and the recorded exit code -1. *)
Theorem execute_classifies_outcome E code input_data st code_file st1 :
  prepare code input_data st = (Ok (Some code_file), st1) →
  let req := mkSpawn [python_path (self st); code_file] (work_dir (self st))
               input_data (_safe_env E) (timeout (self st)) in
  ∃ r fs' res st',
    subprocess_run E (S (tick st1)) req (fs st1) = (r, fs') ∧
    execute E code input_data st = (Ok res, st') ∧
    log st' = log st1 ++ [EvSpawn req r] ∧
    classified (self st) r res (last_returncode (self st')).
Proof.
  intros Hprep req. pose proof (prepare_self _ _ _ _ _ Hprep) as Hself.
  unfold execute. rewrite (bind_ok _ _ _ _ _ Hprep).
  unfold run_code, read_clock, spawn. run_monad. rewrite Hself. simpl. fold req.
  destruct (subprocess_run E (S (tick st1)) req (fs st1)) as [r fs'] eqn:Hrun.
  exists r, fs',
    (match r with
     | Completed rc out err =>
         result (bool_decide (rc = 0%Z)) out err
           (time_time E (S (S (tick st1))) - time_time E (tick st1))
     | TimeoutExpired =>
         result false "" (timeout_message (timeout (self st)))
           (time_time E (S (S (tick st1))) - time_time E (tick st1))
     | RunError e =>
         result false "" (exn_str e)
           (time_time E (S (S (tick st1))) - time_time E (tick st1))
     end).
  destruct r as [rc out err| |e]; simpl; eexists; (split; [reflexivity|]);
    (split; [reflexivity|]); (split; [reflexivity|]); simpl.
  - unfold classified, spec_outcome. destruct (bool_decide (rc = 0%Z)); auto.
  - unfold timeout_message. auto.
  - auto.
Qed.

Lemma execute_classifies_outcome_witness :
  let st1 := (prepare "print(1/0)" None demo_state).2 in
  let req := mkSpawn ["/usr/bin/python3"; "/tmp/agent_exec_demo/run_code.py"]
               "/tmp/agent_exec_demo" None (_safe_env (failing_world "")) 30 in
  prepare "print(1/0)" None demo_state
    = (Ok (Some "/tmp/agent_exec_demo/run_code.py"), st1) ∧
  ∃ r fs' res st',
    subprocess_run (failing_world "") (S (tick st1)) req (fs st1) = (r, fs') ∧
    execute (failing_world "") "print(1/0)" None demo_state = (Ok res, st') ∧
    log st' = log st1 ++ [EvSpawn req r] ∧
    classified (self demo_state) r res (last_returncode (self st')).
Proof.
  assert (H : prepare "print(1/0)" None demo_state
              = (Ok (Some "/tmp/agent_exec_demo/run_code.py"),
                 (prepare "print(1/0)" None demo_state).2))
    by (vm_compute; reflexivity).
  split; [exact H|].
  exact (execute_classifies_outcome (failing_world "") "print(1/0)" None demo_state
           _ _ H).
Defined.

(** ** [execute]: the write of the code file is outside the handler (claim C2) *)

(** Any failure of the write leaves [execute] as an exception, whatever the
    world. *)
Lemma execute_write_failure E code st e :
  input_callback (self st) = None →
  fs_write (path_join (work_dir (self st)) "run_code.py") code (fs st) = inl e →
  execute E code None st =
    (Raise e, mkState (set_last_code (Some code) (self st)) (fs st) (tick st) (log st)).
Proof.
  intros Hcb Hw. unfold execute, prepare, resolve_inputs, open_write, lift_fs.
  run_monad. rewrite Hcb.
  destruct (_detect_inputs code); simpl; rewrite Hw; reflexivity.
Qed.

(** C2. Evaluation at the failing input: once the workspace is gone (here
    after [cleanup]), [execute] does not return a result; the
    [FileNotFoundError] of the write propagates to the caller. *)
Theorem execute_raises_when_write_fails :
  (cleanup ≫= λ _, execute (failing_world "") "print(1)" None) demo_state
  = (Raise (FileNotFoundError "/tmp/agent_exec_demo/run_code.py"),
     mkState (set_last_code (Some "print(1)") (self demo_state))
       (fs_rmtree "/tmp/agent_exec_demo" (fs demo_state)) 0 []).
Proof. vm_compute. reflexivity. Qed.

(** ** [save_code]: a bare file name (claim C9) *)


(** When [save_code] reports success, a read of the path gives the text
    back and the parent directory exists. *)
Lemma save_code_round_trip code filepath st msg st' :
  save_code code filepath st = (Ok (true, msg), st') →
  fs_read filepath (fs st') = Some code ∧ dirname filepath ∈ dirs (fs st').
Proof.
  unfold save_code, try_except, open_write, lift_fs. run_monad.
  destruct (fs_makedirs (dirname filepath) (fs st)) as [e|fs1] eqn:Hmk; simpl;
    [discriminate|].
  unfold fs_write.
  repeat (case_bool_decide; simpl; try discriminate).
  all: destruct (dir_exists _ _) eqn:Hd; simpl; try discriminate.
  all: unfold dir_exists in Hd.
  all: repeat (case_bool_decide; simpl in *; try discriminate).
  all: intros [= <- <-]; simpl; unfold fs_read; simpl.
  all: rewrite lookup_insert_eq; split; [reflexivity|].
  all: unfold fs_makedirs in Hmk.
  all: destruct (String.length (dirname filepath)); simpl in Hmk.
  all: repeat (case_bool_decide; simpl in *; try discriminate); try congruence.
  all: try tauto.
Qed.

(** C9. Evaluation at the failing input: a destination without a directory
    part. [os.path.dirname] gives the empty string, [os.makedirs] rejects
    it, and [save_code] reports failure although nothing stands in the way
    of the write; the file is not created. *)
Theorem save_code_fails_on_bare_name :
  save_code "print(1)" "out.py" demo_state
    = (Ok (false, "[Errno 2] No such file or directory: ''"), demo_state) ∧
  fs_read "out.py" (fs (save_code "print(1)" "out.py" demo_state).2) = None.
Proof. split; vm_compute; reflexivity. Qed.

(** ** The log only grows *)

Lemma grows_ret {A} (a : A) : grows (mret a).
Proof. intros st. exists []. simpl. now rewrite app_nil_r. Qed.

Lemma grows_bind {A B} (m : M A) (f : A → M B) :
  grows m → (∀ a, grows (f a)) → grows (m ≫= f).
Proof.
  intros Hm Hf st. unfold mbind, M_bind.
  destruct (Hm st) as (m1 & H1). destruct (m st) as [[a|e] st1]; simpl in *.
  - destruct (Hf a st1) as (m2 & H2). exists (m1 ++ m2).
    now rewrite H2, H1, app_assoc.
  - eauto.
Qed.

Lemma grows_emit ev : grows (emit ev).
Proof. intros st. exists [ev]. reflexivity. Qed.

Lemma grows_quiet {A} (m : M A) : (∀ st, log (m st).2 = log st) → grows m.
Proof. intros H st. exists []. now rewrite H, app_nil_r. Qed.

Lemma grows_lift_fs op : grows (lift_fs op).
Proof. apply grows_quiet. intros st. unfold lift_fs. now destruct (op (fs st)). Qed.

Lemma grows_ask_all cb inputs values : grows (ask_all cb inputs values).
Proof.
  intros st. destruct (ask_all_frame cb inputs values st) as (r & asks & _ & Heq).
  exists asks. now rewrite Heq.
Qed.

Lemma grows_spawn E req : grows (spawn E req).
Proof.
  intros st. unfold spawn. destruct (subprocess_run _ _ _ _) as [r fs'].
  now exists [EvSpawn req r].
Qed.

Ltac grows_step :=
  first
    [ apply grows_ret
    | apply grows_emit
    | apply grows_lift_fs
    | apply grows_ask_all
    | apply grows_spawn
    | apply grows_quiet; reflexivity
    | apply grows_bind; [|intros ?] ].

Lemma grows_resolve_inputs code input_data : grows (resolve_inputs code input_data).
Proof.
  unfold resolve_inputs. apply grows_bind; [apply grows_quiet; reflexivity|].
  intros cb. destruct (_detect_inputs code), cb, input_data; try apply grows_ret.
  apply grows_bind; [apply grows_ask_all|]. intros [values|]; apply grows_ret.
Qed.

Lemma grows_prepare code input_data : grows (prepare code input_data).
Proof.
  unfold prepare, open_write.
  apply grows_bind; [apply grows_quiet; reflexivity|intros _].
  apply grows_bind; [apply grows_resolve_inputs|intros [code'|]]; repeat grows_step.
Qed.

Lemma grows_run_code E code_file input_data : grows (run_code E code_file input_data).
Proof.
  unfold run_code, read_clock.
  apply grows_bind; [repeat grows_step|intros start].
  apply grows_bind; [repeat grows_step|intros x].
  apply grows_bind; [apply grows_spawn|intros [rc out err| |e]]; repeat grows_step.
Qed.

Lemma grows_execute E code input_data : grows (execute E code input_data).
Proof.
  unfold execute. apply grows_bind; [apply grows_prepare|].
  intros [code_file|]; [apply grows_run_code|apply grows_ret].
Qed.

Lemma grows_execute_and_show E code : grows (Agent.execute_and_show E code).
Proof.
  unfold Agent.execute_and_show.
  apply grows_bind; [apply grows_execute|intros r]. repeat grows_step.
Qed.

Lemma grows_chat E prompt model conversation :
  grows (Agent.chat E prompt model conversation).
Proof.
  unfold Agent.chat. repeat grows_step.
  destruct (requests_post _ _ _ _); repeat grows_step.
Qed.

Lemma grows_fix_loop E fuel : ∀ v, grows (Agent.fix_loop E fuel v).
Proof.
  induction fuel as [|fuel IH]; intros v; simpl.
  - destruct (_ && _); apply grows_ret.
  - destruct (_ && _); [|apply grows_ret].
    apply grows_bind; [apply grows_emit|intros _].
    apply grows_bind; [apply grows_chat|intros [ok resp]].
    destruct ok; [|repeat grows_step].
    destruct (truthy _); [|repeat grows_step].
    apply grows_bind; [apply grows_emit|intros _].
    apply grows_bind; [apply grows_emit|intros _].
    apply grows_bind; [apply grows_execute_and_show|intros r].
    apply IH.
Qed.

(** ** The repair loop after a cancelled attempt (claim C4) *)

(** C4, counterexample. The user declines the prompt of the generated code.
    The session does not stop there: the loop sends three repair prompts
    built from "Cancelled by user" and executes three more times. *)
Lemma cancel_does_not_stop_repair :
  let run := Agent.main (failing_world "name = input()") "qwen3-coder-v4"
               [Agent.Request "greet me"] demo_state in
  quiet_after_cancel (log run.2) = false ∧
  generations (log run.2)
    = ["greet me";
       Agent.fix_prompt "Cancelled by user" "name = input()";
       Agent.fix_prompt "Cancelled by user" "name = input()";
       Agent.fix_prompt "Cancelled by user" "name = input()"] ∧
  executions (log run.2)
    = replicate 4 ("name = input()", result false "" "Cancelled by user" 0).
Proof. repeat split; vm_compute; reflexivity. Qed.

Lemma grows_with_nil {A} (m : M A) : grows m → grows_with [] m.
Proof. intros H st. destruct (H st) as (more & Heq). now exists more. Qed.

Lemma grows_with_emit {A} ev pre (f : unit → M A) :
  grows_with pre (f ()) → grows_with (ev :: pre) (emit ev ≫= f).
Proof.
  intros H st. unfold mbind, M_bind, emit.
  destruct (H (mkState (self st) (fs st) (tick st) (log st ++ [ev]))) as (more & Heq).
  exists more. rewrite Heq. simpl. now rewrite <- app_assoc.
Qed.

Lemma grows_with_bind {A B} pre (m : M A) (f : A → M B) :
  grows_with pre m → (∀ a, grows (f a)) → grows_with pre (m ≫= f).
Proof.
  intros Hm Hf st. unfold mbind, M_bind.
  destruct (Hm st) as (m1 & H1). destruct (m st) as [[a|e] st1]; simpl in *.
  - destruct (Hf a st1) as (m2 & H2). exists (m1 ++ m2).
    now rewrite H2, H1, <- !app_assoc.
  - eauto.
Qed.

(** C4, as the code has it. In the repair loop a cancelled execution is a
    failed execution like any other. While the attempt counter is below
    [max_fix_attempts] the loop announces the next attempt and calls the
    generator with a repair prompt built from "Cancelled by user" and the
    code; the loop ends without a repair only when the counter has reached
    [max_fix_attempts]. *)
Theorem cancelled_attempt_is_repaired E fuel v st :
  Agent.res v = result false "" "Cancelled by user" 0 →
  (Agent.fix_attempt v < Agent.max_fix_attempts (Agent.locals v) →
   ∃ more,
     log (Agent.fix_loop E (S fuel) v st).2
     = log st
       ++ [EvOut (OutAutoFixing (S (Agent.fix_attempt v))
                    (Agent.max_fix_attempts (Agent.locals v)));
           EvChat (Agent.fix_prompt "Cancelled by user" (Agent.code v))
             (Agent.conversation (Agent.locals v))]
       ++ more) ∧
  (Agent.max_fix_attempts (Agent.locals v) ≤ Agent.fix_attempt v →
   Agent.fix_loop E fuel v st = (Ok v, st)).
Proof.
  intros Hres. split; intros Hlt.
  - revert st. change (grows_with
      [EvOut (OutAutoFixing (S (Agent.fix_attempt v))
                (Agent.max_fix_attempts (Agent.locals v)));
       EvChat (Agent.fix_prompt "Cancelled by user" (Agent.code v))
         (Agent.conversation (Agent.locals v))]
      (Agent.fix_loop E (S fuel) v)).
    simpl. rewrite Hres. simpl. rewrite bool_decide_eq_true_2 by exact Hlt.
    apply grows_with_emit. apply grows_with_bind.
    + unfold Agent.chat. apply grows_with_emit. apply grows_with_nil.
      repeat grows_step. destruct (requests_post _ _ _ _); repeat grows_step.
    + intros [ok resp]. destruct ok; [|repeat grows_step].
      destruct (truthy _); [|repeat grows_step].
      apply grows_bind; [apply grows_emit|intros _].
      apply grows_bind; [apply grows_emit|intros _].
      apply grows_bind; [apply grows_execute_and_show|intros r].
      apply grows_fix_loop.
  - destruct fuel; simpl; rewrite bool_decide_eq_false_2 by lia;
      rewrite andb_false_r; reflexivity.
Qed.

Lemma cancelled_attempt_is_repaired_witness :
  Agent.res cancelled_attempt = result false "" "Cancelled by user" 0 ∧
  Agent.fix_attempt cancelled_attempt
    < Agent.max_fix_attempts (Agent.locals cancelled_attempt) ∧
  ∃ more,
    log (Agent.fix_loop (failing_world "name = input()") 3 cancelled_attempt
           (after_failed_run decline)).2
    = log (after_failed_run decline)
      ++ [EvOut (OutAutoFixing 1 3);
          EvChat (Agent.fix_prompt "Cancelled by user" "name = input()")
            [mkMsg User "greet me"; mkMsg Assistant "name = input()"]]
      ++ more.
Proof.
  split; [reflexivity|]. split; [simpl; lia|].
  apply (cancelled_attempt_is_repaired (failing_world "name = input()") 2
           cancelled_attempt (after_failed_run decline) eq_refl).
  simpl. lia.
Defined.

(** ** The repair loop when every attempt fails (claim C5) *)

Lemma fs_write_writable path content fs :
  writable path fs = true →
  fs_write path content fs
  = inr (mkFS (dirs fs) (<[path := content]> (files fs)) (readonly fs)).
Proof.
  unfold writable, fs_write. intros H.
  repeat (apply andb_true_iff in H as [H ?]).
  repeat match goal with H : negb _ = true |- _ => apply negb_true_iff in H end.
  repeat match goal with H : _ = _ |- _ => rewrite H end. reflexivity.
Qed.

Lemma writable_after_write path content fs :
  writable path fs = true →
  writable path (mkFS (dirs fs) (<[path := content]> (files fs)) (readonly fs)) = true.
Proof.
  unfold writable, dir_exists. simpl. intros H.
  repeat (apply andb_true_iff in H as [H ?]).
  repeat (apply andb_true_iff; split); try assumption.
  rewrite lookup_insert_eq. simpl.
  match goal with H : negb (_ || _) = true |- _ =>
    apply negb_true_iff, orb_false_iff in H as [-> _] end.
  reflexivity.
Qed.

Lemma ask_all_answers cb inputs :
  (∀ n prompt, cb n prompt ≠ None) →
  ∀ values st,
    ∃ vs asks,
      Forall (λ ev, is_ask ev = true) asks ∧
      ask_all cb inputs values st =
        (Ok (Some vs), mkState (self st) (fs st) (tick st + length asks) (log st ++ asks)).
Proof.
  intros Hcb. induction inputs as [|[full prompt] inputs IH]; intros values st.
  - exists values, []. split; [constructor|].
    simpl. unfold mret, M_ret. rewrite Nat.add_0_r, app_nil_r. now destruct st.
  - simpl. unfold call_callback. run_monad.
    destruct (cb (tick st) prompt) as [v|] eqn:Hv; [|now apply Hcb in Hv].
    destruct (IH (values ++ [v])
                (mkState (self st) (fs st) (S (tick st))
                   (log st ++ [EvAsk prompt (Some v)]))) as (vs & asks & Hall & Heq).
    exists vs, (EvAsk prompt (Some v) :: asks). split.
    { constructor; [reflexivity|exact Hall]. }
    rewrite Heq. simpl. rewrite <- app_assoc. simpl.
    do 2 f_equal. f_equal. lia.
Qed.

Lemma asks_are_io asks :
  Forall (λ ev, is_ask ev = true) asks → Forall (λ ev, is_io ev = true) asks.
Proof. intros H. eapply Forall_impl; [exact H|]. now intros []. Qed.

Lemma io_is_silent io :
  Forall (λ ev, is_io ev = true) io → executions io = [] ∧ generations io = [].
Proof.
  induction 1 as [|ev io Hev _ [IH1 IH2]]; [easy|].
  destruct ev; try discriminate; simpl; auto.
Qed.

Section AlwaysFailing.

Variable E : Env.
Variable path : string.
Variable cbo : option Callback.
Hypothesis Hgen : always_generates_code E.
Hypothesis Hrun : always_exits_nonzero E path.
Hypothesis Hcb : never_declines cbo.

(** One execution: it returns, with the flag false, the invariant kept,
    and the stderr of the result retained in [last_error]. *)
Lemma execute_exits_nonzero code st :
  steady path cbo st →
  ∃ r st' io,
    execute E code None st = (Ok r, st') ∧
    success r = false ∧
    steady path cbo st' ∧
    log st' = log st ++ io ∧
    Forall (λ ev, is_io ev = true) io ∧
    last_error (self st') = Some (stderr r).
Proof.
  intros (Hpath & Hcbo & Hw).
  (* input resolution never cancels *)
  assert (Hres : ∃ code' asks,
    Forall (λ ev, is_ask ev = true) asks ∧
    resolve_inputs code None
      (mkState (set_last_code (Some code) (self st)) (fs st) (tick st) (log st))
    = (Ok (Some code'),
       mkState (set_last_code (Some code) (self st)) (fs st)
         (tick st + length asks) (log st ++ asks))).
  { unfold resolve_inputs. run_monad. rewrite Hcbo.
    assert (Hnone : ∀ c : string, ∃ code' asks,
      Forall (λ ev, is_ask ev = true) asks ∧
      (Ok (Some c), mkState (set_last_code (Some code) (self st)) (fs st)
                      (tick st) (log st))
      = (Ok (Some code') : Res (option string),
         mkState (set_last_code (Some code) (self st)) (fs st)
           (tick st + length asks) (log st ++ asks))).
    { intros c. exists c, []. split; [constructor|].
      simpl. now rewrite Nat.add_0_r, app_nil_r. }
    destruct (_detect_inputs code) as [|req reqs] eqn:Hd; [destruct cbo; apply Hnone|].
    destruct cbo as [cb|]; [|apply Hnone].
    destruct (ask_all_answers cb (req :: reqs) (Hcb cb eq_refl) []
                (mkState (set_last_code (Some code) (self st)) (fs st) (tick st)
                   (log st))) as (vs & asks & Hall & Heq).
    exists (replace_loop (req :: reqs) vs code), asks. split; [exact Hall|].
    unfold mbind, M_bind. rewrite Heq. unfold _replace_inputs. now rewrite Hd. }
  destruct Hres as (code' & asks & Hall & Hres).
  set (fs1 := mkFS (dirs (fs st)) (<[path := code']> (files (fs st))) (readonly (fs st))).
  destruct (Hrun (S (tick st + length asks))
              (mkSpawn [python_path (self st); path] (work_dir (self st)) None
                 (_safe_env E) (timeout (self st))) fs1)
    as (rc & out & err & fs' & Hrc & Hsp & Hw').
  { now apply writable_after_write. }
  eexists _, _, (asks ++ [EvWrite path code';
                          EvSpawn (mkSpawn [python_path (self st); path]
                                     (work_dir (self st)) None (_safe_env E)
                                     (timeout (self st)))
                            (Completed rc out err)]).
  split; [|split; [|split; [|split; [|split]]]].
  - unfold execute, prepare. unfold mbind at 1 2 3, M_bind at 1 2 3.
    unfold modify_self at 1. rewrite Hres.
    unfold open_write, lift_fs, run_code, read_clock, spawn. run_monad.
    unfold code_file in Hpath. rewrite Hpath.
    rewrite (fs_write_writable _ _ _ Hw). simpl. fold fs1. rewrite Hsp.
    simpl. rewrite <- !app_assoc. reflexivity.
  - simpl. now apply bool_decide_eq_false_2.
  - repeat split; simpl; assumption.
  - reflexivity.
  - apply Forall_app. split; [now apply asks_are_io|]. repeat constructor.
  - reflexivity.
Qed.

Lemma execute_and_show_fails code st :
  steady path cbo st →
  ∃ r st' new,
    Agent.execute_and_show E code st = (Ok r, st') ∧
    success r = false ∧
    steady path cbo st' ∧
    log st' = log st ++ new ∧
    executions new = [(code, r)] ∧
    generations new = [] ∧
    last_error (self st') = Some (stderr r) ∧
    In (EvOut (OutResult r)) new.
Proof.
  intros Hst.
  destruct (execute_exits_nonzero code st Hst)
    as (r & st1 & io & Hex & Hr & Hst1 & Hlog & Hio & Herr).
  destruct (io_is_silent io Hio) as [He Hg].
  exists r, (mkState (self st1) (fs st1) (tick st1)
               (log st1 ++ [EvExecute code r] ++ [EvOut (OutResult r)])),
    (io ++ [EvExecute code r; EvOut (OutResult r)]).
  split; [|split; [exact Hr|split; [exact Hst1|split; [|split; [|split; [|split]]]]]].
  - unfold Agent.execute_and_show. rewrite (bind_ok _ _ _ _ _ Hex).
    run_monad. now rewrite <- app_assoc.
  - simpl. now rewrite Hlog, <- app_assoc.
  - unfold executions in *. now rewrite omap_app, He.
  - unfold generations in *. now rewrite omap_app, Hg.
  - exact Herr.
  - apply in_app_iff. right. simpl. auto.
Qed.

Lemma chat_generates prompt model conv st :
  ∃ resp msgs,
    truthy (Agent.extract_code resp) = true ∧
    Agent.chat E prompt model conv st
    = (Ok (true, resp),
       mkState (self st) (fs st) (S (tick st))
         (log st ++ [EvChat prompt conv; EvPost model msgs])).
Proof.
  unfold Agent.chat. run_monad.
  match goal with |- context [requests_post E ?n ?m ?msgs] =>
    destruct (Hgen n m msgs) as (resp & Hr & Ht); exists resp, msgs; rewrite Hr end.
  split; [exact Ht|]. simpl. now rewrite <- app_assoc.
Qed.

(** The loop from any point on: it uses up the attempts that are left. *)
Lemma fix_loop_exhausts fuel :
  ∀ v st,
    steady path cbo st →
    success (Agent.res v) = false →
    Agent.fix_attempt v + fuel = Agent.max_fix_attempts (Agent.locals v) →
    last_error (self st) = Some (stderr (Agent.res v)) →
    ∃ v' st' new,
      Agent.fix_loop E fuel v st = (Ok v', st') ∧
      log st' = log st ++ new ∧
      length (executions new) = fuel ∧
      length (generations new) = fuel ∧
      last ((Agent.code v, Agent.res v) :: executions new)
        = Some (Agent.code v', Agent.res v') ∧
      success (Agent.res v') = false ∧
      Agent.fix_attempt v' = Agent.max_fix_attempts (Agent.locals v) ∧
      Agent.max_fix_attempts (Agent.locals v')
        = Agent.max_fix_attempts (Agent.locals v) ∧
      last_error (self st') = Some (stderr (Agent.res v')) ∧
      (fuel = 0 ∨ In (EvOut (OutResult (Agent.res v'))) new) ∧
      length (Agent.conversation (Agent.locals v'))
        = length (Agent.conversation (Agent.locals v)) + 2 * fuel.
Proof.
  induction fuel as [|fuel IH]; intros v st Hst Hs Hn Herr.
  - exists v, st, []. simpl. rewrite Hs, app_nil_r.
    rewrite bool_decide_eq_false_2 by lia. simpl.
    repeat split; auto. lia.
  - simpl Agent.fix_loop. rewrite Hs. rewrite bool_decide_eq_true_2 by lia.
    cbn [negb andb].
    destruct (chat_generates
                (Agent.fix_prompt (stderr (Agent.res v)) (Agent.code v))
                (Agent.model (Agent.locals v)) (Agent.conversation (Agent.locals v))
                (mkState (self st) (fs st) (tick st)
                   (log st ++ [EvOut (OutAutoFixing (S (Agent.fix_attempt v))
                                        (Agent.max_fix_attempts (Agent.locals v)))])))
      as (resp & msgs & Ht & Hchat).
    unfold mbind at 1, M_bind at 1. unfold emit at 1.
    rewrite (bind_ok _ _ _ _ _ Hchat). rewrite Ht.
    destruct (Agent.extract_code resp) as [fix_code|] eqn:Hx; [|discriminate].
    cbn [default from_option id].
    unfold mbind at 1 2, M_bind at 1 2. unfold emit at 1 2.
    cbn [self fs tick log].
    match goal with |- context [mbind _ (Agent.execute_and_show E fix_code) ?s] =>
      destruct (execute_and_show_fails fix_code s)
        as (r & st1 & new1 & Hex & Hr & Hst1 & Hlog1 & He1 & Hg1 & Herr1 & Hin1);
      [exact Hst|rewrite (bind_ok _ _ _ _ _ Hex)] end.
    match goal with |- context [Agent.fix_loop E fuel ?v1 st1] =>
      destruct (IH v1 st1 Hst1 Hr) as
        (v' & st' & new & Hloop & Hlog & He & Hg & Hlast & Hs' & Hfa & Hmax & Herr' & Hin
         & Hconv);
      [simpl; lia|exact Herr1|] end.
    exists v', st',
      ([EvOut (OutAutoFixing (S (Agent.fix_attempt v))
                 (Agent.max_fix_attempts (Agent.locals v)));
        EvChat (Agent.fix_prompt (stderr (Agent.res v)) (Agent.code v))
          (Agent.conversation (Agent.locals v));
        EvPost (Agent.model (Agent.locals v)) msgs;
        EvOut (OutCode "Fixed code:" fix_code);
        EvOut OutReExecuting] ++ new1 ++ new).
    split; [exact Hloop|].
    split.
    { rewrite Hlog, Hlog1. simpl. rewrite <- !app_assoc. reflexivity. }
    assert (Hex' : executions (new1 ++ new) = (fix_code, r) :: executions new).
    { unfold executions in *. now rewrite omap_app, He1. }
    assert (Hg' : generations (new1 ++ new) = generations new).
    { unfold generations in *. now rewrite omap_app, Hg1. }
    change (executions (_ ++ new1 ++ new)) with (executions (new1 ++ new)).
    change (generations (_ ++ new1 ++ new))
      with (Agent.fix_prompt (stderr (Agent.res v)) (Agent.code v)
            :: generations (new1 ++ new)).
    rewrite Hex', Hg'. simpl length. simpl in Hmax, Hfa, Hlast, Hconv.
    rewrite length_app in Hconv. simpl in Hconv.
    repeat split; auto; try lia.
    right. apply in_app_iff. right. apply in_app_iff.
    destruct Hin as [->|Hin]; [|now right].
    left. apply nil_length_inv in He. rewrite He in Hlast.
    simpl in Hlast. injection Hlast as _ <-. exact Hin1.
Qed.

End AlwaysFailing.

(** One request in such a world, with everything the two claims about it
    need: the counts, the last result, and the size of the conversation that
    is retained. *)
Lemma handle_request_always_failing E user_input ag st :
  Agent.auto_execute ag = true →
  always_generates_code E →
  always_exits_nonzero E (code_file (self st)) →
  never_declines (input_callback (self st)) →
  writable (code_file (self st)) (fs st) = true →
  ∃ ag' st' new repairs code r,
    Agent.handle_request E user_input ag st = (Ok ag', st') ∧
    log st' = log st ++ new ∧
    generations new = user_input :: repairs ∧
    length repairs = Agent.max_fix_attempts ag ∧
    length (executions new) = Agent.max_fix_attempts ag + 1 ∧
    last new = Some (EvOut OutMaxReached) ∧
    last (executions new) = Some (code, r) ∧
    success r = false ∧
    In (EvOut (OutResult r)) new ∧
    last_error (self st') = Some (stderr r) ∧
    length (Agent.conversation ag')
      = Nat.min 20 (length (Agent.conversation ag) + 2)
        + 2 * Agent.max_fix_attempts ag.
Proof.
  intros Hauto Hgen Hrun Hcb Hw.
  remember (Nat.min 20 (length (Agent.conversation ag) + 2)) as bound eqn:Hbound.
  set (path := code_file (self st)) in *.
  set (cbo := input_callback (self st)) in *.
  assert (Hst : steady path cbo st) by (repeat split; auto).
  unfold Agent.handle_request.
  destruct (chat_generates E Hgen user_input (Agent.model ag) (Agent.conversation ag) st)
    as (resp & msgs & Ht & Hchat).
  rewrite (bind_ok _ _ _ _ _ Hchat). cbn [negb]. rewrite Ht.
  destruct (Agent.extract_code resp) as [code0|] eqn:Hx; [|discriminate].
  cbn [default from_option id Agent.auto_execute Agent.with_code].
  rewrite Hauto.
  unfold mbind at 1 2, M_bind at 1 2. unfold emit at 1 2. cbn [self fs tick log].
  match goal with |- context [mbind _ (Agent.execute_and_show E code0) ?s] =>
    destruct (execute_and_show_fails E path cbo Hrun Hcb code0 s)
      as (r0 & st1 & new1 & Hex & Hr0 & Hst1 & Hlog1 & He1 & Hg1 & Herr1 & Hin1);
    [exact Hst|rewrite (bind_ok _ _ _ _ _ Hex)] end.
  match goal with |- context [mbind _ (Agent.fix_loop E ?n ?v1) st1] =>
    destruct (fix_loop_exhausts E path cbo Hgen Hrun Hcb n v1 st1 Hst1 Hr0)
      as (v' & st' & new & Hloop & Hlog & He & Hg & Hlast & Hs' & Hfa & Hmax & Herr' & Hin
          & Hconv);
    [reflexivity|exact Herr1|rewrite (bind_ok _ _ _ _ _ Hloop)] end.
  rewrite Hs', Hmax, Hfa. rewrite bool_decide_eq_true_2 by lia. cbn [negb andb].
  unfold Agent.with_code in *.
  cbn [Agent.locals Agent.max_fix_attempts Agent.res Agent.code Agent.fix_attempt
       Agent.conversation] in Hlast, Hfa, Hmax, He, Hg, Hconv.
  run_monad.
  exists (Agent.locals v'),
    (mkState (self st') (fs st') (tick st') (log st' ++ [EvOut OutMaxReached])),
    ([EvChat user_input (Agent.conversation ag); EvPost (Agent.model ag) msgs;
      EvOut (OutCode "Here's the code:" code0); EvOut OutExecuting]
     ++ new1 ++ new ++ [EvOut OutMaxReached]),
    (generations new), (Agent.code v'), (Agent.res v').
  assert (Hex' : executions (new1 ++ new ++ [EvOut OutMaxReached])
                 = (code0, r0) :: executions new).
  { unfold executions in *. rewrite !omap_app, He1. simpl. now rewrite app_nil_r. }
  assert (Hg' : generations (new1 ++ new ++ [EvOut OutMaxReached]) = generations new).
  { unfold generations in *. rewrite !omap_app, Hg1. simpl. now rewrite app_nil_r. }
  change (executions (_ ++ new1 ++ new ++ [EvOut OutMaxReached]))
    with (executions (new1 ++ new ++ [EvOut OutMaxReached])).
  change (generations (_ ++ new1 ++ new ++ [EvOut OutMaxReached]))
    with (user_input :: generations (new1 ++ new ++ [EvOut OutMaxReached])).
  rewrite Hex', Hg'.
  split; [reflexivity|]. split.
  { simpl. rewrite Hlog, Hlog1. simpl. rewrite <- !app_assoc. reflexivity. }
  split; [reflexivity|]. split; [exact Hg|].
  split; [simpl; lia|]. split.
  { rewrite !app_assoc. apply last_snoc. }
  split; [exact Hlast|]. split; [exact Hs'|]. split; [|split; [exact Herr'|]].
  - apply in_app_iff. right. apply in_app_iff.
    destruct Hin as [H0|Hin]; [|right; apply in_app_iff; now left].
    left. cbn in H0. rewrite H0 in He. apply nil_length_inv in He. rewrite He in Hlast.
    simpl in Hlast. injection Hlast as _ <-. exact Hin1.
  - rewrite Hconv. f_equal. subst bound. unfold Agent.last_n.
    case_bool_decide as Hlen; rewrite length_app in Hlen;
      rewrite ?length_drop, !length_app; cbn [length] in *; lia.
Qed.

(** C5. A request in a world where the generator always answers with
    extractable code and every execution exits with a nonzero code: the
    request is handled to the end; the generator is called for the request
    and then for exactly [max_fix_attempts] repairs; the code is executed
    [max_fix_attempts + 1] times, which is the length of the history; the
    last thing shown is the notice that the attempts are used up; and the
    stderr of the last result is both shown and retained in [last_error]. *)
Theorem repair_loop_exhausts_budget E user_input ag st :
  Agent.auto_execute ag = true →
  always_generates_code E →
  always_exits_nonzero E (code_file (self st)) →
  never_declines (input_callback (self st)) →
  writable (code_file (self st)) (fs st) = true →
  ∃ ag' st' new repairs code r,
    Agent.handle_request E user_input ag st = (Ok ag', st') ∧
    log st' = log st ++ new ∧
    generations new = user_input :: repairs ∧
    length repairs = Agent.max_fix_attempts ag ∧
    length (executions new) = Agent.max_fix_attempts ag + 1 ∧
    last new = Some (EvOut OutMaxReached) ∧
    last (executions new) = Some (code, r) ∧
    success r = false ∧
    In (EvOut (OutResult r)) new ∧
    last_error (self st') = Some (stderr r).
Proof.
  intros Hauto Hgen Hrun Hcb Hw.
  destruct (handle_request_always_failing E user_input ag st Hauto Hgen Hrun Hcb Hw)
    as (ag' & st' & new & repairs & code & r & H).
  exists ag', st', new, repairs, code, r. tauto.
Qed.

Lemma repair_loop_exhausts_budget_witness :
  Agent.auto_execute fresh_locals = true ∧
  always_generates_code (failing_world "print(1/0)") ∧
  always_exits_nonzero (failing_world "print(1/0)") (code_file (self demo_state)) ∧
  never_declines (input_callback (self demo_state)) ∧
  writable (code_file (self demo_state)) (fs demo_state) = true ∧
  ∃ ag' st' new repairs code r,
    Agent.handle_request (failing_world "print(1/0)") "divide" fresh_locals demo_state
      = (Ok ag', st') ∧
    log st' = log demo_state ++ new ∧
    generations new = "divide" :: repairs ∧
    length repairs = 3 ∧
    length (executions new) = 3 + 1 ∧
    last new = Some (EvOut OutMaxReached) ∧
    last (executions new) = Some (code, r) ∧
    success r = false ∧
    In (EvOut (OutResult r)) new ∧
    last_error (self st') = Some (stderr r).
Proof.
  assert (H2 : always_generates_code (failing_world "print(1/0)")).
  { intros n model msgs. exists "print(1/0)". split; [reflexivity|].
    vm_compute. reflexivity. }
  assert (H3 : always_exits_nonzero (failing_world "print(1/0)")
                 (code_file (self demo_state))).
  { intros n req fs Hw. exists 1%Z, "", "ZeroDivisionError: division by zero", fs.
    split; [discriminate|]. split; [reflexivity|exact Hw]. }
  assert (H4 : never_declines (input_callback (self demo_state))).
  { intros cb Hcb. discriminate. }
  assert (H5 : writable (code_file (self demo_state)) (fs demo_state) = true).
  { vm_compute. reflexivity. }
  split; [reflexivity|]. split; [exact H2|]. split; [exact H3|].
  split; [exact H4|]. split; [exact H5|].
  exact (repair_loop_exhausts_budget (failing_world "print(1/0)") "divide"
           fresh_locals demo_state eq_refl H2 H3 H4 H5).
Defined.

(** ** The repair loop appends without trimming (claim C8) *)

(** In a world where every attempt fails, a request leaves
    [2 * max_fix_attempts] messages more than the bound that the append of
    the request itself enforces: the appends of the repairs are never
    trimmed. *)
Lemma repairs_are_not_trimmed E user_input ag st :
  Agent.auto_execute ag = true →
  always_generates_code E →
  always_exits_nonzero E (code_file (self st)) →
  never_declines (input_callback (self st)) →
  writable (code_file (self st)) (fs st) = true →
  ∃ ag' st',
    Agent.handle_request E user_input ag st = (Ok ag', st') ∧
    length (Agent.conversation ag')
      = Nat.min 20 (length (Agent.conversation ag) + 2)
        + 2 * Agent.max_fix_attempts ag.
Proof.
  intros Hauto Hgen Hrun Hcb Hw.
  destruct (handle_request_always_failing E user_input ag st Hauto Hgen Hrun Hcb Hw)
    as (ag' & st' & new & repairs & code & r & H).
  exists ag', st'. tauto.
Qed.

(** C8. Evaluation at the failing input: three requests whose code keeps
    failing, with the default three repair attempts each. The generator is
    called with a conversation of 22 messages, and 24 are retained at the
    end of the third request. *)
Theorem repair_appends_exceed_bound :
  let run := Agent.main (failing_world "print(1/0)") "qwen3-coder-v4"
               [Agent.Request "a"; Agent.Request "b"; Agent.Request "c"] demo_state in
  chat_sizes (log run.2) = [0; 2; 4; 6; 8; 10; 12; 14; 16; 18; 20; 22] ∧
  match run.1 with
  | Ok ag => length (Agent.conversation ag) = 24
  | Raise _ => False
  end.
Proof. split; vm_compute; reflexivity. Qed.

(** * Further properties of the code *)

(** ** The matcher only reports text the pattern derives *)

Lemma app_assoc_str a b c : (a +:+ b) +:+ c = a +:+ b +:+ c.
Proof. induction a as [|x a IH]; [reflexivity|]. rewrite !app_cons. now rewrite IH. Qed.

Lemma strip_prefix_spec l : ∀ s s', strip_prefix l s = Some s' → s = l +:+ s'.
Proof.
  induction l as [|a l IH]; intros s s' H; simpl in H.
  - now injection H as ->.
  - destruct s as [|b s]; [discriminate|].
    case_bool_decide; [|discriminate]. subst b.
    rewrite app_cons. f_equal. now apply IH.
Qed.

Lemma strip_prefix_app l : ∀ s, strip_prefix l (l +:+ s) = Some s.
Proof.
  induction l as [|a l IH]; intros s; [reflexivity|].
  rewrite app_cons. simpl. rewrite bool_decide_eq_true_2 by reflexivity. apply IH.
Qed.

Lemma star_greedy_sound p s :
  ∀ pos k o,
    star_greedy p pos s k = Some o →
    ∃ used s', s = used +:+ s' ∧ all_chars p used = true
               ∧ k (pos + String.length used) s' = Some o.
Proof.
  induction s as [|c s IH]; intros pos k o H.
  - exists "", "". simpl in *. now rewrite Nat.add_0_r.
  - rewrite star_greedy_cons in H.
    assert (Hstop : k pos (String c s) = Some o →
      ∃ used s', String c s = used +:+ s' ∧ all_chars p used = true
                 ∧ k (pos + String.length used) s' = Some o).
    { intros Hk. exists "", (String c s). simpl. now rewrite Nat.add_0_r. }
    destruct (p c) eqn:Hc; [|auto].
    destruct (star_greedy p (S pos) s k) as [o'|] eqn:Hrec; [|auto].
    injection H as ->. destruct (IH _ _ _ Hrec) as (used & s' & -> & Hall & Hk).
    exists (String c used), s'. rewrite app_cons. simpl.
    rewrite Hc, Hall, Nat.add_succ_r. auto.
Qed.

Lemma star_lazy_sound p s :
  ∀ pos k o,
    star_lazy p pos s k = Some o →
    ∃ used s', s = used +:+ s' ∧ all_chars p used = true
               ∧ k (pos + String.length used) s' = Some o.
Proof.
  induction s as [|c s IH]; intros pos k o H; simpl in H.
  - destruct (k pos "") eqn:Hk; [|discriminate]. injection H as ->.
    exists "", "". simpl. now rewrite Nat.add_0_r.
  - destruct (k pos (String c s)) eqn:Hk.
    { injection H as ->. exists "", (String c s). simpl. now rewrite Nat.add_0_r. }
    destruct (p c) eqn:Hc; [|discriminate].
    destruct (IH _ _ _ H) as (used & s' & -> & Hall & Hk').
    exists (String c used), s'. rewrite app_cons. simpl.
    rewrite Hc, Hall, Nat.add_succ_r. auto.
Qed.

(** Whatever the continuation, a successful run has consumed a text the
    pattern derives and handed the rest to the continuation. *)
Lemma run_sound r :
  ∀ pos s cap k o,
    run r pos s cap k = Some o →
    ∃ used s' cap',
      s = used +:+ s' ∧ derives r pos used cap cap'
      ∧ k (pos + String.length used) s' cap' = Some o.
Proof.
  induction r as [l|p|p|p|r IH|r1 IH1 r2 IH2|r IH| |]; intros pos s cap k o H; simpl in H.
  - destruct (strip_prefix l s) as [s'|] eqn:Hs; [|discriminate].
    exists l, s', cap. apply strip_prefix_spec in Hs. simpl. auto.
  - destruct s as [|c s]; [discriminate|]. destruct (p c) eqn:Hc; [|discriminate].
    exists (str c), s, cap. simpl. rewrite Nat.add_1_r. eauto 6.
  - apply star_greedy_sound in H as (used & s' & -> & Hall & Hk).
    exists used, s', cap. simpl. auto.
  - apply star_lazy_sound in H as (used & s' & -> & Hall & Hk).
    exists used, s', cap. simpl. auto.
  - destruct (run r pos s cap k) as [o'|] eqn:Hr.
    + injection H as ->. destruct (IH _ _ _ _ _ Hr) as (used & s' & cap' & -> & Hd & Hk).
      exists used, s', cap'. simpl. auto.
    + exists "", s, cap. simpl. rewrite Nat.add_0_r. auto.
  - destruct (IH1 _ _ _ _ _ H) as (u1 & s1 & cap1 & -> & Hd1 & H1).
    destruct (IH2 _ _ _ _ _ H1) as (u2 & s2 & cap2 & -> & Hd2 & H2).
    exists (u1 +:+ u2), s2, cap2. rewrite app_assoc_str, length_app_str, Nat.add_assoc.
    simpl. eauto 10.
  - destruct (IH _ _ _ _ _ H) as (used & s' & cap' & -> & Hd & Hk).
    exists used, s', (Some (pos, pos + String.length used)). simpl. eauto.
  - destruct pos; [|discriminate]. exists "", s, cap. simpl. auto.
  - exists "", s, cap. simpl. rewrite Nat.add_0_r.
    destruct s as [|c [|c' s]]; try discriminate; auto.
    destruct (is_char LF c); [auto|discriminate].
Qed.

(** A match reported by the scan splits the text: what precedes it, the
    text the pattern derives, and what follows. *)
Lemma scan_splits r s :
  ∀ pos skip m,
    m ∈ scan r pos skip s →
    ∃ pre used post,
      s = pre +:+ used +:+ post
      ∧ m_start m = pos + String.length pre
      ∧ m_end m = m_start m + String.length used
      ∧ derives r (m_start m) used None (m_span1 m).
Proof.
  assert (Hhere : ∀ pos s e cap,
    match_here r pos s = Some (e, cap) →
    ∃ used post, s = used +:+ post ∧ e = pos + String.length used
                 ∧ derives r pos used None cap).
  { intros pos s0 e cap H. unfold match_here in H.
    apply run_sound in H as (used & s' & cap' & -> & Hd & Hk).
    unfold accept in Hk. injection Hk as <- <-. eauto. }
  induction s as [|c s IH]; intros pos skip m Hin; simpl in Hin.
  - destruct skip; [|inversion Hin].
    destruct (match_here r pos "") as [[e cap]|] eqn:Hm; [|inversion Hin].
    apply list_elem_of_singleton in Hin as ->.
    destruct (Hhere _ _ _ _ Hm) as (used & post & Hs & He & Hd).
    exists "", used, post. simpl. rewrite Nat.add_0_r. auto.
  - assert (Htail : ∀ skip', m ∈ scan r (S pos) skip' s →
      ∃ pre used post,
        String c s = pre +:+ used +:+ post
        ∧ m_start m = pos + String.length pre
        ∧ m_end m = m_start m + String.length used
        ∧ derives r (m_start m) used None (m_span1 m)).
    { intros skip' H. destruct (IH _ _ _ H) as (pre & used & post & -> & Hs & He & Hd).
      exists (String c pre), used, post. rewrite app_cons. simpl.
      rewrite Nat.add_succ_r. auto. }
    destruct skip as [|n]; [|eauto].
    destruct (match_here r pos (String c s)) as [[e cap]|] eqn:Hm; [|eauto].
    apply elem_of_cons in Hin as [->|Hin]; [|eauto].
    destruct (Hhere _ _ _ _ Hm) as (used & post & Hs & He & Hd).
    exists "", used, post. simpl. rewrite Nat.add_0_r. auto.
Qed.

Lemma scan_ordered r s :
  ∀ pos skip, ordered_from (pos + skip) (scan r pos skip s).
Proof.
  induction s as [|c s IH]; intros pos skip; simpl.
  - destruct skip; [|exact I].
    destruct (match_here r pos "") as [[e cap]|]; simpl; [|exact I].
    split; [lia|exact I].
  - destruct skip as [|n].
    + destruct (match_here r pos (String c s)) as [[e cap]|]; simpl.
      * split; [lia|].
        replace (Nat.max e (S pos)) with (S pos + (e - pos - 1)) by lia. apply IH.
      * rewrite Nat.add_0_r. replace pos with (pos + 0) at 1 by lia.
        specialize (IH (S pos) 0). rewrite Nat.add_0_r in IH.
        destruct (scan r (S pos) 0 s) as [|m ms]; [exact I|].
        simpl in *. split; [lia|tauto].
    + replace (pos + S n) with (S pos + n) by lia. apply IH.
Qed.

(** ** [_detect_inputs]: what a request looks like *)

Lemma take_str_app b c : take_str (String.length b) (b +:+ c) = b.
Proof. induction b as [|x b IH]; [now destruct c|]. rewrite app_cons. simpl. now rewrite IH. Qed.

Lemma slice_mid a b c :
  slice (String.length a) (String.length a + String.length b) (a +:+ b +:+ c) = b.
Proof.
  unfold slice. rewrite drop_str_app.
  replace (String.length a + String.length b - String.length a)
    with (String.length b) by lia.
  apply take_str_app.
Qed.

Lemma detected_match_shape code m :
  m ∈ finditer input_pattern code →
  ∃ pre post ws1 ws2 ws3 lit,
    code = pre +:+ group0 code m +:+ post ∧
    m_start m = String.length pre ∧
    group0 code m = "input" +:+ ws1 +:+ "(" +:+ ws2 +:+ lit +:+ ws3 +:+ ")" ∧
    all_chars is_space ws1 = true ∧
    all_chars is_space ws2 = true ∧
    all_chars is_space ws3 = true ∧
    ((lit = "" ∧ group1 code m = None)
     ∨ ∃ body, literal_argument lit body ∧ group1 code m = Some body).
Proof.
  intros Hin. apply scan_splits in Hin as (pre & used & post & Hcode & Hs & He & Hd).
  simpl in Hs.
  assert (H0 : group0 code m = used).
  { unfold group0. rewrite He, Hs, Hcode. apply slice_mid. }
  exists pre, post. rewrite H0.
  unfold input_pattern in Hd. cbn [derives] in Hd.
  destruct Hd as (u1 & r1 & c1 & -> & [-> ->] & ws1 & r2 & c2 & -> & [Hws1 ->]
                  & lp & r3 & c3 & -> & [-> ->] & ws2 & r4 & c4 & -> & [Hws2 ->]
                  & lit & r5 & c5 & -> & Hopt & ws3 & rp & c6 & -> & [Hws3 ->]
                  & [-> Hcap]).
  exists ws1, ws2, ws3, lit.
  split; [exact Hcode|]. split; [exact Hs|]. split; [reflexivity|].
  split; [exact Hws1|]. split; [exact Hws2|]. split; [exact Hws3|].
  destruct Hopt as [Hg|[-> ->]].
  - right.
    destruct Hg as (f & g1 & cf & -> & Hf & q1s & g2 & cq & -> & [(q1 & -> & Hq1) ->]
                    & body & q2s & cb & -> & [(cx & Hbody & _) ->]
                    & [(q2 & -> & Hq2) ->]).
    exists body. split.
    { exists f, q1, q2. repeat split; auto.
      destruct Hf as [[-> _]|[-> _]]; auto. }
    unfold group1. rewrite Hcap.
    assert (Hf' : cf = None ∧ (f = "" ∨ f = "f")).
    { destruct Hf as [[-> ->]|[-> ->]]; auto. }
    clear Hf. destruct Hf' as [-> Hf].
    f_equal. rewrite Hcode.
    set (front := pre +:+ "input" +:+ ws1 +:+ "(" +:+ ws2 +:+ f +:+ str q1).
    assert (Hfront : m_start m + String.length "input" + String.length ws1
                     + String.length "(" + String.length ws2 + String.length f
                     + String.length (str q1) = String.length front).
    { unfold front. rewrite Hs, !length_app_str. simpl. lia. }
    rewrite Hfront.
    replace (pre +:+ (("input" +:+ ws1 +:+ "(" +:+ ws2
                       +:+ (f +:+ str q1 +:+ body +:+ str q2) +:+ ws3 +:+ ")") +:+ post))
      with (front +:+ body +:+ (str q2 +:+ ws3 +:+ ")" +:+ post)).
    { apply slice_mid. }
    unfold front. rewrite !app_assoc_str. reflexivity.
  - left. split; [reflexivity|]. unfold group1. now rewrite Hcap.
Qed.

(** X1. Every request the detector returns is cut out of the code, and its
    site text reads: [input], blanks, an opening parenthesis, blanks, then
    either nothing or a literal (an optional [f], a quote, a body without
    line break, a quote), blanks, a closing parenthesis. The label is the
    body of the literal, or the default when there is no literal or its
    body is empty. *)
Theorem detected_request_shape code i site label :
  _detect_inputs code !! i = Some (site, label) →
  ∃ pre post ws1 ws2 ws3 lit,
    code = pre +:+ site +:+ post ∧
    site = "input" +:+ ws1 +:+ "(" +:+ ws2 +:+ lit +:+ ws3 +:+ ")" ∧
    all_chars is_space ws1 = true ∧
    all_chars is_space ws2 = true ∧
    all_chars is_space ws3 = true ∧
    ((lit = "" ∧ label = "Enter value")
     ∨ ∃ body, literal_argument lit body ∧ label = label_of body).
Proof.
  intros Hreq. unfold _detect_inputs in Hreq. rewrite list_lookup_fmap in Hreq.
  destruct (finditer input_pattern code !! i) as [m|] eqn:Hm; [|discriminate].
  injection Hreq as <- <-.
  assert (Hin : m ∈ finditer input_pattern code) by (apply list_elem_of_lookup; eauto).
  destruct (detected_match_shape code m Hin)
    as (pre & post & ws1 & ws2 & ws3 & lit & Hcode & _ & Hsite & H1 & H2 & H3 & Hlit).
  exists pre, post, ws1, ws2, ws3, lit. repeat (split; [assumption|]).
  destruct Hlit as [[-> ->]|(body & Hbody & ->)]; [now left|].
  right. exists body. split; [exact Hbody|]. now destruct body.
Qed.

Lemma detected_request_shape_witness :
  _detect_inputs ask_name !! 0 = Some ("input(" +:+ str DQ +:+ "Name: " +:+ str DQ +:+ ")",
                                       "Name: ") ∧
  ∃ pre post ws1 ws2 ws3 lit,
    ask_name = pre +:+ ("input(" +:+ str DQ +:+ "Name: " +:+ str DQ +:+ ")") +:+ post ∧
    "input(" +:+ str DQ +:+ "Name: " +:+ str DQ +:+ ")"
      = "input" +:+ ws1 +:+ "(" +:+ ws2 +:+ lit +:+ ws3 +:+ ")" ∧
    all_chars is_space ws1 = true ∧
    all_chars is_space ws2 = true ∧
    all_chars is_space ws3 = true ∧
    ((lit = "" ∧ "Name: " = "Enter value")
     ∨ ∃ body, literal_argument lit body ∧ "Name: " = label_of body).
Proof.
  assert (H : _detect_inputs ask_name !! 0
              = Some ("input(" +:+ str DQ +:+ "Name: " +:+ str DQ +:+ ")", "Name: "))
    by (vm_compute; reflexivity).
  split; [exact H|].
  exact (detected_request_shape ask_name 0 _ _ H).
Defined.

(** ** [_detect_inputs]: order of the requests *)

Lemma ordered_from_weaken ms : ∀ p q, q ≤ p → ordered_from p ms → ordered_from q ms.
Proof. destruct ms as [|m ms]; intros p q Hq H; [exact I|]. simpl in *. split; [lia|tauto]. Qed.

Lemma ordered_from_bound ms :
  ∀ p j mj, ordered_from p ms → ms !! j = Some mj → p ≤ m_start mj.
Proof.
  induction ms as [|m ms IH]; intros p j mj H Hj; [discriminate|].
  destruct H as [Hp H]. destruct j as [|j].
  - injection Hj as <-. exact Hp.
  - simpl in Hj. specialize (IH _ _ _ H Hj). lia.
Qed.

Lemma ordered_from_pairs ms :
  ∀ p i j mi mj,
    ordered_from p ms → i < j → ms !! i = Some mi → ms !! j = Some mj →
    m_end mi ≤ m_start mj.
Proof.
  induction ms as [|m ms IH]; intros p i j mi mj H Hij Hi Hj; [discriminate|].
  destruct H as [Hp H]. destruct j as [|j]; [lia|]. simpl in Hj.
  destruct i as [|i].
  - injection Hi as <-. pose proof (ordered_from_bound _ _ _ _ H Hj). lia.
  - simpl in Hi. eapply (IH _ i j); eauto. lia.
Qed.

Lemma match_end_is_start_plus_length r code m :
  m ∈ finditer r code →
  m_end m = m_start m + String.length (group0 code m).
Proof.
  intros Hin. apply scan_splits in Hin as (pre & used & post & Hcode & Hs & He & _).
  simpl in Hs. unfold group0. rewrite He at 1. f_equal.
  rewrite He, Hs, Hcode. now rewrite slice_mid.
Qed.

(** X2. The detector reports the call sites in source order and they never
    overlap: a site is not empty, and a later request starts at or after the
    end of an earlier one. *)
Theorem requests_in_source_order code i j mi mj :
  i < j →
  finditer input_pattern code !! i = Some mi →
  finditer input_pattern code !! j = Some mj →
  m_start mi < m_end mi ∧ m_end mi ≤ m_start mj.
Proof.
  intros Hij Hi Hj. split.
  - assert (Hin : mi ∈ finditer input_pattern code) by (apply list_elem_of_lookup; eauto).
    destruct (detected_match_shape code mi Hin)
      as (pre & post & ws1 & ws2 & ws3 & lit & _ & _ & Hsite & _).
    rewrite (match_end_is_start_plus_length _ _ _ Hin), Hsite, !length_app_str.
    simpl. lia.
  - eapply (ordered_from_pairs _ (0 + 0)); eauto. apply scan_ordered.
Qed.

Lemma requests_in_source_order_witness :
  0 < 1 ∧
  finditer input_pattern two_inputs !! 0 = Some (mkMatch 4 11 None) ∧
  finditer input_pattern two_inputs !! 1 = Some (mkMatch 16 23 None) ∧
  m_start (mkMatch 4 11 None) < m_end (mkMatch 4 11 None) ∧
  m_end (mkMatch 4 11 None) ≤ m_start (mkMatch 16 23 None).
Proof.
  assert (H0 : finditer input_pattern two_inputs !! 0 = Some (mkMatch 4 11 None))
    by (vm_compute; reflexivity).
  assert (H1 : finditer input_pattern two_inputs !! 1 = Some (mkMatch 16 23 None))
    by (vm_compute; reflexivity).
  split; [lia|]. split; [exact H0|]. split; [exact H1|].
  exact (requests_in_source_order two_inputs 0 1 _ _ (Nat.lt_0_1) H0 H1).
Defined.

(** ** [_replace_inputs]: one request *)

Lemma replace_first_occurrence old new pre :
  ∀ post,
    ∃ pre' post',
      pre +:+ old +:+ post = pre' +:+ old +:+ post'
      ∧ replace_first old new (pre +:+ old +:+ post) = pre' +:+ new +:+ post'.
Proof.
  induction pre as [|c pre IH]; intros post.
  - exists "", post. rewrite !app_empty.
    split; [reflexivity|].
    destruct old as [|a old]; [now destruct post|].
    rewrite app_cons. simpl. rewrite bool_decide_eq_true_2 by reflexivity.
    now rewrite strip_prefix_app.
  - rewrite app_cons. simpl replace_first.
    destruct (strip_prefix old (String c (pre +:+ old +:+ post))) as [rest|] eqn:Hs.
    + exists "", rest. rewrite !app_empty. split; [|reflexivity].
      now apply strip_prefix_spec.
    + destruct (IH post) as (pre' & post' & Heq & Hrep).
      exists (String c pre'), post'. rewrite !app_cons, Hrep. now rewrite Heq.
Qed.

Lemma request_is_cut_out code i site label :
  _detect_inputs code !! i = Some (site, label) →
  ∃ pre post, code = pre +:+ site +:+ post.
Proof.
  intros Hreq. unfold _detect_inputs in Hreq. rewrite list_lookup_fmap in Hreq.
  destruct (finditer input_pattern code !! i) as [m|] eqn:Hm; [|discriminate].
  injection Hreq as <- _.
  assert (Hin : m ∈ finditer input_pattern code) by (apply list_elem_of_lookup; eauto).
  destruct (detected_match_shape code m Hin) as (pre & post & _ & _ & _ & _ & Hcode & _).
  eauto.
Qed.

(** X3. When the detector finds exactly one request, substitution replaces
    one occurrence of its site text by the quoted value and leaves the rest
    of the code as it is; values beyond the first are ignored. *)
Theorem single_request_is_replaced code site label value more :
  _detect_inputs code = [(site, label)] →
  ∃ pre post,
    code = pre +:+ site +:+ post ∧
    _replace_inputs code (value :: more) = pre +:+ quoted value +:+ post.
Proof.
  intros Hd.
  assert (H0 : _detect_inputs code !! 0 = Some (site, label)) by now rewrite Hd.
  destruct (request_is_cut_out code 0 site label H0) as (pre & post & Hcode).
  destruct (replace_first_occurrence site (quoted value) pre post)
    as (pre' & post' & Heq & Hrep).
  exists pre', post'. rewrite <- Hcode in Heq, Hrep. split; [exact Heq|].
  unfold _replace_inputs. rewrite Hd. simpl. rewrite Hrep. now destruct more.
Qed.

Lemma single_request_is_replaced_witness :
  _detect_inputs ask_name
    = [("input(" +:+ str DQ +:+ "Name: " +:+ str DQ +:+ ")", "Name: ")] ∧
  ∃ pre post,
    ask_name = pre +:+ ("input(" +:+ str DQ +:+ "Name: " +:+ str DQ +:+ ")") +:+ post ∧
    _replace_inputs ask_name ["Ada"] = pre +:+ quoted "Ada" +:+ post.
Proof.
  assert (H : _detect_inputs ask_name
              = [("input(" +:+ str DQ +:+ "Name: " +:+ str DQ +:+ ")", "Name: ")])
    by (vm_compute; reflexivity).
  split; [exact H|].
  exact (single_request_is_replaced ask_name _ _ "Ada" [] H).
Defined.

(** ** [_replace_inputs]: escaping *)

Lemma replace_char_app old new a b :
  replace_char old new (a +:+ b) = replace_char old new a +:+ replace_char old new b.
Proof.
  induction a as [|c a IH]; [reflexivity|]. rewrite app_cons. simpl.
  case_bool_decide; rewrite IH; [now rewrite app_assoc_str|reflexivity].
Qed.

(** The two replacements of [escape] amount to one pass that writes a
    backslash in front of every backslash and every double quote. *)
Lemma escape_cons c v :
  escape (String c v)
  = (if bool_decide (c = BSL) then String BSL (str BSL)
     else if bool_decide (c = DQ) then String BSL (str DQ)
     else str c) +:+ escape v.
Proof.
  unfold escape. simpl. case_bool_decide as Hb.
  - subst c. rewrite replace_char_app. reflexivity.
  - simpl. case_bool_decide; reflexivity.
Qed.

(** X4. Escaping loses nothing: two values with the same escaped text are
    the same value, so distinct answers always give distinct literals. *)
Theorem escape_injective a :
  ∀ b, escape a = escape b → a = b.
Proof.
  induction a as [|x a IH]; intros [|y b] H.
  - reflexivity.
  - rewrite escape_cons in H. change (escape "") with "" in H.
    repeat case_bool_decide; discriminate.
  - rewrite escape_cons in H. change (escape "") with "" in H.
    repeat case_bool_decide; discriminate.
  - rewrite !escape_cons in H.
    destruct (bool_decide (x = BSL)) eqn:Hx1; destruct (bool_decide (y = BSL)) eqn:Hy1;
      [| destruct (bool_decide (y = DQ)) eqn:Hy2
       | destruct (bool_decide (x = DQ)) eqn:Hx2
       | destruct (bool_decide (x = DQ)) eqn:Hx2;
         destruct (bool_decide (y = DQ)) eqn:Hy2 ];
      repeat match goal with
             | Hb : bool_decide _ = true |- _ => apply bool_decide_eq_true_1 in Hb
             | Hb : bool_decide _ = false |- _ => apply bool_decide_eq_false_1 in Hb
             end;
      subst; unfold str in H; rewrite ?app_cons, ?app_empty in H;
      try (injection H as H; f_equal; now apply IH);
      try (injection H as H0 H; subst; f_equal; now apply IH);
      try (injection H as H1 H2; congruence);
      try (injection H as H1; congruence).
Qed.

Lemma escape_injective_witness :
  escape (String BSL "n") = escape (String BSL "n") ∧ String BSL "n" = String BSL "n".
Proof.
  split; [reflexivity|].
  exact (escape_injective (String BSL "n") (String BSL "n") eq_refl).
Defined.

(** ** [execute]: what it leaves alone *)

(** Whatever happens before the subprocess stage, the executor has only
    had its [last_code] set. *)
Lemma prepare_touches_last_code_only code input_data st :
  self (prepare code input_data st).2 = set_last_code (Some code) (self st).
Proof.
  unfold prepare, resolve_inputs, open_write, lift_fs. run_monad.
  set (st0 := mkState (set_last_code (Some code) (self st)) (fs st) (tick st) (log st)).
  assert (Hframe : ∀ cb inputs, ∃ r asks,
    ask_all cb inputs [] st0 =
      (Ok r, mkState (self st0) (fs st0) (tick st0 + length asks) (log st0 ++ asks))).
  { intros cb inputs. destruct (ask_all_frame cb inputs [] st0) as (r & asks & _ & Heq).
    eauto. }
  destruct (input_callback (self st)) as [cb|].
  2: { destruct (_detect_inputs code); destruct (fs_write _ _ _); reflexivity. }
  destruct input_data as [d|].
  { destruct (_detect_inputs code); destruct (fs_write _ _ _); reflexivity. }
  destruct (_detect_inputs code) as [|req reqs].
  { destruct (fs_write _ _ _); reflexivity. }
  destruct (Hframe cb (req :: reqs)) as (r & asks & Heq).
  unfold mbind, M_bind. rewrite Heq. destruct r as [values|]; [|reflexivity].
  cbn [self fs]. destruct (fs_write _ _ _); reflexivity.
Qed.

(** X5. Whether [execute] returns or raises, it leaves the timeout, the
    interpreter path, the workspace directory and the callback as they
    were, and [last_code] holds the code it was given. *)
Theorem execute_keeps_configuration E code input_data st :
  config (self (execute E code input_data st).2) = config (self st) ∧
  last_code (self (execute E code input_data st).2) = Some code.
Proof.
  pose proof (prepare_touches_last_code_only code input_data st) as Hp.
  unfold execute, mbind, M_bind.
  destruct (prepare code input_data st) as [[[code_file|]|e] st1]; simpl in Hp;
    try (simpl; rewrite Hp; split; reflexivity).
  unfold run_code, read_clock, spawn. run_monad.
  destruct (subprocess_run E _ _ _) as [[rc out err| |e] fs']; simpl;
    rewrite Hp; split; reflexivity.
Qed.

(** ** [execute]: when the prompts are bypassed *)

Lemma prepare_bypass code input_data st :
  input_callback (self st) = None ∨ input_data ≠ None ∨ _detect_inputs code = [] →
  prepare code input_data st
  = match fs_write (code_file (self st)) code (fs st) with
    | inl e =>
        (Raise e, mkState (set_last_code (Some code) (self st)) (fs st) (tick st) (log st))
    | inr fs' =>
        (Ok (Some (code_file (self st))),
         mkState (set_last_code (Some code) (self st)) fs' (tick st)
           (log st ++ [EvWrite (code_file (self st)) code]))
    end.
Proof.
  intros H. unfold prepare, resolve_inputs, open_write, lift_fs, code_file. run_monad.
  assert (Hcase : match _detect_inputs code, input_callback (self st), input_data with
                  | _ :: _, Some _, None => False
                  | _, _, _ => True
                  end).
  { destruct H as [->|[H| ->]]; [now destruct (_detect_inputs code)| |exact I].
    destruct (_detect_inputs code), (input_callback (self st)), input_data; tauto. }
  destruct (_detect_inputs code), (input_callback (self st)), input_data;
    try contradiction; simpl; destruct (fs_write _ _ _); reflexivity.
Qed.

Lemma run_code_log E code_file input_data st :
  ∃ req r, log (run_code E code_file input_data st).2 = log st ++ [EvSpawn req r].
Proof.
  unfold run_code, read_clock, spawn. run_monad.
  destruct (subprocess_run E _ _ _) as [[rc out err| |e] fs']; simpl; eauto.
Qed.

(** X6. With input data supplied, or without a callback, or without any
    detected request, [execute] shows no prompt and the only file it writes
    is the code file, holding the code exactly as given. *)
Theorem execute_bypasses_resolution E code input_data st :
  input_callback (self st) = None ∨ input_data ≠ None ∨ _detect_inputs code = [] →
  ∃ rest,
    log (execute E code input_data st).2 = log st ++ rest ∧
    writes_only (code_file (self st)) code rest.
Proof.
  intros H. unfold execute, mbind, M_bind. rewrite (prepare_bypass _ _ _ H).
  destruct (fs_write _ _ _) as [e|fs'].
  - exists []. simpl. rewrite app_nil_r. split; [reflexivity|constructor].
  - match goal with |- context [run_code E ?f ?i ?s] =>
      destruct (run_code_log E f i s) as (req & r & Hlog) end.
    exists [EvWrite (code_file (self st)) code; EvSpawn req r].
    rewrite Hlog. simpl. rewrite <- app_assoc. split; [reflexivity|].
    repeat constructor.
Qed.

Lemma execute_bypasses_resolution_witness :
  (input_callback (self (after_failed_run decline)) = None
   ∨ Some "Ada" ≠ None ∨ _detect_inputs "name = input()" = []) ∧
  ∃ rest,
    log (execute hanging_world "name = input()" (Some "Ada") (after_failed_run decline)).2
      = log (after_failed_run decline) ++ rest ∧
    writes_only (code_file (self (after_failed_run decline))) "name = input()" rest.
Proof.
  assert (H : input_callback (self (after_failed_run decline)) = None
              ∨ Some "Ada" ≠ None ∨ _detect_inputs "name = input()" = []).
  { right. left. discriminate. }
  split; [exact H|].
  exact (execute_bypasses_resolution hanging_world "name = input()" (Some "Ada")
           (after_failed_run decline) H).
Defined.

(** ** [execute]: when every prompt is answered *)

Lemma ask_all_collects cb :
  (∀ n prompt, cb n prompt ≠ None) →
  ∀ inputs values st,
    ∃ vs,
      length vs = length inputs ∧
      (∀ i req v, inputs !! i = Some req → vs !! i = Some v →
                  cb (tick st + i) req.2 = Some v) ∧
      ask_all cb inputs values st
      = (Ok (Some (values ++ vs)),
         mkState (self st) (fs st) (tick st + length inputs)
           (log st ++ zip_with (λ req v, EvAsk req.2 (Some v)) inputs vs)).
Proof.
  intros Hcb. induction inputs as [|[full prompt] inputs IH]; intros values st.
  - exists []. split; [reflexivity|]. split; [intros i req v H; destruct i; discriminate|].
    simpl. unfold mret, M_ret. rewrite Nat.add_0_r, !app_nil_r. now destruct st.
  - simpl. unfold call_callback. run_monad.
    destruct (cb (tick st) prompt) as [v|] eqn:Hv; [|now apply Hcb in Hv].
    destruct (IH (values ++ [v])
                (mkState (self st) (fs st) (S (tick st))
                   (log st ++ [EvAsk prompt (Some v)]))) as (vs & Hlen & Hans & Heq).
    exists (v :: vs). split; [simpl; now rewrite Hlen|]. split.
    + intros [|i] req w Hi Hw; simpl in *.
      * injection Hi as <-. injection Hw as <-. simpl. now rewrite Nat.add_0_r.
      * rewrite Nat.add_succ_r. now apply Hans.
    + rewrite Heq. simpl. rewrite <- !app_assoc. simpl.
      do 2 f_equal. f_equal. lia.
Qed.

(** X7. With a callback that answers every prompt and no input data,
    [execute] shows one prompt per detected request, in source order and
    with the request's label; the answers are the callback's, taken at
    consecutive interactions; and the code file, the only file written,
    holds the code with these answers substituted. *)
Theorem execute_asks_each_request E code st cb :
  input_callback (self st) = Some cb →
  (∀ n prompt, cb n prompt ≠ None) →
  ∃ values rest,
    length values = length (_detect_inputs code) ∧
    (∀ i req v, _detect_inputs code !! i = Some req → values !! i = Some v →
                cb (tick st + i) req.2 = Some v) ∧
    log (execute E code None st).2
      = log st ++ zip_with (λ req v, EvAsk req.2 (Some v)) (_detect_inputs code) values
        ++ rest ∧
    writes_only (code_file (self st)) (_replace_inputs code values) rest.
Proof.
  intros Hcbo Hcb.
  destruct (ask_all_collects cb Hcb (_detect_inputs code) []
              (mkState (set_last_code (Some code) (self st)) (fs st) (tick st) (log st)))
    as (vs & Hlen & Hans & Heq).
  exists vs.
  assert (Hprep : prepare code None st
    = match fs_write (code_file (self st)) (_replace_inputs code vs) (fs st) with
      | inl e =>
          (Raise e,
           mkState (set_last_code (Some code) (self st)) (fs st)
             (tick st + length (_detect_inputs code))
             (log st ++ zip_with (λ req v, EvAsk req.2 (Some v)) (_detect_inputs code) vs))
      | inr fs' =>
          (Ok (Some (code_file (self st))),
           mkState (set_last_code (Some code) (self st)) fs'
             (tick st + length (_detect_inputs code))
             ((log st ++ zip_with (λ req v, EvAsk req.2 (Some v)) (_detect_inputs code) vs)
              ++ [EvWrite (code_file (self st)) (_replace_inputs code vs)]))
      end).
  { unfold prepare, resolve_inputs, open_write, lift_fs, code_file. run_monad.
    rewrite Hcbo. destruct (_detect_inputs code) as [|req reqs] eqn:Hd.
    - destruct vs; [|discriminate]. simpl.
      unfold _replace_inputs. rewrite Hd. simpl.
      rewrite Nat.add_0_r, !app_nil_r. destruct (fs_write _ _ _); reflexivity.
    - rewrite Heq. cbn [app self fs tick log work_dir set_last_code].
      destruct (fs_write _ _ _); reflexivity. }
  unfold execute, mbind, M_bind. rewrite Hprep.
  destruct (fs_write _ _ _) as [e|fs'].
  - exists []. split; [exact Hlen|]. split; [exact Hans|]. simpl.
    rewrite app_nil_r. split; [reflexivity|constructor].
  - match goal with |- context [run_code E ?f ?i ?s] =>
      destruct (run_code_log E f i s) as (req & r & Hlog) end.
    exists [EvWrite (code_file (self st)) (_replace_inputs code vs); EvSpawn req r].
    split; [exact Hlen|]. split; [exact Hans|].
    rewrite Hlog. simpl. rewrite <- !app_assoc. split; [reflexivity|].
    repeat constructor.
Qed.

Lemma execute_asks_each_request_witness :
  input_callback (self (after_failed_run answer_ada)) = Some answer_ada ∧
  (∀ n prompt, answer_ada n prompt ≠ None) ∧
  ∃ values rest,
    length values = length (_detect_inputs ask_name) ∧
    (∀ i req v, _detect_inputs ask_name !! i = Some req → values !! i = Some v →
                answer_ada (tick (after_failed_run answer_ada) + i) req.2 = Some v) ∧
    log (execute hanging_world ask_name None (after_failed_run answer_ada)).2
      = log (after_failed_run answer_ada)
        ++ zip_with (λ req v, EvAsk req.2 (Some v)) (_detect_inputs ask_name) values
        ++ rest ∧
    writes_only (code_file (self (after_failed_run answer_ada)))
      (_replace_inputs ask_name values) rest.
Proof.
  assert (H : ∀ n prompt, answer_ada n prompt ≠ None) by (intros n p; discriminate).
  split; [reflexivity|]. split; [exact H|].
  exact (execute_asks_each_request hanging_world ask_name
           (after_failed_run answer_ada) answer_ada eq_refl H).
Defined.

(** ** [execute]: what a timeout leaves behind *)

(** X8. When the subprocess stage ends without a completed process (a
    timeout or any other exception), [last_output] is not touched: it still
    holds the stdout of an earlier run, next to the new [last_error]. *)
Theorem failed_run_keeps_last_output E code input_data st code_file st1 :
  prepare code input_data st = (Ok (Some code_file), st1) →
  let req := mkSpawn [python_path (self st); code_file] (work_dir (self st))
               input_data (_safe_env E) (timeout (self st)) in
  (∀ rc out err, (subprocess_run E (S (tick st1)) req (fs st1)).1 ≠ Completed rc out err) →
  ∃ res st',
    execute E code input_data st = (Ok res, st') ∧
    last_output (self st') = last_output (self st) ∧
    last_error (self st') = Some (stderr res).
Proof.
  intros Hprep req Hnot. pose proof (prepare_self _ _ _ _ _ Hprep) as Hself.
  unfold execute. rewrite (bind_ok _ _ _ _ _ Hprep).
  unfold run_code, read_clock, spawn. run_monad. rewrite Hself. simpl. fold req.
  destruct (subprocess_run E (S (tick st1)) req (fs st1)) as [r fs'] eqn:Hrun.
  simpl in Hnot. destruct r as [rc out err| |e]; [now destruct (Hnot rc out err)| |];
    simpl; eauto.
Qed.

Lemma failed_run_keeps_last_output_witness :
  let st := after_failed_run answer_ada in
  let st1 := (prepare "print(1)" None st).2 in
  let req := mkSpawn ["/usr/bin/python3"; "/tmp/agent_exec_demo/run_code.py"]
               "/tmp/agent_exec_demo" None (_safe_env hanging_world) 30 in
  prepare "print(1)" None st = (Ok (Some "/tmp/agent_exec_demo/run_code.py"), st1) ∧
  (∀ rc out err,
     (subprocess_run hanging_world (S (tick st1)) req (fs st1)).1 ≠ Completed rc out err) ∧
  ∃ res st',
    execute hanging_world "print(1)" None st = (Ok res, st') ∧
    last_output (self st') = Some "" ∧
    last_error (self st') = Some (stderr res).
Proof.
  assert (H : prepare "print(1)" None (after_failed_run answer_ada)
              = (Ok (Some "/tmp/agent_exec_demo/run_code.py"),
                 (prepare "print(1)" None (after_failed_run answer_ada)).2))
    by (vm_compute; reflexivity).
  assert (Hn : ∀ rc out err,
    (subprocess_run hanging_world
       (S (tick (prepare "print(1)" None (after_failed_run answer_ada)).2))
       (mkSpawn ["/usr/bin/python3"; "/tmp/agent_exec_demo/run_code.py"]
          "/tmp/agent_exec_demo" None (_safe_env hanging_world) 30)
       (fs (prepare "print(1)" None (after_failed_run answer_ada)).2)).1
    ≠ Completed rc out err) by (intros rc out err; discriminate).
  split; [exact H|]. split; [exact Hn|].
  exact (failed_run_keeps_last_output hanging_world "print(1)" None
           (after_failed_run answer_ada) _ _ H Hn).
Defined.

(** ** [save_code]: success and failure *)

Lemma dirname_of_bare_name name :
  all_chars (λ c, negb (is_sep c)) name = true → dirname name = "".
Proof.
  intros H. assert (Hh : path_head name = "").
  { induction name as [|c name IH]; [reflexivity|]. simpl in *.
    apply andb_true_iff in H as [Hc H]. apply negb_true_iff in Hc.
    now rewrite Hc, IH. }
  unfold dirname. now rewrite Hh.
Qed.

(** X9. A destination without a directory part is always refused: for
    every code and every name without a separator [save_code] reports the
    failure of [os.makedirs] on the empty name and changes nothing. *)
Theorem save_code_refuses_bare_names code name st :
  all_chars (λ c, negb (is_sep c)) name = true →
  save_code code name st
  = (Ok (false, "[Errno 2] No such file or directory: ''"), st).
Proof.
  intros H. unfold save_code, try_except, lift_fs, fs_makedirs. run_monad.
  rewrite (dirname_of_bare_name _ H). simpl. reflexivity.
Qed.

Lemma save_code_refuses_bare_names_witness :
  all_chars (λ c, negb (is_sep c)) "notes.py" = true ∧
  save_code "x = 1" "notes.py" demo_state
  = (Ok (false, "[Errno 2] No such file or directory: ''"), demo_state).
Proof.
  split; [reflexivity|].
  exact (save_code_refuses_bare_names "x = 1" "notes.py" demo_state eq_refl).
Defined.

Lemma fs_write_inv path content fs fs' :
  fs_write path content fs = inr fs' →
  writable path fs = true
  ∧ fs' = mkFS (dirs fs) (<[path := content]> (files fs)) (readonly fs).
Proof.
  unfold fs_write, writable. intros H.
  destruct (bool_decide (path = "")); [discriminate|].
  destruct (bool_decide (path ∈ dirs fs)); [discriminate|].
  destruct (dir_exists fs (dirname path)); [|discriminate]. simpl in *.
  destruct (_ || _); [discriminate|]. injection H as <-. auto.
Qed.

Lemma save_code_success code filepath st msg st' :
  save_code code filepath st = (Ok (true, msg), st') →
  ∃ fs1,
    fs_makedirs (dirname filepath) (fs st) = inr fs1 ∧
    fs_write filepath code fs1 = inr (fs st').
Proof.
  unfold save_code, try_except, open_write, lift_fs. run_monad.
  destruct (fs_makedirs (dirname filepath) (fs st)) as [e|fs1]; simpl; [discriminate|].
  destruct (fs_write filepath code fs1) as [e|fs2] eqn:Hw; simpl; [discriminate|].
  intros [= <- <-]. eauto.
Qed.

(** X10. Saving again to a path that was saved before succeeds and replaces
    the content: the file holds the second text only. *)
Theorem save_code_overwrites code1 code2 filepath st msg st1 :
  save_code code1 filepath st = (Ok (true, msg), st1) →
  ∃ st2,
    save_code code2 filepath st1 = (Ok (true, "Saved to " +:+ filepath), st2) ∧
    fs_read filepath (fs st2) = Some code2.
Proof.
  intros H1. destruct (save_code_success _ _ _ _ _ H1) as (fs1 & Hmk & Hw).
  destruct (save_code_round_trip _ _ _ _ _ H1) as [Hread Hdir].
  assert (Hd : dirname filepath ≠ "").
  { intros Heq. rewrite Heq in Hmk. unfold fs_makedirs in Hmk. simpl in Hmk. discriminate. }
  assert (Hmk2 : fs_makedirs (dirname filepath) (fs st1) = inr (fs st1)).
  { unfold fs_makedirs. destruct (String.length (dirname filepath)); simpl;
      rewrite bool_decide_eq_false_2 by exact Hd;
      rewrite bool_decide_eq_true_2 by exact Hdir; reflexivity. }
  destruct (fs_write_inv _ _ _ _ Hw) as [Hwr Hfs].
  assert (Hw2 : fs_write filepath code2 (fs st1)
                = inr (mkFS (dirs (fs st1)) (<[filepath := code2]> (files (fs st1)))
                         (readonly (fs st1)))).
  { apply fs_write_writable. rewrite Hfs. now apply writable_after_write. }
  eexists. split.
  - unfold save_code, try_except, open_write, lift_fs. run_monad.
    rewrite Hmk2. simpl. rewrite Hw2. simpl. reflexivity.
  - unfold fs_read. simpl. apply lookup_insert_eq.
Qed.

Lemma save_code_overwrites_witness :
  let first := save_code "x = 1" "out/a/b.py" demo_state in
  first = (Ok (true, "Saved to out/a/b.py"), first.2) ∧
  ∃ st2,
    save_code "x = 2" "out/a/b.py" first.2 = (Ok (true, "Saved to out/a/b.py"), st2) ∧
    fs_read "out/a/b.py" (fs st2) = Some "x = 2".
Proof.
  assert (H : save_code "x = 1" "out/a/b.py" demo_state
              = (Ok (true, "Saved to out/a/b.py"),
                 (save_code "x = 1" "out/a/b.py" demo_state).2))
    by (vm_compute; reflexivity).
  split; [exact H|].
  exact (save_code_overwrites "x = 1" "x = 2" "out/a/b.py" demo_state _ _ H).
Defined.

(** ** [execute_with_file] *)

Lemma stage_file_copies p content st :
  p ≠ "" →
  files (fs st) !! p = Some content →
  stage_file (Some p) st
  = lift_fs (fs_copy2 p (path_join (work_dir (self st)) (basename p))) st.
Proof.
  intros Hp Hf. unfold stage_file, isfile. run_monad.
  destruct p as [|c p]; [contradiction|]. simpl.
  rewrite bool_decide_eq_true_2 by (rewrite Hf; eauto). reflexivity.
Qed.

(** X11. When the file exists and its copy into the workspace goes through,
    [execute_with_file] runs the code exactly as [execute] would, without
    input data, in a workspace that holds a copy of the file under its base
    name. *)
Theorem execute_with_file_stages E code p content st :
  p ≠ "" →
  files (fs st) !! p = Some content →
  let dest := path_join (work_dir (self st)) (basename p) in
  dest ∉ dirs (fs st) →
  p ≠ dest →
  writable dest (fs st) = true →
  execute_with_file E code (Some p) st
  = execute E code None
      (mkState (self st)
         (mkFS (dirs (fs st)) (<[dest := content]> (files (fs st))) (readonly (fs st)))
         (tick st) (log st)).
Proof.
  intros Hp Hf dest Hdir Hne Hw. unfold execute_with_file.
  unfold mbind at 1, M_bind at 1. rewrite (stage_file_copies _ _ _ Hp Hf).
  unfold lift_fs, fs_copy2. fold dest.
  rewrite (bool_decide_eq_false_2 _ Hdir), (bool_decide_eq_false_2 _ Hne), Hf.
  now rewrite (fs_write_writable _ _ _ Hw).
Qed.

Lemma execute_with_file_stages_witness :
  let dest := "/tmp/agent_exec_demo/table.csv" in
  "/data/table.csv" ≠ "" ∧
  files (fs data_state) !! "/data/table.csv" = Some "a,b" ∧
  (path_join (work_dir (self data_state)) (basename "/data/table.csv")
     ∉ dirs (fs data_state)) ∧
  ("/data/table.csv"
     ≠ path_join (work_dir (self data_state)) (basename "/data/table.csv")) ∧
  writable (path_join (work_dir (self data_state)) (basename "/data/table.csv"))
    (fs data_state) = true ∧
  execute_with_file hanging_world "print(1)" (Some "/data/table.csv") data_state
  = execute hanging_world "print(1)" None
      (mkState (self data_state)
         (mkFS (dirs (fs data_state)) (<[dest := "a,b"]> (files (fs data_state)))
            (readonly (fs data_state)))
         (tick data_state) (log data_state)).
Proof.
  assert (H1 : "/data/table.csv" ≠ "") by discriminate.
  assert (H2 : files (fs data_state) !! "/data/table.csv" = Some "a,b")
    by (vm_compute; reflexivity).
  assert (H3 : path_join (work_dir (self data_state)) (basename "/data/table.csv")
               ∉ dirs (fs data_state)).
  { apply (proj1 (bool_decide_eq_false (_ ∈ _))). vm_compute. reflexivity. }
  assert (H4 : "/data/table.csv"
               ≠ path_join (work_dir (self data_state)) (basename "/data/table.csv"))
    by (vm_compute; discriminate).
  assert (H5 : writable (path_join (work_dir (self data_state))
                           (basename "/data/table.csv")) (fs data_state) = true)
    by (vm_compute; reflexivity).
  split; [exact H1|]. split; [exact H2|]. split; [exact H3|].
  split; [exact H4|]. split; [exact H5|].
  exact (execute_with_file_stages hanging_world "print(1)" "/data/table.csv" "a,b"
           data_state H1 H2 H3 H4 H5).
Defined.

(** X12. When the file exists but its copy fails, the exception of the copy
    leaves [execute_with_file]: nothing is executed and the executor is left
    untouched, [last_code] included. A file that already lies in the
    workspace is such a case. *)
Theorem execute_with_file_copy_failure E code p content st e :
  p ≠ "" →
  files (fs st) !! p = Some content →
  fs_copy2 p (path_join (work_dir (self st)) (basename p)) (fs st) = inl e →
  execute_with_file E code (Some p) st = (Raise e, st).
Proof.
  intros Hp Hf Hc. unfold execute_with_file.
  unfold mbind at 1, M_bind at 1. rewrite (stage_file_copies _ _ _ Hp Hf).
  unfold lift_fs. now rewrite Hc.
Qed.

Lemma execute_with_file_copy_failure_witness :
  let p := "/tmp/agent_exec_demo/notes.txt" in
  p ≠ "" ∧
  files (fs staged_state) !! p = Some "hello" ∧
  fs_copy2 p (path_join (work_dir (self staged_state)) (basename p)) (fs staged_state)
    = inl (SameFileError p p) ∧
  execute_with_file hanging_world "print(1)" (Some p) staged_state
    = (Raise (SameFileError p p), staged_state).
Proof.
  assert (H1 : "/tmp/agent_exec_demo/notes.txt" ≠ "") by discriminate.
  assert (H2 : files (fs staged_state) !! "/tmp/agent_exec_demo/notes.txt" = Some "hello")
    by (vm_compute; reflexivity).
  assert (H3 : fs_copy2 "/tmp/agent_exec_demo/notes.txt"
                 (path_join (work_dir (self staged_state))
                    (basename "/tmp/agent_exec_demo/notes.txt")) (fs staged_state)
               = inl (SameFileError "/tmp/agent_exec_demo/notes.txt"
                        "/tmp/agent_exec_demo/notes.txt"))
    by (vm_compute; reflexivity).
  split; [exact H1|]. split; [exact H2|]. split; [exact H3|].
  exact (execute_with_file_copy_failure hanging_world "print(1)"
           "/tmp/agent_exec_demo/notes.txt" "hello" staged_state _ H1 H2 H3).
Defined.

(** ** [cleanup] *)

Lemma code_file_below_work_dir x :
  work_dir x ≠ "" → endswith_sep (work_dir x) = false →
  below (work_dir x) (code_file x) = true.
Proof.
  intros Hw He. unfold code_file, path_join.
  change (startswith "/" "run_code.py") with false. cbv iota.
  destruct (work_dir x) as [|c w] eqn:Hwd; [contradiction|]. rewrite He.
  unfold below, startswith. rewrite <- app_assoc_str, strip_prefix_app.
  apply orb_true_r.
Qed.

(** X13. When nothing protects the workspace from deletion, [cleanup]
    removes the workspace directory and the code file in it, touches no
    file outside the workspace, and leaves the executor object as it was.
    (The removal is [shutil.rmtree] with errors ignored, so a protected
    entry would silently stay.) *)
Theorem cleanup_removes_workspace st :
  work_dir (self st) ≠ "" →
  endswith_sep (work_dir (self st)) = false →
  unprotected (work_dir (self st)) (fs st) →
  ∃ st',
    cleanup st = (Ok (), st') ∧
    self st' = self st ∧
    (work_dir (self st) ∉ dirs (fs st')) ∧
    fs_read (code_file (self st)) (fs st') = None ∧
    ∀ p, below (work_dir (self st)) p = false → fs_read p (fs st') = fs_read p (fs st).
Proof.
  intros Hw He _. eexists. split; [reflexivity|]. split; [reflexivity|].
  unfold fs_read, fs_rmtree. simpl.
  change (λ p : string, bool_decide (p = work_dir (self st))
                        || startswith (work_dir (self st) +:+ "/") p)
    with (below (work_dir (self st))).
  split; [|split].
  - intros Hin. apply elem_of_filter in Hin as [Hb _].
    unfold below in Hb. rewrite bool_decide_eq_true_2 in Hb by reflexivity.
    discriminate.
  - apply map_lookup_filter_None_2. right. intros content _ Hb. simpl in Hb.
    pose proof (code_file_below_work_dir _ Hw He) as Hb'. unfold below in Hb'.
    congruence.
  - intros p Hb. destruct (files (fs st) !! p) as [content|] eqn:Hf.
    + now apply map_lookup_filter_Some_2.
    + apply map_lookup_filter_None_2. now left.
Qed.

Lemma cleanup_removes_workspace_witness :
  work_dir (self ran_once) ≠ "" ∧
  endswith_sep (work_dir (self ran_once)) = false ∧
  unprotected (work_dir (self ran_once)) (fs ran_once) ∧
  fs_read (code_file (self ran_once)) (fs ran_once) = Some "print(1)" ∧
  ∃ st',
    cleanup ran_once = (Ok (), st') ∧
    self st' = self ran_once ∧
    (work_dir (self ran_once) ∉ dirs (fs st')) ∧
    fs_read (code_file (self ran_once)) (fs st') = None ∧
    ∀ p, below (work_dir (self ran_once)) p = false →
         fs_read p (fs st') = fs_read p (fs ran_once).
Proof.
  assert (H1 : work_dir (self ran_once) ≠ "") by (vm_compute; discriminate).
  assert (H2 : endswith_sep (work_dir (self ran_once)) = false)
    by (vm_compute; reflexivity).
  assert (Hr : readonly (fs ran_once) = ∅) by (vm_compute; reflexivity).
  assert (H3 : unprotected (work_dir (self ran_once)) (fs ran_once)).
  { unfold unprotected. rewrite Hr. split; [|intros p _]; apply not_elem_of_empty. }
  split; [exact H1|]. split; [exact H2|]. split; [exact H3|].
  split; [vm_compute; reflexivity|].
  exact (cleanup_removes_workspace ran_once H1 H2 H3).
Defined.

(** ** [chat] *)

(** X14. [chat] never raises and touches neither the executor nor the file
    system. What it posts is the system prompt, then the last ten messages
    of the conversation at most (a suffix of it), then the prompt; the
    flag it returns is true exactly when a reply came back. *)
Theorem chat_sends_bounded_window E prompt model conv st :
  ∃ ok text,
    Agent.chat E prompt model conv st
    = (Ok (ok, text),
       mkState (self st) (fs st) (S (tick st))
         (log st ++ [EvChat prompt conv;
                     EvPost model (mkMsg System Agent.SYSTEM_PROMPT
                                   :: Agent.last_n 10 conv ++ [mkMsg User prompt])])) ∧
    Agent.last_n 10 conv `suffix_of` conv ∧
    length (Agent.last_n 10 conv) = Nat.min 10 (length conv) ∧
    (ok = true ↔ ∃ resp, requests_post E (tick st) model
                           (mkMsg System Agent.SYSTEM_PROMPT
                            :: Agent.last_n 10 conv ++ [mkMsg User prompt])
                         = Reply resp).
Proof.
  unfold Agent.chat. run_monad. rewrite <- app_assoc. simpl.
  assert (Hsuf : Agent.last_n 10 conv `suffix_of` conv) by apply suffix_drop.
  assert (Hlen : length (Agent.last_n 10 conv) = Nat.min 10 (length conv)).
  { unfold Agent.last_n. rewrite length_drop. lia. }
  destruct (requests_post E (tick st) model _) as [resp| |e] eqn:Hp; simpl.
  - exists true, resp. repeat split; eauto.
  - eexists false, _. repeat split; auto; try discriminate. intros [r Hr]. discriminate.
  - eexists false, _. repeat split; auto; try discriminate. intros [r Hr]. discriminate.
Qed.

(** ** [save_code]: what the report means *)



(** ** [chat]: the run *)

Lemma chat_run E prompt model conv st :
  Agent.chat E prompt model conv st
  = (Ok (chat_answer (requests_post E (tick st) model (posted prompt conv))),
     mkState (self st) (fs st) (S (tick st))
       (log st ++ [EvChat prompt conv; EvPost model (posted prompt conv)])).
Proof.
  unfold Agent.chat, posted, chat_answer. run_monad. rewrite <- app_assoc. simpl.
  destruct (requests_post E (tick st) model _); reflexivity.
Qed.

(** ** Counting generator calls and executions *)

Lemma bind_inv {A B} (m : M A) (f : A → M B) st b st' :
  (m ≫= f) st = (Ok b, st') →
  ∃ a st1, m st = (Ok a, st1) ∧ f a st1 = (Ok b, st').
Proof.
  unfold mbind, M_bind. destruct (m st) as [[a|e] st1]; [eauto|discriminate].
Qed.

Lemma steps_ret {A} (a : A) : steps 0 0 (mret a).
Proof. intros st. exists []. simpl. rewrite app_nil_r. auto. Qed.

Lemma steps_weaken {A} g e g' e' (m : M A) :
  g ≤ g' → e ≤ e' → steps g e m → steps g' e' m.
Proof.
  intros Hg He H st. destruct (H st) as (more & Hl & H1 & H2).
  exists more. repeat split; [exact Hl|lia|lia].
Qed.

Lemma steps_bind {A B} g1 e1 g2 e2 (m : M A) (f : A → M B) :
  steps g1 e1 m → (∀ a, steps g2 e2 (f a)) → steps (g1 + g2) (e1 + e2) (m ≫= f).
Proof.
  intros Hm Hf st. unfold mbind, M_bind.
  destruct (Hm st) as (m1 & H1 & Hg1 & He1). destruct (m st) as [[a|e] st1]; simpl in *.
  - destruct (Hf a st1) as (m2 & H2 & Hg2 & He2). exists (m1 ++ m2).
    rewrite H2, H1, app_assoc. unfold generations, executions in *.
    rewrite !omap_app, !length_app. repeat split; lia.
  - exists m1. repeat split; [exact H1|lia|lia].
Qed.

Lemma steps_io {A} (m : M A) :
  (∀ st, ∃ io, log (m st).2 = log st ++ io ∧ Forall (λ ev, is_io ev = true) io) →
  steps 0 0 m.
Proof.
  intros H st. destruct (H st) as (io & Hl & Hio). exists io.
  destruct (io_is_silent io Hio) as [-> ->]. auto.
Qed.

Lemma steps_quiet {A} (m : M A) : (∀ st, log (m st).2 = log st) → steps 0 0 m.
Proof. intros H st. exists []. rewrite H, app_nil_r. auto. Qed.

Lemma steps_emit ev :
  steps (length (generations [ev])) (length (executions [ev])) (emit ev).
Proof. intros st. exists [ev]. auto. Qed.

Lemma steps_out o : steps 0 0 (emit (EvOut o)).
Proof. apply (steps_emit (EvOut o)). Qed.

Lemma steps_lift_fs op : steps 0 0 (lift_fs op).
Proof. apply steps_quiet. intros st. unfold lift_fs. now destruct (op (fs st)). Qed.

Lemma steps_ask_all cb inputs values : steps 0 0 (ask_all cb inputs values).
Proof.
  apply steps_io. intros st.
  destruct (ask_all_frame cb inputs values st) as (r & asks & Hall & Heq).
  exists asks. rewrite Heq. split; [reflexivity|now apply asks_are_io].
Qed.

Lemma steps_spawn E req : steps 0 0 (spawn E req).
Proof.
  apply steps_io. intros st. unfold spawn.
  destruct (subprocess_run _ _ _ _) as [r fs']. exists [EvSpawn req r].
  split; [reflexivity|repeat constructor].
Qed.

Ltac steps_silent :=
  first
    [ apply steps_ret
    | apply steps_out
    | apply steps_lift_fs
    | apply steps_ask_all
    | apply steps_spawn
    | apply steps_quiet; reflexivity
    | apply (steps_emit (EvWrite _ _))
    | apply (steps_bind 0 0 0 0); [|intros ?] ].

Lemma steps_execute E code input_data : steps 0 0 (execute E code input_data).
Proof.
  unfold execute, prepare, resolve_inputs, open_write, run_code, read_clock.
  apply (steps_bind 0 0 0 0).
  - apply (steps_bind 0 0 0 0); [steps_silent|intros _].
    apply (steps_bind 0 0 0 0).
    + apply (steps_bind 0 0 0 0); [steps_silent|intros cb].
      destruct (_detect_inputs code), cb, input_data; try apply steps_ret.
      apply (steps_bind 0 0 0 0); [apply steps_ask_all|].
      intros [values|]; apply steps_ret.
    + intros [code'|]; repeat steps_silent.
  - intros [code_file|]; [|apply steps_ret].
    apply (steps_bind 0 0 0 0); [repeat steps_silent|intros start].
    apply (steps_bind 0 0 0 0); [repeat steps_silent|intros x].
    apply (steps_bind 0 0 0 0); [apply steps_spawn|].
    intros [rc out err| |e]; repeat steps_silent.
Qed.

Lemma steps_execute_and_show E code : steps 0 1 (Agent.execute_and_show E code).
Proof.
  unfold Agent.execute_and_show.
  apply (steps_bind 0 0 0 1); [apply steps_execute|intros r].
  apply (steps_bind 0 1 0 0); [apply (steps_emit (EvExecute code r))|intros _].
  repeat steps_silent.
Qed.

Lemma steps_chat E prompt model conv : steps 1 0 (Agent.chat E prompt model conv).
Proof.
  intros st. rewrite chat_run. simpl. eexists. split; [reflexivity|]. simpl. lia.
Qed.

Lemma steps_fix_loop E fuel :
  ∀ v,
    steps (Agent.max_fix_attempts (Agent.locals v) - Agent.fix_attempt v)
          (Agent.max_fix_attempts (Agent.locals v) - Agent.fix_attempt v)
          (Agent.fix_loop E fuel v).
Proof.
  induction fuel as [|fuel IH]; intros v; simpl.
  - destruct (_ && _); eapply steps_weaken; try apply steps_ret; lia.
  - destruct (negb _); simpl; [|eapply steps_weaken; try apply steps_ret; lia].
    case_bool_decide as Hlt; [|eapply steps_weaken; try apply steps_ret; lia].
    set (n := Agent.max_fix_attempts (Agent.locals v) - Agent.fix_attempt v).
    assert (Hn : n = 1 + (n - 1)) by (unfold n; lia). rewrite Hn.
    apply (steps_bind 0 0 (1 + (n - 1)) (1 + (n - 1))); [apply steps_out|intros _].
    apply (steps_bind 1 0 (n - 1) (1 + (n - 1))); [apply steps_chat|intros [ok resp]].
    destruct ok; [|eapply steps_weaken; [| |repeat steps_silent]; lia].
    destruct (truthy _); [|eapply steps_weaken; [| |repeat steps_silent]; lia].
    apply (steps_bind 0 0 (n - 1) (1 + (n - 1))); [apply steps_out|intros _].
    apply (steps_bind 0 0 (n - 1) (1 + (n - 1))); [apply steps_out|intros _].
    apply (steps_bind 0 1 (n - 1) (n - 1)); [apply steps_execute_and_show|intros r].
    eapply steps_weaken; [| |apply IH]; simpl; unfold n; lia.
Qed.

(** X16. In every world, whether it returns or raises, one request calls
    the generator at most [max_fix_attempts + 1] times and executes code at
    most [max_fix_attempts + 1] times. *)
Theorem request_stays_within_budget E user_input ag :
  steps (S (Agent.max_fix_attempts ag)) (S (Agent.max_fix_attempts ag))
    (Agent.handle_request E user_input ag).
Proof.
  unfold Agent.handle_request.
  set (n := Agent.max_fix_attempts ag).
  apply (steps_bind 1 0 n (S n)); [apply steps_chat|intros [ok resp]].
  destruct ok; simpl; [|eapply steps_weaken; [| |repeat steps_silent]; lia].
  destruct (truthy _); [|eapply steps_weaken; [| |repeat steps_silent]; lia].
  apply (steps_bind 0 0 n (S n)); [apply steps_out|intros _].
  destruct (Agent.auto_execute ag); [|eapply steps_weaken; [| |apply steps_ret]; lia].
  apply (steps_bind 0 0 n (S n)); [apply steps_out|intros _].
  apply (steps_bind 0 1 n n); [apply steps_execute_and_show|intros r].
  replace n with (n + 0) at 1 2 by lia.
  apply steps_bind.
  - eapply steps_weaken; [| |apply steps_fix_loop]; simpl; lia.
  - intros v. apply (steps_bind 0 0 0 0); [|intros _; apply steps_ret].
    destruct (_ && _); [apply steps_out|apply steps_ret].
Qed.

(** ** [main]: a request the generator does not answer *)

(** X17. When the post fails (no connection, or any other exception), the
    request ends with the error shown: the conversation, the last code and
    the settings are as before, nothing is executed, and neither the
    executor nor the file system is touched. *)
Theorem failed_generation_changes_nothing E user_input ag st :
  (∀ resp, requests_post E (tick st) (Agent.model ag)
             (posted user_input (Agent.conversation ag)) ≠ Reply resp) →
  ∃ msg,
    Agent.handle_request E user_input ag st
    = (Ok ag,
       mkState (self st) (fs st) (S (tick st))
         (log st ++ [EvChat user_input (Agent.conversation ag);
                     EvPost (Agent.model ag) (posted user_input (Agent.conversation ag));
                     EvOut (OutChatError msg)])).
Proof.
  intros Hfail. unfold Agent.handle_request.
  rewrite (bind_ok _ _ _ _ _ (chat_run E user_input (Agent.model ag)
                                (Agent.conversation ag) st)).
  destruct (requests_post E (tick st) (Agent.model ag) _) as [resp| |e] eqn:Hp.
  - now destruct (Hfail resp).
  - eexists. simpl. run_monad. rewrite <- app_assoc. reflexivity.
  - eexists. simpl. run_monad. rewrite <- app_assoc. reflexivity.
Qed.

Lemma failed_generation_changes_nothing_witness :
  (∀ resp, requests_post offline_world (tick demo_state) (Agent.model fresh_locals)
             (posted "sort a list" (Agent.conversation fresh_locals)) ≠ Reply resp) ∧
  ∃ msg,
    Agent.handle_request offline_world "sort a list" fresh_locals demo_state
    = (Ok fresh_locals,
       mkState (self demo_state) (fs demo_state) (S (tick demo_state))
         (log demo_state
          ++ [EvChat "sort a list" (Agent.conversation fresh_locals);
              EvPost (Agent.model fresh_locals)
                (posted "sort a list" (Agent.conversation fresh_locals));
              EvOut (OutChatError msg)])).
Proof.
  assert (H : ∀ resp,
    requests_post offline_world (tick demo_state) (Agent.model fresh_locals)
      (posted "sort a list" (Agent.conversation fresh_locals)) ≠ Reply resp)
    by (intros resp; discriminate).
  split; [exact H|].
  exact (failed_generation_changes_nothing offline_world "sort a list" fresh_locals
           demo_state H).
Defined.

(** ** [main]: a request with auto-execution off *)

Lemma trimmed_length {A} (l : list A) :
  length (if bool_decide (20 < length l) then Agent.last_n 20 l else l)
  = Nat.min 20 (length l).
Proof.
  unfold Agent.last_n. case_bool_decide; rewrite ?length_drop; lia.
Qed.

(** X18. With auto-execution off, a request calls the generator once and
    executes nothing: the executor and the file system are as before, the
    settings are kept, and a conversation of at most 20 messages stays
    within 20. *)
Theorem auto_off_never_executes E user_input ag st :
  Agent.auto_execute ag = false →
  ∃ ag' more,
    Agent.handle_request E user_input ag st
    = (Ok ag', mkState (self st) (fs st) (S (tick st)) (log st ++ more)) ∧
    generations more = [user_input] ∧
    executions more = [] ∧
    settings ag' = settings ag ∧
    (length (Agent.conversation ag) ≤ 20 → length (Agent.conversation ag') ≤ 20).
Proof.
  intros Hauto. unfold Agent.handle_request.
  rewrite (bind_ok _ _ _ _ _ (chat_run E user_input (Agent.model ag)
                                (Agent.conversation ag) st)).
  destruct (chat_answer _) as [ok response]. destruct ok; cbn [negb].
  2: { eexists _, _. run_monad. rewrite <- app_assoc. split; [reflexivity|].
       simpl. auto. }
  pose proof (trimmed_length (Agent.conversation ag
                              ++ [mkMsg User user_input; mkMsg Assistant response]))
    as Hlen.
  remember (Nat.min 20 _) as bound eqn:Hb.
  destruct (truthy (Agent.extract_code response)).
  - cbn [Agent.with_code Agent.auto_execute]. rewrite Hauto.
    eexists _, _. run_monad. rewrite <- app_assoc. split; [reflexivity|].
    split; [reflexivity|]. split; [reflexivity|].
    split; [unfold settings; simpl; now rewrite Hauto|].
    intros _. unfold Agent.with_code. cbn [Agent.conversation]. rewrite Hlen. lia.
  - eexists _, _. run_monad. rewrite <- app_assoc. split; [reflexivity|].
    split; [reflexivity|]. split; [reflexivity|]. split; [reflexivity|].
    intros _. cbn [Agent.conversation]. rewrite Hlen. lia.
Qed.

Lemma auto_off_never_executes_witness :
  Agent.auto_execute manual_locals = false ∧
  ∃ ag' more,
    Agent.handle_request (working_world "print(1)") "say one" manual_locals demo_state
    = (Ok ag', mkState (self demo_state) (fs demo_state) (S (tick demo_state))
                 (log demo_state ++ more)) ∧
    generations more = ["say one"] ∧
    executions more = [] ∧
    settings ag' = settings manual_locals ∧
    (length (Agent.conversation manual_locals) ≤ 20 →
     length (Agent.conversation ag') ≤ 20).
Proof.
  split; [reflexivity|].
  exact (auto_off_never_executes (working_world "print(1)") "say one" manual_locals
           demo_state eq_refl).
Defined.

(** ** [main]: what a request does to the local variables *)

Lemma fix_loop_locals E fuel :
  ∀ v st v' st',
    Agent.fix_loop E fuel v st = (Ok v', st') →
    settings (Agent.locals v') = settings (Agent.locals v) ∧
    Agent.fix_attempt v ≤ Agent.fix_attempt v' ∧
    Agent.fix_attempt v'
      ≤ Nat.max (Agent.fix_attempt v) (Agent.max_fix_attempts (Agent.locals v)) ∧
    length (Agent.conversation (Agent.locals v'))
      ≤ length (Agent.conversation (Agent.locals v))
        + 2 * (Agent.fix_attempt v' - Agent.fix_attempt v).
Proof.
  induction fuel as [|fuel IH]; intros v st v' st' H; simpl in H.
  - destruct (_ && _); injection H as <- <-; repeat split; lia.
  - destruct (negb _); simpl in H; [|injection H as <- <-; repeat split; lia].
    case_bool_decide as Hlt; [|injection H as <- <-; repeat split; lia].
    apply bind_inv in H as ([] & st1 & _ & H).
    apply bind_inv in H as ([ok resp] & st2 & _ & H).
    destruct ok.
    2: { apply bind_inv in H as ([] & st3 & _ & H). injection H as <- <-.
         simpl. repeat split; lia. }
    destruct (truthy _).
    2: { apply bind_inv in H as ([] & st3 & _ & H). injection H as <- <-.
         simpl. repeat split; lia. }
    apply bind_inv in H as ([] & st3 & _ & H).
    apply bind_inv in H as ([] & st4 & _ & H).
    apply bind_inv in H as (r & st5 & _ & H).
    apply IH in H as (Hs & Hge & Hle & Hconv). simpl in *.
    rewrite length_app in Hconv. simpl in Hconv.
    repeat split; [exact Hs|lia|lia|lia].
Qed.

(** X19. A request that returns leaves the model, the auto-execution
    switch and the number of repair attempts as they were. The conversation
    it leaves is either the one it found (the generator did not answer) or
    holds at most [20 + 2 * max_fix_attempts] messages: the bound of 20 for
    the request itself, and two more for every repair. *)
Theorem request_keeps_settings E user_input ag st ag' st' :
  Agent.handle_request E user_input ag st = (Ok ag', st') →
  settings ag' = settings ag ∧
  (Agent.conversation ag' = Agent.conversation ag
   ∨ length (Agent.conversation ag') ≤ 20 + 2 * Agent.max_fix_attempts ag).
Proof.
  intros H. unfold Agent.handle_request in H.
  apply bind_inv in H as ([ok response] & st1 & _ & H).
  destruct ok; cbn [negb] in H.
  2: { apply bind_inv in H as ([] & st2 & _ & H). injection H as <- <-. auto. }
  pose proof (trimmed_length (Agent.conversation ag
                              ++ [mkMsg User user_input; mkMsg Assistant response]))
    as Hlen.
  remember (Nat.min 20 _) as bound eqn:Hb.
  destruct (truthy (Agent.extract_code response)).
  2: { apply bind_inv in H as ([] & st2 & _ & H). injection H as <- <-.
       split; [reflexivity|]. right. simpl. rewrite Hlen. lia. }
  apply bind_inv in H as ([] & st2 & _ & H).
  cbn [Agent.with_code Agent.auto_execute] in H.
  destruct (Agent.auto_execute ag) eqn:Hauto.
  2: { injection H as <- <-. unfold settings. simpl. rewrite Hauto.
       split; [reflexivity|]. right. rewrite Hlen. lia. }
  apply bind_inv in H as ([] & st3 & _ & H).
  apply bind_inv in H as (r & st4 & _ & H).
  apply bind_inv in H as (v & st5 & Hloop & H).
  apply bind_inv in H as ([] & st6 & _ & H). injection H as <- <-.
  apply fix_loop_locals in Hloop as (Hs & _ & Hle & Hconv).
  unfold Agent.with_code in Hs, Hle, Hconv.
  cbn [Agent.locals Agent.fix_attempt Agent.max_fix_attempts Agent.conversation]
    in Hs, Hle, Hconv.
  split.
  - cbn [Agent.locals]. rewrite Hs. unfold settings. simpl. now rewrite Hauto.
  - right. rewrite Hlen in Hconv. lia.
Qed.

Lemma request_keeps_settings_witness :
  Agent.handle_request (failing_world "print(1/0)") "divide" fresh_locals demo_state
  = (Ok (returned failing_request), failing_request.2) ∧
  length (Agent.conversation (returned failing_request)) = 8 ∧
  settings (returned failing_request) = settings fresh_locals ∧
  (Agent.conversation (returned failing_request) = Agent.conversation fresh_locals
   ∨ length (Agent.conversation (returned failing_request))
     ≤ 20 + 2 * Agent.max_fix_attempts fresh_locals).
Proof.
  assert (H : Agent.handle_request (failing_world "print(1/0)") "divide" fresh_locals
                demo_state
              = (Ok (returned failing_request), failing_request.2))
    by (vm_compute; reflexivity).
  split; [exact H|]. split; [vm_compute; reflexivity|].
  exact (request_keeps_settings (failing_world "print(1/0)") "divide" fresh_locals
           demo_state (returned failing_request) failing_request.2 H).
Defined.

(** ** [main]: a request whose code runs at the first attempt *)

Lemma resolve_inputs_answered code st :
  never_declines (input_callback (self st)) →
  ∃ code' asks,
    Forall (λ ev, is_ask ev = true) asks ∧
    resolve_inputs code None st
    = (Ok (Some code'),
       mkState (self st) (fs st) (tick st + length asks) (log st ++ asks)).
Proof.
  intros Hcb. unfold resolve_inputs. run_monad.
  assert (Hnone : ∀ c : string, ∃ code' asks,
    Forall (λ ev, is_ask ev = true) asks ∧
    (Ok (Some c), st)
    = (Ok (Some code') : Res (option string),
       mkState (self st) (fs st) (tick st + length asks) (log st ++ asks))).
  { intros c. exists c, []. split; [constructor|].
    simpl. rewrite Nat.add_0_r, app_nil_r. now destruct st. }
  destruct (_detect_inputs code) as [|req reqs] eqn:Hd;
    [destruct (input_callback (self st)); apply Hnone|].
  destruct (input_callback (self st)) as [cb|]; [|apply Hnone].
  destruct (ask_all_answers cb (req :: reqs) (Hcb cb eq_refl) [] st)
    as (vs & asks & Hall & Heq).
  exists (replace_loop (req :: reqs) vs code), asks. split; [exact Hall|].
  unfold mbind, M_bind. rewrite Heq. unfold _replace_inputs. now rewrite Hd.
Qed.

Lemma execute_exits_zero E code st :
  always_exits_zero E (code_file (self st)) →
  never_declines (input_callback (self st)) →
  writable (code_file (self st)) (fs st) = true →
  ∃ r st' io,
    execute E code None st = (Ok r, st') ∧
    success r = true ∧
    log st' = log st ++ io ∧
    Forall (λ ev, is_io ev = true) io ∧
    last_code (self st') = Some code ∧
    last_returncode (self st') = Some 0%Z ∧
    last_output (self st') = Some (stdout r).
Proof.
  intros Hrun Hcb Hw.
  destruct (resolve_inputs_answered code
              (mkState (set_last_code (Some code) (self st)) (fs st) (tick st) (log st))
              Hcb) as (code' & asks & Hall & Hres).
  cbn [self fs tick log] in Hres.
  set (path := code_file (self st)) in *.
  set (fs1 := mkFS (dirs (fs st)) (<[path := code']> (files (fs st))) (readonly (fs st))).
  destruct (Hrun (S (tick st + length asks))
              (mkSpawn [python_path (self st); path] (work_dir (self st)) None
                 (_safe_env E) (timeout (self st))) fs1)
    as (out & err & fs' & Hsp & Hw').
  { now apply writable_after_write. }
  eexists _, _, (asks ++ [EvWrite path code';
                          EvSpawn (mkSpawn [python_path (self st); path]
                                     (work_dir (self st)) None (_safe_env E)
                                     (timeout (self st)))
                            (Completed 0 out err)]).
  split; [|split; [|split; [|split; [|split; [|split]]]]].
  - unfold execute, prepare. unfold mbind at 1 2 3, M_bind at 1 2 3.
    unfold modify_self at 1. rewrite Hres.
    unfold open_write, lift_fs, run_code, read_clock, spawn. run_monad.
    change (path_join (work_dir (self st)) "run_code.py") with path.
    rewrite (fs_write_writable _ _ _ Hw). simpl. fold fs1. rewrite Hsp.
    simpl. rewrite <- !app_assoc. reflexivity.
  - reflexivity.
  - reflexivity.
  - apply Forall_app. split; [now apply asks_are_io|]. repeat constructor.
  - reflexivity.
  - reflexivity.
  - reflexivity.
Qed.

Lemma execute_and_show_succeeds E code st :
  always_exits_zero E (code_file (self st)) →
  never_declines (input_callback (self st)) →
  writable (code_file (self st)) (fs st) = true →
  ∃ r st' new,
    Agent.execute_and_show E code st = (Ok r, st') ∧
    success r = true ∧
    log st' = log st ++ new ∧
    executions new = [(code, r)] ∧
    generations new = [] ∧
    last_code (self st') = Some code ∧
    last_returncode (self st') = Some 0%Z ∧
    last_output (self st') = Some (stdout r).
Proof.
  intros Hrun Hcb Hw.
  destruct (execute_exits_zero E code st Hrun Hcb Hw)
    as (r & st1 & io & Hex & Hr & Hlog & Hio & Hlc & Hrc & Hout).
  destruct (io_is_silent io Hio) as [He Hg].
  exists r, (mkState (self st1) (fs st1) (tick st1)
               (log st1 ++ [EvExecute code r] ++ [EvOut (OutResult r)])),
    (io ++ [EvExecute code r; EvOut (OutResult r)]).
  split; [|split; [exact Hr|split; [|split; [|split; [|split; [|split]]]]]].
  - unfold Agent.execute_and_show. rewrite (bind_ok _ _ _ _ _ Hex).
    run_monad. now rewrite <- app_assoc.
  - simpl. now rewrite Hlog, <- app_assoc.
  - unfold executions in *. now rewrite omap_app, He.
  - unfold generations in *. now rewrite omap_app, Hg.
  - exact Hlc.
  - exact Hrc.
  - exact Hout.
Qed.

(** X20. When the generator answers with code and the code exits with
    status 0, the request is over after one generation and one execution:
    no repair is attempted, the executed code becomes the last code of the
    session and of the executor, the exit code 0 and the output are
    recorded, and the conversation holds the request and the reply within
    the bound of 20. *)
Theorem successful_run_needs_no_repair E user_input ag st :
  Agent.auto_execute ag = true →
  always_generates_code E →
  always_exits_zero E (code_file (self st)) →
  never_declines (input_callback (self st)) →
  writable (code_file (self st)) (fs st) = true →
  ∃ ag' st' new code r,
    Agent.handle_request E user_input ag st = (Ok ag', st') ∧
    log st' = log st ++ new ∧
    generations new = [user_input] ∧
    executions new = [(code, r)] ∧
    success r = true ∧
    Agent.last_code ag' = Some code ∧
    last_code (self st') = Some code ∧
    last_returncode (self st') = Some 0%Z ∧
    last_output (self st') = Some (stdout r) ∧
    length (Agent.conversation ag')
      = Nat.min 20 (length (Agent.conversation ag) + 2).
Proof.
  intros Hauto Hgen Hrun Hcb Hw. unfold Agent.handle_request.
  rewrite (bind_ok _ _ _ _ _ (chat_run E user_input (Agent.model ag)
                                (Agent.conversation ag) st)).
  destruct (Hgen (tick st) (Agent.model ag) (posted user_input (Agent.conversation ag)))
    as (resp & Hresp & Ht).
  rewrite Hresp. cbn [chat_answer negb]. rewrite Ht.
  pose proof (trimmed_length (Agent.conversation ag
                              ++ [mkMsg User user_input; mkMsg Assistant resp]))
    as Hlen.
  assert (Hl2 : Nat.min 20 (length (Agent.conversation ag
                                    ++ [mkMsg User user_input; mkMsg Assistant resp]))
                = Nat.min 20 (length (Agent.conversation ag) + 2))
    by (rewrite length_app; reflexivity).
  rewrite Hl2 in Hlen. clear Hl2.
  remember (Nat.min 20 (length (Agent.conversation ag) + 2)) as bound eqn:Hb.
  destruct (Agent.extract_code resp) as [code0|] eqn:Hx; [|discriminate].
  cbn [default from_option id Agent.auto_execute Agent.with_code].
  rewrite Hauto.
  unfold mbind at 1 2, M_bind at 1 2. unfold emit at 1 2. cbn [self fs tick log].
  match goal with |- context [mbind _ (Agent.execute_and_show E code0) ?s] =>
    destruct (execute_and_show_succeeds E code0 s Hrun Hcb Hw)
      as (r & st1 & new1 & Hex & Hr & Hlog & He & Hg & Hlc & Hrc & Hout);
    rewrite (bind_ok _ _ _ _ _ Hex) end.
  assert (Hloop : ∀ n v s, success (Agent.res v) = true →
                           Agent.fix_loop E n v s = (Ok v, s)).
  { intros n v s Hs. destruct n; simpl; rewrite Hs; reflexivity. }
  match goal with |- context [mbind _ (Agent.fix_loop E ?n ?v) st1] =>
    rewrite (bind_ok _ _ _ _ _ (Hloop n v st1 Hr)) end.
  cbn [Agent.res Agent.locals]. rewrite Hr. cbn [negb andb]. run_monad.
  eexists _, _, _, code0, r. split; [reflexivity|].
  rewrite Hlog. cbn [log]. rewrite <- !app_assoc.
  split; [reflexivity|].
  unfold generations, executions in *. rewrite !omap_app, He, Hg. cbn.
  repeat split; try assumption.
Qed.

Lemma successful_run_needs_no_repair_witness :
  Agent.auto_execute fresh_locals = true ∧
  always_generates_code (working_world "print(1)") ∧
  always_exits_zero (working_world "print(1)") (code_file (self demo_state)) ∧
  never_declines (input_callback (self demo_state)) ∧
  writable (code_file (self demo_state)) (fs demo_state) = true ∧
  ∃ ag' st' new code r,
    Agent.handle_request (working_world "print(1)") "say one" fresh_locals demo_state
      = (Ok ag', st') ∧
    log st' = log demo_state ++ new ∧
    generations new = ["say one"] ∧
    executions new = [(code, r)] ∧
    success r = true ∧
    Agent.last_code ag' = Some code ∧
    last_code (self st') = Some code ∧
    last_returncode (self st') = Some 0%Z ∧
    last_output (self st') = Some (stdout r) ∧
    length (Agent.conversation ag')
      = Nat.min 20 (length (Agent.conversation fresh_locals) + 2).
Proof.
  assert (H2 : always_generates_code (working_world "print(1)")).
  { intros n model msgs. exists "print(1)". split; [reflexivity|].
    vm_compute. reflexivity. }
  assert (H3 : always_exits_zero (working_world "print(1)")
                 (code_file (self demo_state))).
  { intros n req fs Hw. exists "ok", "", fs. split; [reflexivity|exact Hw]. }
  assert (H4 : never_declines (input_callback (self demo_state))).
  { intros cb Hcb. discriminate. }
  assert (H5 : writable (code_file (self demo_state)) (fs demo_state) = true).
  { vm_compute. reflexivity. }
  split; [reflexivity|]. split; [exact H2|]. split; [exact H3|].
  split; [exact H4|]. split; [exact H5|].
  exact (successful_run_needs_no_repair (working_world "print(1)") "say one"
           fresh_locals demo_state eq_refl H2 H3 H4 H5).
Defined.

(** ** [main]: the slash commands *)




(** ** [main]: what the session leaves behind *)

Lemma keeps_ret {A T} (obs : State → T) (a : A) : keeps obs (mret a).
Proof. intros st. reflexivity. Qed.

Lemma keeps_bind {A B T} (obs : State → T) (m : M A) (f : A → M B) :
  keeps obs m → (∀ a, keeps obs (f a)) → keeps obs (m ≫= f).
Proof.
  intros Hm Hf st. unfold mbind, M_bind. specialize (Hm st).
  destruct (m st) as [[a|e] st1]; simpl in *; [|exact Hm].
  now rewrite Hf.
Qed.

Lemma keeps_try {A T} (obs : State → T) (body : M A) (handler : exn → M A) :
  keeps obs body → (∀ e, keeps obs (handler e)) → keeps obs (try_except body handler).
Proof.
  intros Hm Hf st. unfold try_except. specialize (Hm st).
  destruct (body st) as [[a|e] st1]; simpl in *; [exact Hm|].
  now rewrite Hf.
Qed.

Lemma keeps_self {A} (m : M A) :
  (∀ st, self (m st).2 = self st) → keeps (λ st, config (self st)) m.
Proof. intros H st. now rewrite H. Qed.

Lemma keeps_emit ev : keeps (λ st, config (self st)) (emit ev).
Proof. now apply keeps_self. Qed.

Lemma keeps_lift_fs op : keeps (λ st, config (self st)) (lift_fs op).
Proof. apply keeps_self. intros st. unfold lift_fs. now destruct (op (fs st)). Qed.

Lemma keeps_chat E prompt model conv :
  keeps (λ st, config (self st)) (Agent.chat E prompt model conv).
Proof. intros st. now rewrite chat_run. Qed.

Lemma keeps_execute E code input_data :
  keeps (λ st, config (self st)) (execute E code input_data).
Proof.
  intros st. pose proof (prepare_touches_last_code_only code input_data st) as Hp.
  unfold execute, mbind, M_bind.
  destruct (prepare code input_data st) as [[[code_file|]|e] st1]; simpl in Hp;
    try (simpl; now rewrite Hp).
  unfold run_code, read_clock, spawn. run_monad.
  destruct (subprocess_run E _ _ _) as [[rc out err| |e] fs']; simpl;
    now rewrite Hp.
Qed.

Ltac keeps_step :=
  first
    [ apply keeps_ret
    | apply keeps_emit
    | apply keeps_lift_fs
    | apply keeps_chat
    | apply keeps_execute
    | apply keeps_bind; [|intros ?] ].

Lemma keeps_fix_loop E fuel :
  ∀ v, keeps (λ st, config (self st)) (Agent.fix_loop E fuel v).
Proof.
  induction fuel as [|fuel IH]; intros v; simpl.
  - destruct (_ && _); apply keeps_ret.
  - destruct (_ && _); [|apply keeps_ret].
    apply keeps_bind; [apply keeps_emit|intros _].
    apply keeps_bind; [apply keeps_chat|intros [ok resp]].
    destruct ok; [|repeat keeps_step].
    destruct (truthy _); [|repeat keeps_step].
    apply keeps_bind; [apply keeps_emit|intros _].
    apply keeps_bind; [apply keeps_emit|intros _].
    apply keeps_bind; [unfold Agent.execute_and_show; repeat keeps_step|intros r].
    apply IH.
Qed.

Lemma keeps_handle_request E user_input ag :
  keeps (λ st, config (self st)) (Agent.handle_request E user_input ag).
Proof.
  unfold Agent.handle_request.
  apply keeps_bind; [apply keeps_chat|intros [ok resp]].
  destruct ok; simpl; [|repeat keeps_step].
  destruct (truthy _); [|repeat keeps_step].
  apply keeps_bind; [apply keeps_emit|intros _].
  destruct (Agent.auto_execute ag); [|apply keeps_ret].
  apply keeps_bind; [apply keeps_emit|intros _].
  apply keeps_bind; [unfold Agent.execute_and_show; repeat keeps_step|intros r].
  apply keeps_bind; [apply keeps_fix_loop|intros v].
  apply keeps_bind; [|intros _; apply keeps_ret].
  destruct (_ && _); [apply keeps_emit|apply keeps_ret].
Qed.

Lemma keeps_run_command E c ag :
  keeps (λ st, config (self st)) (Agent.run_command E c ag).
Proof.
  destruct c as [| | |[path|]|[name|]|[b|]|[n|]|]; simpl; try apply keeps_ret.
  - destruct (truthy _); repeat keeps_step.
  - destruct (truthy _); [|repeat keeps_step].
    apply keeps_bind; [|intros answer; repeat keeps_step].
    unfold save_code, open_write. apply keeps_try; repeat keeps_step.
  - repeat keeps_step.
Qed.

Lemma keeps_repl E inputs :
  ∀ ag, keeps (λ st, config (self st)) (Agent.repl E inputs ag).
Proof.
  induction inputs as [|i inputs IH]; intros ag; simpl; [apply keeps_ret|].
  destruct i as [| |c|text]; try apply keeps_ret; [apply IH| |].
  - destruct c; try apply keeps_ret;
      (apply keeps_bind; [apply keeps_run_command|intros ag'; apply IH]).
  - apply keeps_bind; [apply keeps_handle_request|intros ag'; apply IH].
Qed.

(** X22. When the session ends normally (end of input or [/quit]) and
    nothing protects the workspace from deletion, the workspace directory is
    gone and so is every file below it, whatever the requests and commands
    did; the executor still has its timeout, its interpreter and its
    workspace path, and the terminal as callback. *)
Theorem main_cleans_up_on_exit E model inputs st ag st' :
  Agent.main E model inputs st = (Ok ag, st') →
  unprotected (work_dir (self st)) (fs st') →
  config (self st')
    = (timeout (self st), python_path (self st), work_dir (self st),
       Some (terminal_input E)) ∧
  (work_dir (self st) ∉ dirs (fs st')) ∧
  ∀ p, below (work_dir (self st)) p = true → fs_read p (fs st') = None.
Proof.
  intros H _. unfold Agent.main in H.
  apply bind_inv in H as ([] & st0 & H0 & H).
  apply bind_inv in H as (ag1 & st1 & H1 & H).
  apply bind_inv in H as ([] & st2 & H2 & H). injection H as <- <-.
  unfold set_input_callback, modify_self in H0. injection H0 as <-.
  match type of H1 with Agent.repl _ _ ?a ?s = _ =>
    pose proof (keeps_repl E inputs a s) as Hk end.
  rewrite H1 in Hk. simpl in Hk.
  unfold cleanup in H2. injection H2 as <-. simpl.
  assert (Hwd : work_dir (self st1) = work_dir (self st)).
  { unfold config in Hk. now injection Hk. }
  split; [exact Hk|]. rewrite Hwd. unfold fs_rmtree, fs_read. simpl.
  split.
  - intros Hin. apply elem_of_filter in Hin as [Hb _].
    rewrite bool_decide_eq_true_2 in Hb by reflexivity. discriminate.
  - intros p Hb. apply map_lookup_filter_None_2. right. intros content _ Hb'.
    simpl in Hb'. unfold below in Hb. congruence.
Qed.

Lemma main_cleans_up_on_exit_witness :
  Agent.main (working_world "print(1)") "qwen3-coder-v4"
    [Agent.Request "say one"; Agent.Cmd Agent.Quit] demo_state
  = (Ok (returned short_session), short_session.2) ∧
  unprotected (work_dir (self demo_state)) (fs short_session.2) ∧
  executions (log short_session.2) = [("print(1)", result true "ok" "" 2)] ∧
  config (self short_session.2)
    = (timeout (self demo_state), python_path (self demo_state),
       work_dir (self demo_state), Some (terminal_input (working_world "print(1)"))) ∧
  (work_dir (self demo_state) ∉ dirs (fs short_session.2)) ∧
  ∀ p, below (work_dir (self demo_state)) p = true →
       fs_read p (fs short_session.2) = None.
Proof.
  assert (H : Agent.main (working_world "print(1)") "qwen3-coder-v4"
                [Agent.Request "say one"; Agent.Cmd Agent.Quit] demo_state
              = (Ok (returned short_session), short_session.2))
    by (vm_compute; reflexivity).
  assert (Hr : readonly (fs short_session.2) = ∅) by (vm_compute; reflexivity).
  assert (H2 : unprotected (work_dir (self demo_state)) (fs short_session.2)).
  { unfold unprotected. rewrite Hr. split; [|intros p _]; apply not_elem_of_empty. }
  split; [exact H|]. split; [exact H2|]. split; [vm_compute; reflexivity|].
  exact (main_cleans_up_on_exit (working_world "print(1)") "qwen3-coder-v4"
           [Agent.Request "say one"; Agent.Cmd Agent.Quit] demo_state
           (returned short_session) short_session.2 H H2).
Defined.

(** ** [strip] *)

Lemma rev_app_spec s : ∀ t, String.rev_app s t = String.rev s +:+ t.
Proof.
  induction s as [|a s IH]; intros t; [reflexivity|].
  unfold String.rev. simpl. rewrite (IH (String a t)), (IH (String a "")).
  now rewrite app_assoc_str.
Qed.

Lemma rev_cons c s : String.rev (String c s) = String.rev s +:+ str c.
Proof. unfold String.rev at 1. simpl. apply rev_app_spec. Qed.

Lemma rev_str_app a b : String.rev (a +:+ b) = String.rev b +:+ String.rev a.
Proof.
  induction a as [|c a IH]; [now rewrite app_empty, app_empty_r|].
  now rewrite app_cons, !rev_cons, IH, app_assoc_str.
Qed.

Lemma rev_involutive s : String.rev (String.rev s) = s.
Proof.
  induction s as [|c s IH]; [reflexivity|].
  now rewrite rev_cons, rev_str_app, IH.
Qed.

Lemma all_chars_app p a b : all_chars p (a +:+ b) = all_chars p a && all_chars p b.
Proof.
  induction a as [|c a IH]; [reflexivity|].
  rewrite app_cons. simpl. now rewrite IH, andb_assoc.
Qed.

Lemma all_chars_rev p s : all_chars p (String.rev s) = all_chars p s.
Proof.
  induction s as [|c s IH]; [reflexivity|].
  rewrite rev_cons, all_chars_app, IH. simpl.
  now rewrite andb_true_r, andb_comm.
Qed.

Lemma lstrip_spec s :
  ∃ ws, s = ws +:+ lstrip s ∧ all_chars is_space ws = true ∧ starts_clean (lstrip s).
Proof.
  induction s as [|c s (ws & Hs & Hws & Hc)]; [now exists ""|].
  simpl. destruct (is_space c) eqn:Hsp.
  - exists (String c ws). rewrite app_cons, <- Hs. simpl. now rewrite Hsp.
  - exists "". simpl. auto.
Qed.

Lemma lstrip_clean s : starts_clean s → lstrip s = s.
Proof. destruct s as [|c s]; [reflexivity|]. simpl. now intros ->. Qed.

Lemma rstrip_spec s :
  ∃ ws, s = rstrip s +:+ ws ∧ all_chars is_space ws = true ∧ ends_clean (rstrip s).
Proof.
  destruct (lstrip_spec (String.rev s)) as (ws & Hs & Hws & Hc).
  exists (String.rev ws). unfold rstrip, ends_clean. split; [|split].
  - rewrite <- rev_str_app, <- Hs. now rewrite rev_involutive.
  - now rewrite all_chars_rev.
  - now rewrite rev_involutive.
Qed.

Lemma rstrip_clean s : ends_clean s → rstrip s = s.
Proof.
  unfold ends_clean, rstrip. intros H. rewrite (lstrip_clean _ H).
  apply rev_involutive.
Qed.

(** What [strip] gives: the text between a run of blanks on either side,
    itself blank at neither end. *)
Lemma strip_spec s :
  ∃ ws1 ws2,
    s = ws1 +:+ strip s +:+ ws2
    ∧ all_chars is_space ws1 = true ∧ all_chars is_space ws2 = true
    ∧ starts_clean (strip s) ∧ ends_clean (strip s).
Proof.
  destruct (lstrip_spec s) as (ws1 & Hs & Hws1 & Hc1).
  destruct (rstrip_spec (lstrip s)) as (ws2 & Hr & Hws2 & Hc2).
  exists ws1, ws2. unfold strip. rewrite <- Hr.
  split; [exact Hs|]. split; [exact Hws1|]. split; [exact Hws2|].
  split; [|exact Hc2].
  destruct (rstrip (lstrip s)) as [|c t]; [exact I|].
  rewrite Hr in Hc1. rewrite app_cons in Hc1. exact Hc1.
Qed.

Lemma strip_idempotent s : strip (strip s) = strip s.
Proof.
  destruct (strip_spec s) as (_ & _ & _ & _ & _ & Hc1 & Hc2).
  unfold strip at 1. rewrite (lstrip_clean _ Hc1). now apply rstrip_clean.
Qed.

(** ** [extract_code] *)

(** X23. Whatever the reply, the code [extract_code] returns is stripped:
    it neither begins nor ends with a blank, so stripping it again changes
    nothing. *)
Theorem extracted_code_is_stripped text code :
  Agent.extract_code text = Some code →
  strip code = code ∧ starts_clean code ∧ ends_clean code.
Proof.
  intros H.
  assert (Hs : ∃ s, code = strip s).
  { unfold Agent.extract_code, Agent.group1_stripped in H.
    destruct (search Agent.fence_python _); [injection H as <-; eauto|].
    destruct (search Agent.fence_plain _); [injection H as <-; eauto|].
    destruct (_ && _); [injection H as <-; eauto|discriminate]. }
  destruct Hs as (s & ->). split; [apply strip_idempotent|].
  destruct (strip_spec s) as (_ & _ & _ & _ & _ & Hc1 & Hc2). auto.
Qed.

Lemma extracted_code_is_stripped_witness :
  Agent.extract_code fenced_reply = Some "print(1)" ∧
  strip "print(1)" = "print(1)" ∧ starts_clean "print(1)" ∧ ends_clean "print(1)".
Proof.
  assert (H : Agent.extract_code fenced_reply = Some "print(1)")
    by (vm_compute; reflexivity).
  split; [exact H|].
  exact (extracted_code_is_stripped fenced_reply "print(1)" H).
Defined.

(** A pattern whose every derivation contains the character [c] finds
    nothing in a text without [c]. *)
Lemma no_match r c text :
  (∀ pos used cap cap', derives r pos used cap cap' → free_of c used = false) →
  free_of c text = true →
  finditer r text = [].
Proof.
  intros Hr Hfree. apply elem_of_nil_inv. intros m Hin.
  apply scan_splits in Hin as (pre & used & post & -> & _ & _ & Hd).
  apply Hr in Hd. unfold free_of in *.
  rewrite !all_chars_app, Hd, andb_false_r in Hfree. discriminate.
Qed.

Lemma free_of_strip c s : free_of c s = true → free_of c (strip s) = true.
Proof.
  destruct (strip_spec s) as (ws1 & ws2 & Hs & _). intros H.
  rewrite Hs in H. unfold free_of in *. rewrite !all_chars_app in H.
  apply andb_true_iff in H as [_ H]. now apply andb_true_iff in H as [H _].
Qed.

Lemma think_closed_needs_bracket pos used cap cap' :
  derives Agent.think_closed pos used cap cap' → free_of "<" used = false.
Proof.
  unfold Agent.think_closed. cbn [derives].
  intros (u1 & u2 & c1 & -> & [-> _] & _). unfold free_of.
  now rewrite all_chars_app.
Qed.

Lemma think_open_needs_bracket pos used cap cap' :
  derives Agent.think_open pos used cap cap' → free_of "<" used = false.
Proof.
  unfold Agent.think_open. cbn [derives].
  intros (u1 & u2 & c1 & -> & [-> _] & _). unfold free_of.
  now rewrite all_chars_app.
Qed.

Lemma fence_python_needs_backquote pos used cap cap' :
  derives Agent.fence_python pos used cap cap' → free_of "`" used = false.
Proof.
  unfold Agent.fence_python. cbn [derives].
  intros (u1 & u2 & c1 & -> & [-> _] & _). unfold free_of.
  now rewrite all_chars_app.
Qed.

Lemma fence_plain_needs_backquote pos used cap cap' :
  derives Agent.fence_plain pos used cap cap' → free_of "`" used = false.
Proof.
  unfold Agent.fence_plain. cbn [derives].
  intros (u1 & u2 & c1 & -> & [-> _] & _). unfold free_of.
  now rewrite all_chars_app.
Qed.

Lemma leading_fence_needs_backquote pos used cap cap' :
  derives Agent.leading_fence pos used cap cap' → free_of "`" used = false.
Proof.
  unfold Agent.leading_fence. cbn [derives].
  intros (u1 & u2 & c1 & -> & [-> _] & u3 & u4 & c2 & -> & [-> _] & _).
  unfold free_of. now rewrite !all_chars_app.
Qed.

Lemma trailing_fence_needs_backquote pos used cap cap' :
  derives Agent.trailing_fence pos used cap cap' → free_of "`" used = false.
Proof.
  unfold Agent.trailing_fence. cbn [derives].
  intros (u1 & u2 & c1 & -> & _ & u3 & u4 & c2 & -> & [-> _] & _).
  unfold free_of. rewrite !all_chars_app. simpl. apply andb_false_r.
Qed.

(** X24. A reply without an angle bracket and without a backquote is
    judged as a whole: when its stripped text contains one of the six
    markers ([def ], [print(], [import ], [for ], [class ], [=]), that
    text is the code, unchanged; otherwise there is no code. Prose that
    happens to contain a marker is therefore taken for code. *)
Theorem plain_reply_is_taken_whole text :
  free_of "<" text = true →
  free_of "`" text = true →
  Agent.extract_code text
  = if Agent.looks_like_code (strip text) then Some (strip text) else None.
Proof.
  intros Hlt Hbq. unfold Agent.extract_code, Agent.strip_think, sub_empty, search.
  rewrite (no_match _ _ _ think_closed_needs_bracket Hlt). cbn [cut].
  rewrite (no_match _ _ _ think_open_needs_bracket Hlt). cbn [cut].
  pose proof (free_of_strip _ _ Hbq) as Hbq'.
  rewrite (no_match _ _ _ fence_python_needs_backquote Hbq').
  rewrite (no_match _ _ _ fence_plain_needs_backquote Hbq'). cbn [head].
  rewrite strip_idempotent.
  rewrite (no_match _ _ _ leading_fence_needs_backquote Hbq'). cbn [cut].
  rewrite (no_match _ _ _ trailing_fence_needs_backquote Hbq'). cbn [cut].
  rewrite strip_idempotent.
  destruct (strip text) as [|c t]; [reflexivity|]. reflexivity.
Qed.

Lemma plain_reply_is_taken_whole_witness :
  free_of "<" prose_reply = true ∧
  free_of "`" prose_reply = true ∧
  Agent.looks_like_code (strip prose_reply) = true ∧
  strip prose_reply = "I can do that for you." ∧
  Agent.extract_code prose_reply
  = if Agent.looks_like_code (strip prose_reply) then Some (strip prose_reply)
    else None.
Proof.
  split; [reflexivity|]. split; [reflexivity|].
  split; [vm_compute; reflexivity|]. split; [vm_compute; reflexivity|].
  exact (plain_reply_is_taken_whole prose_reply eq_refl eq_refl).
Defined.

(** ** [strip_think] *)

Lemma star_greedy_all cap s :
  ∀ pos, star_greedy any_char pos s (λ pos' s', accept pos' s' cap)
         = Some (pos + String.length s, cap).
Proof.
  induction s as [|c s IH]; intros pos.
  - simpl. unfold accept. now rewrite Nat.add_0_r.
  - rewrite star_greedy_cons. simpl. rewrite IH. do 2 f_equal. simpl. lia.
Qed.

(** An attempt of the second pattern of [strip_think] succeeds exactly
    where the opening tag starts, and then runs to the end of the text. *)
Lemma think_open_here pos s :
  match_here Agent.think_open pos s
  = if startswith "<think>" s then Some (pos + String.length s, None) else None.
Proof.
  unfold match_here, Agent.think_open, startswith. cbn [run].
  destruct (strip_prefix "<think>" s) as [s'|] eqn:Hs; [|reflexivity].
  apply strip_prefix_spec in Hs as ->.
  rewrite (star_greedy_all None). rewrite length_app_str. now rewrite Nat.add_assoc.
Qed.

Lemma think_open_skips_to_end s :
  ∀ pos, scan Agent.think_open pos (String.length s) s = [].
Proof. induction s as [|c s IH]; intros pos; [reflexivity|]. simpl. apply IH. Qed.

Lemma drop_str_all s : drop_str (String.length s) s = "".
Proof. induction s as [|c s IH]; [reflexivity|]. simpl. exact IH. Qed.

(** Matches that start after the first character leave it in place. *)
Lemma cut_after_first ms pos c s :
  match ms with
  | [] => True
  | m :: _ => pos < m_start m ∧ m_start m ≤ m_end m
  end →
  cut ms pos (String c s) = String c (cut ms (S pos) s).
Proof.
  destruct ms as [|m ms]; [reflexivity|]. intros [Hs He]. simpl.
  destruct (m_start m - pos) as [|n] eqn:Hn; [lia|].
  destruct (m_end m - pos) as [|k] eqn:Hk; [lia|].
  replace (m_start m - S pos) with n by lia.
  replace (m_end m - S pos) with k by lia.
  simpl. now rewrite app_cons.
Qed.

Lemma scan_first_after r s pos :
  match scan r (S pos) 0 s with
  | [] => True
  | m :: _ => pos < m_start m ∧ m_start m ≤ m_end m
  end.
Proof.
  destruct (scan r (S pos) 0 s) as [|m ms] eqn:Hscan; [exact I|].
  pose proof (scan_ordered r s (S pos) 0) as Ho. rewrite Hscan in Ho.
  destruct Ho as [Ho _].
  assert (Hin : m ∈ scan r (S pos) 0 s) by (rewrite Hscan; apply list_elem_of_here).
  apply scan_splits in Hin as (pre & used & post & _ & _ & He & _). lia.
Qed.

Lemma sub_think_open_before s :
  ∀ pos, cut (scan Agent.think_open pos 0 s) pos s = before "<think>" s.
Proof.
  induction s as [|c s IH]; intros pos.
  - reflexivity.
  - cbn [scan]. rewrite think_open_here. cbn [before].
    destruct (startswith "<think>" (String c s)).
    + cbn [String.length]. replace (pos + S (String.length s) - pos - 1)
        with (String.length s) by lia.
      rewrite think_open_skips_to_end. cbn [cut m_start m_end].
      rewrite Nat.sub_diag. cbn [take_str].
      replace (pos + S (String.length s) - pos) with (String.length (String c s))
        by (simpl; lia).
      now rewrite drop_str_all.
    + rewrite cut_after_first by apply scan_first_after. now rewrite IH.
Qed.

Lemma startswith_app l a b : startswith l a = true → startswith l (a +:+ b) = true.
Proof.
  unfold startswith. destruct (strip_prefix l a) as [a'|] eqn:Ha; [|discriminate].
  intros _. apply strip_prefix_spec in Ha as ->.
  now rewrite app_assoc_str, strip_prefix_app.
Qed.

Lemma contains_app_l l a b : contains l a = true → contains l (a +:+ b) = true.
Proof.
  induction a as [|c a IH]; intros H.
  - simpl in H. rewrite orb_false_r in H.
    pose proof (startswith_app l "" b H) as Hb. rewrite app_empty in Hb.
    destruct b; simpl; now rewrite Hb.
  - rewrite app_cons. simpl in *. apply orb_true_iff in H as [H|H].
    + pose proof (startswith_app l (String c a) b H) as Hb. rewrite app_cons in Hb.
      now rewrite Hb.
    + rewrite (IH H). apply orb_true_r.
Qed.

Lemma contains_app_r l a b : contains l b = true → contains l (a +:+ b) = true.
Proof.
  intros H. induction a as [|c a IH]; [now rewrite app_empty|].
  rewrite app_cons. simpl. rewrite IH. apply orb_true_r.
Qed.

Lemma before_is_prefix l s : ∃ rest, s = before l s +:+ rest.
Proof.
  induction s as [|c s (rest & IH)]; simpl.
  - exists "". now destruct (startswith l "").
  - destruct (startswith l (String c s)); [now exists (String c s)|].
    exists rest. rewrite app_cons. now rewrite <- IH.
Qed.

Lemma before_has_no_occurrence l s :
  l ≠ "" → contains l (before l s) = false.
Proof.
  intros Hl. assert (He : startswith l "" = false) by now destruct l.
  induction s as [|c s IH]; simpl.
  - rewrite He. simpl. now rewrite He.
  - destruct (startswith l (String c s)) eqn:Hs; [simpl; now rewrite He|].
    simpl. rewrite IH, orb_false_r.
    destruct (startswith l (String c (before l s))) eqn:Hb; [|reflexivity].
    destruct (before_is_prefix l s) as (rest & Hrest).
    pose proof (startswith_app _ _ rest Hb) as Hc.
    rewrite app_cons, <- Hrest in Hc. congruence.
Qed.

(** X25. The text [strip_think] returns never contains the opening tag of a
    reasoning block, whatever the reply: closed blocks, an unclosed block,
    and tags left over between them are all removed. *)
Theorem strip_think_removes_tag text :
  contains "<think>" (Agent.strip_think text) = false.
Proof.
  unfold Agent.strip_think, sub_empty at 1, finditer at 1.
  rewrite sub_think_open_before.
  match goal with |- context [before ?l ?s] =>
    pose proof (before_has_no_occurrence l s) as Hb;
    destruct (strip_spec (before l s)) as (ws1 & ws2 & Hs & _) end.
  destruct (contains "<think>" (strip _)) eqn:Hc; [|reflexivity].
  specialize (Hb ltac:(discriminate)). rewrite Hs in Hb.
  rewrite (contains_app_r _ _ _ (contains_app_l _ _ ws2 Hc)) in Hb. discriminate.
Qed.

(** ** [execute]: a workspace that cannot be written *)

(** X26. When the write of the code file fails and no prompt stands in
    the way (no callback, input data given, or no request detected),
    [execute] does not return: the exception of the write reaches the
    caller. Nothing is spawned, and of the executor only [last_code] has
    changed. *)
Theorem execute_raises_on_unwritable_workspace E code input_data st e :
  input_callback (self st) = None ∨ input_data ≠ None ∨ _detect_inputs code = [] →
  fs_write (code_file (self st)) code (fs st) = inl e →
  execute E code input_data st
  = (Raise e, mkState (set_last_code (Some code) (self st)) (fs st) (tick st) (log st)).
Proof.
  intros H Hw. unfold execute, mbind, M_bind.
  now rewrite (prepare_bypass _ _ _ H), Hw.
Qed.

Lemma execute_raises_on_unwritable_workspace_witness :
  (input_callback (self cleaned_state) = None
   ∨ Some "7" ≠ None ∨ _detect_inputs "print(input())" = []) ∧
  fs_write (code_file (self cleaned_state)) "print(input())" (fs cleaned_state)
    = inl (FileNotFoundError "/tmp/agent_exec_demo/run_code.py") ∧
  execute hanging_world "print(input())" (Some "7") cleaned_state
  = (Raise (FileNotFoundError "/tmp/agent_exec_demo/run_code.py"),
     mkState (set_last_code (Some "print(input())") (self cleaned_state))
       (fs cleaned_state) (tick cleaned_state) (log cleaned_state)).
Proof.
  assert (H1 : input_callback (self cleaned_state) = None
               ∨ Some "7" ≠ None ∨ _detect_inputs "print(input())" = []).
  { right. left. discriminate. }
  assert (H2 : fs_write (code_file (self cleaned_state)) "print(input())"
                 (fs cleaned_state)
               = inl (FileNotFoundError "/tmp/agent_exec_demo/run_code.py"))
    by (vm_compute; reflexivity).
  split; [exact H1|]. split; [exact H2|].
  exact (execute_raises_on_unwritable_workspace hanging_world "print(input())"
           (Some "7") cleaned_state
           (FileNotFoundError "/tmp/agent_exec_demo/run_code.py") H1 H2).
Defined.

(** ** [_detect_inputs]: the word [input] *)

(** X27. Code in which the word [input] does not occur has no request,
    and substitution leaves it as it is whatever the values. *)
Theorem code_without_input_is_untouched code :
  contains "input" code = false →
  _detect_inputs code = [] ∧ ∀ values, _replace_inputs code values = code.
Proof.
  intros Hc.
  assert (Hd : _detect_inputs code = []).
  { unfold _detect_inputs.
    destruct (finditer input_pattern code) as [|m ms] eqn:Hf; [reflexivity|].
    assert (Hin : m ∈ finditer input_pattern code)
      by (rewrite Hf; apply list_elem_of_here).
    apply scan_splits in Hin as (pre & used & post & -> & _ & _ & Hder).
    unfold input_pattern in Hder. cbn [derives] in Hder.
    destruct Hder as (u1 & u2 & c1 & -> & [-> _] & _).
    rewrite (contains_app_r "input" pre) in Hc; [discriminate|].
    rewrite app_assoc_str. apply contains_app_l. reflexivity. }
  split; [exact Hd|]. intros values. unfold _replace_inputs. now rewrite Hd.
Qed.

Lemma code_without_input_is_untouched_witness :
  contains "input" "print(1)" = false ∧
  _detect_inputs "print(1)" = [] ∧
  ∀ values, _replace_inputs "print(1)" values = "print(1)".
Proof.
  split; [reflexivity|].
  exact (code_without_input_is_untouched "print(1)" eq_refl).
Defined.

Lemma bare_call_found s :
  ∀ pos, contains "input()" s = true → scan input_pattern pos 0 s ≠ [].
Proof.
  induction s as [|c s IH]; intros pos Hc; [discriminate|].
  cbn [scan].
  destruct (match_here input_pattern pos (String c s)) as [[e cap]|] eqn:Hm;
    [discriminate|].
  apply IH. simpl in Hc. apply orb_true_iff in Hc as [Hs|Hs]; [|exact Hs].
  unfold startswith in Hs.
  destruct (strip_prefix "input()" (String c s)) as [rest|] eqn:Hp; [|discriminate].
  apply strip_prefix_spec in Hp.
  pose proof (input_pattern_accepts_bare_call "" "" rest pos eq_refl eq_refl) as Ha.
  change ("input" +:+ "" +:+ "(" +:+ "" +:+ ")" +:+ rest) with ("input()" +:+ rest) in Ha.
  rewrite <- Hp in Ha. congruence.
Qed.

(** X28. Code that contains a call [input()] written without blanks always
    has at least one request, so with a callback and without input data
    [execute] shows a prompt. *)
Theorem bare_call_is_detected code :
  contains "input()" code = true → _detect_inputs code ≠ [].
Proof.
  intros Hc Hd. unfold _detect_inputs in Hd. apply fmap_nil_inv in Hd.
  now apply (bare_call_found code 0 Hc).
Qed.

Lemma bare_call_is_detected_witness :
  contains "input()" "x = int(input())" = true ∧
  _detect_inputs "x = int(input())" ≠ [].
Proof.
  split; [reflexivity|].
  exact (bare_call_is_detected "x = int(input())" eq_refl).
Defined.

(** ** [main]: the model the session starts with *)

Lemma base_of_fallback : Startup.base_name Startup.FALLBACK_MODEL = "qwen3".
Proof. reflexivity. Qed.

(** X29. With a non-empty model list and a configured model other than the
    fallback, the session switches to the fallback exactly when the
    configured model is installed under neither its full name nor its base
    name and some installed model belongs to the family [qwen3]; the tag
    [qwen3:4b] itself need not be installed. In every other case the
    configured model is kept, installed or not. *)
Theorem fallback_chosen_by_family model models :
  models ≠ [] →
  model ≠ Startup.FALLBACK_MODEL →
  (Startup.select_model model models = Some Startup.FALLBACK_MODEL
   ↔ (model ∉ models) ∧ (model ∉ (Startup.base_name <$> models))
     ∧ ∃ x, x ∈ models ∧ Startup.base_name x = "qwen3") ∧
  (Startup.select_model model models ≠ Some Startup.FALLBACK_MODEL →
   Startup.select_model model models = Some model).
Proof.
  intros Hne Hm. unfold Startup.select_model.
  rewrite bool_decide_eq_false_2 by exact Hne.
  assert (Hfam : bool_decide (Startup.base_name Startup.FALLBACK_MODEL
                                ∈ Startup.base_name <$> models)
                 || bool_decide (Startup.FALLBACK_MODEL ∈ models) = true
                 ↔ ∃ x, x ∈ models ∧ Startup.base_name x = "qwen3").
  { rewrite orb_true_iff, !bool_decide_eq_true, base_of_fallback. split.
    - intros [H|H].
      + apply list_elem_of_fmap in H as (x & Hx & Hin). eauto.
      + exists Startup.FALLBACK_MODEL. split; [exact H|reflexivity].
    - intros (x & Hin & Hx). left. apply list_elem_of_fmap. eauto. }
  destruct (bool_decide (model ∈ Startup.base_name <$> models)) eqn:Hb;
    destruct (bool_decide (model ∈ models)) eqn:Hi; cbn [negb andb].
  - apply bool_decide_eq_true in Hb. split; [|reflexivity].
    split; [intros [= H]; congruence|tauto].
  - apply bool_decide_eq_true in Hb. split; [|reflexivity].
    split; [intros [= H]; congruence|tauto].
  - apply bool_decide_eq_true in Hi. split; [|reflexivity].
    split; [intros [= H]; congruence|tauto].
  - apply bool_decide_eq_false in Hb. apply bool_decide_eq_false in Hi.
    destruct (_ || _) eqn:Hf.
    + split; [|congruence]. split; [|reflexivity].
      intros _. split; [exact Hi|]. split; [exact Hb|]. now apply Hfam.
    + split; [|reflexivity]. split; [intros [= H]; congruence|].
      intros (_ & _ & Hx). apply Hfam in Hx. congruence.
Qed.

Lemma fallback_chosen_by_family_witness :
  ["qwen3:8b"] ≠ [] ∧
  "qwen3-coder-v4" ≠ Startup.FALLBACK_MODEL ∧
  (Startup.FALLBACK_MODEL ∉ ["qwen3:8b"]) ∧
  Startup.select_model "qwen3-coder-v4" ["qwen3:8b"] = Some Startup.FALLBACK_MODEL ∧
  (Startup.select_model "qwen3-coder-v4" ["qwen3:8b"] = Some Startup.FALLBACK_MODEL
   ↔ ("qwen3-coder-v4" ∉ ["qwen3:8b"])
     ∧ ("qwen3-coder-v4" ∉ (Startup.base_name <$> ["qwen3:8b"]))
     ∧ ∃ x, x ∈ ["qwen3:8b"] ∧ Startup.base_name x = "qwen3") ∧
  (Startup.select_model "qwen3-coder-v4" ["qwen3:8b"] ≠ Some Startup.FALLBACK_MODEL →
   Startup.select_model "qwen3-coder-v4" ["qwen3:8b"] = Some "qwen3-coder-v4").
Proof.
  assert (H1 : ["qwen3:8b"] ≠ ([] : list string)) by discriminate.
  assert (H2 : "qwen3-coder-v4" ≠ Startup.FALLBACK_MODEL) by discriminate.
  split; [exact H1|]. split; [exact H2|].
  split; [apply (proj1 (bool_decide_eq_false (_ ∈ _))); vm_compute; reflexivity|].
  split; [vm_compute; reflexivity|].
  exact (fallback_chosen_by_family "qwen3-coder-v4" ["qwen3:8b"] H1 H2).
Defined.

(** X30. The only way [main] returns before its loop is an empty model
    list. It has then read no line, called the generator for nothing and
    executed nothing; it has shown the connection error; and it has not
    cleaned up: the file system is as it was, workspace included. *)
Theorem early_return_leaves_workspace E model models inputs st st' :
  Startup.main E model models inputs st = (Ok None, st') →
  models = [] ∧
  fs st' = fs st ∧
  tick st' = tick st ∧
  log st'
  = log st ++ [EvOut (OutText "Error: Cannot connect to Ollama. Run 'ollama serve' first.")].
Proof.
  unfold Startup.main, Startup.select_model. intros H.
  apply bind_inv in H as ([] & st0 & H0 & H).
  unfold set_input_callback, modify_self in H0. injection H0 as <-.
  case_bool_decide as Hm.
  - unfold mbind, M_bind, emit, mret, M_ret in H. simpl in H.
    injection H as <-. auto.
  - exfalso.
    assert (Hs : ∀ m, (ag ← Agent.repl E inputs (Agent.mkLocals m [] None true 3);
                       cleanup;; mret (Some ag))
                        (mkState (set_callback (Some (terminal_input E)) (self st))
                           (fs st) (tick st) (log st))
                      ≠ (Ok None, st')).
    { intros m Hr. apply bind_inv in Hr as (ag & st1 & _ & Hr).
      apply bind_inv in Hr as ([] & st2 & _ & Hr). discriminate. }
    destruct (_ && _); [destruct (_ || _)|]; exact (Hs _ H).
Qed.

Lemma early_return_leaves_workspace_witness :
  Startup.main offline_world "qwen3-coder-v4" [] [Agent.Request "sort a list"] demo_state
  = (Ok None,
     (Startup.main offline_world "qwen3-coder-v4" [] [Agent.Request "sort a list"]
        demo_state).2) ∧
  (work_dir (self demo_state)
     ∈ dirs (fs (Startup.main offline_world "qwen3-coder-v4" []
                   [Agent.Request "sort a list"] demo_state).2)) ∧
  [] = ([] : list string) ∧
  fs (Startup.main offline_world "qwen3-coder-v4" [] [Agent.Request "sort a list"]
        demo_state).2 = fs demo_state ∧
  tick (Startup.main offline_world "qwen3-coder-v4" [] [Agent.Request "sort a list"]
          demo_state).2 = tick demo_state ∧
  log (Startup.main offline_world "qwen3-coder-v4" [] [Agent.Request "sort a list"]
         demo_state).2
  = log demo_state
    ++ [EvOut (OutText "Error: Cannot connect to Ollama. Run 'ollama serve' first.")].
Proof.
  assert (H : Startup.main offline_world "qwen3-coder-v4" []
                [Agent.Request "sort a list"] demo_state
              = (Ok None,
                 (Startup.main offline_world "qwen3-coder-v4" []
                    [Agent.Request "sort a list"] demo_state).2))
    by reflexivity.
  split; [exact H|].
  split; [apply (proj1 (bool_decide_eq_true (_ ∈ _))); vm_compute; reflexivity|].
  exact (early_return_leaves_workspace offline_world "qwen3-coder-v4" []
           [Agent.Request "sort a list"] demo_state
           (Startup.main offline_world "qwen3-coder-v4" []
              [Agent.Request "sort a list"] demo_state).2 H).
Defined.
